(** * Pose-sequence matching engine of the "disguise" game

    A shallow embedding of the matching core of the game: the pose value
    type, [SequenceMatcher], and the per-frame arbitration performed by
    [Game.checkPlayerMatches].

    Conventions of the embedding.
    - A JavaScript value that may be [null]/[undefined] where the code tests
      for it ([!state]) is an [option].
    - Scores are modelled twice. In the first part confidence scores and the
      tuning constants of [MATCHING_CONFIG] are exact rationals ([Q]), and
      [Math.min]/[Math.max] are [Qmin]/[Qmax]. The last part repeats the
      matcher and the arbitration with binary64 scores, as JavaScript
      computes them.
    - The [Map] from sequence ids to matchers is a [gmap string _].
    - An enemy reference held by the player ([currentMatchingEnemy],
      [confirmedMatchEnemy], [bestEnemy]) is the position of that enemy in
      [Game.enemies]; [null] is [None].
    - A statement that dereferences [undefined] throws; functions that can do
      so return [option], with [None] for the uncaught [TypeError].

    The rational model abstracts the rounding of binary floating point: the
    reward and the active decay (0.25) are exact there, the mixed decay (0.1)
    is not. It carries the statements about single calls and the invariants
    that hold whichever way a threshold test goes. The statements about
    confirmation and the grace period, where the side of a threshold a score
    falls on decides what a game does next, are made over the binary64
    model. *)

From Stdlib Require Import PrimFloat QArith Qminmax Lqa.
From stdpp Require Import base option list strings gmap.

Local Open Scope nat_scope.

(** ** Configuration *)

Module MATCHING_CONFIG.
Definition CONFIDENCE_MATCH : Q := 25 # 100.
Definition CONFIDENCE_DECAY_ACTIVE : Q := 25 # 100.
Definition CONFIDENCE_DECAY_MIXED : Q := 1 # 10.
Definition CONFIDENCE_DECAY_IDLE : Q := 0.
Definition QUALITY_THRESHOLD_BUILD : Q := 1 # 10.
Definition QUALITY_THRESHOLD_CONFIRM : Q := 35 # 100.
Definition GRACE_PERIOD : nat := 60.
Definition MAX_HISTORY_LENGTH : nat := 120.
End MATCHING_CONFIG.

(** [a > b] on numbers, as a boolean. *)
Definition Qgtb (a b : Q) : bool :=
  match (a ?= b)%Q with Gt => true | _ => false end.

(** ** Pose states *)

Record PoseState := {
  leftArmRaised : bool;
  rightArmRaised : bool;
  leftLegRaised : bool;
  rightLegRaised : bool;
  lampBlinking : bool
}.

#[export] Instance PoseState_eq_dec : EqDecision PoseState.
Proof. solve_decision. Defined.

(** [lastMatchFrame]: [-Infinity] until an update records a frame number. *)
Inductive FrameMark := NegInfinity | Frame (n : nat).

#[export] Instance FrameMark_eq_dec : EqDecision FrameMark.
Proof. solve_decision. Defined.

(** ** MoveSequence and Enemy (the fields the matching core reads) *)

Module MoveSequence.
Record t := { frames : list PoseState; id : string }.
End MoveSequence.

Module Enemy.
Record t := { bodyColor : string; moveSequence : MoveSequence.t }.
End Enemy.

(** ** SequenceMatcher *)

Module SequenceMatcher.

Record t := {
  sequence : list PoseState;
  sequenceLength : nat;
  matchPosition : nat;
  cyclesCompleted : nat;
  confidenceScore : Q;
  lastMatchFrame : FrameMark;
  isActive : bool
}.

(** [constructor(enemySequenceFrames)]. The two diagnostic fields
    [uniqueStates] and [statePatternLength] are computed once and never read
    again; they are left out. *)
Definition new (enemySequenceFrames : list PoseState) : t :=
  {| sequence := enemySequenceFrames;
     sequenceLength := length enemySequenceFrames;
     matchPosition := 0;
     cyclesCompleted := 0;
     confidenceScore := 0;
     lastMatchFrame := NegInfinity;
     isActive := false |}.

Definition statesEqual (state1 state2 : option PoseState) : bool :=
  match state1, state2 with
  | Some s1, Some s2 =>
      eqb (leftArmRaised s1) (leftArmRaised s2) &&
      eqb (rightArmRaised s1) (rightArmRaised s2) &&
      eqb (leftLegRaised s1) (leftLegRaised s2) &&
      eqb (rightLegRaised s1) (rightLegRaised s2)
  | _, _ => false
  end.

Definition isActiveState (state : option PoseState) : bool :=
  match state with
  | Some s =>
      leftArmRaised s || rightArmRaised s ||
      leftLegRaised s || rightLegRaised s
  | None => false
  end.

(** The [for] loop of [findBestStartingPosition], entered at index [i] with
    [rest] the frames from [i] on. *)
Fixpoint findFrom (playerState : option PoseState) (i : nat)
    (rest : list PoseState) : option nat :=
  match rest with
  | [] => None
  | frame :: rest' =>
      if isActiveState (Some frame) && statesEqual playerState (Some frame)
      then Some i
      else findFrom playerState (S i) rest'
  end.

(** Returns [None] where the code returns [-1]. *)
Definition findBestStartingPosition (m : t) (playerState : option PoseState)
    : option nat :=
  if negb (isActiveState playerState) then None
  else findFrom playerState 0 (sequence m).

Definition set_confidenceScore (c : Q) (m : t) : t :=
  {| sequence := sequence m; sequenceLength := sequenceLength m;
     matchPosition := matchPosition m; cyclesCompleted := cyclesCompleted m;
     confidenceScore := c;
     lastMatchFrame := lastMatchFrame m; isActive := isActive m |}.

Definition set_lastMatchFrame (f : FrameMark) (m : t) : t :=
  {| sequence := sequence m; sequenceLength := sequenceLength m;
     matchPosition := matchPosition m; cyclesCompleted := cyclesCompleted m;
     confidenceScore := confidenceScore m;
     lastMatchFrame := f; isActive := isActive m |}.

Definition set_isActive (b : bool) (m : t) : t :=
  {| sequence := sequence m; sequenceLength := sequenceLength m;
     matchPosition := matchPosition m; cyclesCompleted := cyclesCompleted m;
     confidenceScore := confidenceScore m;
     lastMatchFrame := lastMatchFrame m; isActive := b |}.

Definition set_matchPosition (p : nat) (m : t) : t :=
  {| sequence := sequence m; sequenceLength := sequenceLength m;
     matchPosition := p; cyclesCompleted := cyclesCompleted m;
     confidenceScore := confidenceScore m;
     lastMatchFrame := lastMatchFrame m; isActive := isActive m |}.

Definition set_cyclesCompleted (c : nat) (m : t) : t :=
  {| sequence := sequence m; sequenceLength := sequenceLength m;
     matchPosition := matchPosition m; cyclesCompleted := c;
     confidenceScore := confidenceScore m;
     lastMatchFrame := lastMatchFrame m; isActive := isActive m |}.

(** [this.sequence[this.matchPosition]]: [undefined] out of range. *)
Definition expectedState (m : t) : option PoseState :=
  sequence m !! matchPosition m.

(** The matcher after the call, and the returned boolean. *)
Definition updateMatch (m : t) (playerState : option PoseState)
    (frameNumber : nat) : t * bool :=
  let expected := expectedState m in
  if statesEqual playerState expected then
    (set_isActive true
       (set_lastMatchFrame (Frame frameNumber)
          (set_confidenceScore
             (Qmin 1 (confidenceScore m + MATCHING_CONFIG.CONFIDENCE_MATCH)) m)),
     true)
  else if negb (isActiveState playerState) && negb (isActiveState expected) then
    (set_confidenceScore
       (Qmax 0 (confidenceScore m - MATCHING_CONFIG.CONFIDENCE_DECAY_IDLE))
       (set_lastMatchFrame (Frame frameNumber) m),
     true)
  else if isActiveState playerState && isActiveState expected then
    (set_isActive false
       (set_confidenceScore
          (Qmax 0 (confidenceScore m - MATCHING_CONFIG.CONFIDENCE_DECAY_ACTIVE)) m),
     false)
  else
    (set_confidenceScore
       (Qmax 0 (confidenceScore m - MATCHING_CONFIG.CONFIDENCE_DECAY_MIXED)) m,
     true).

Definition advancePosition (m : t) : t :=
  let m1 := set_matchPosition (S (matchPosition m)) m in
  if decide (sequenceLength m1 <= matchPosition m1)
  then set_cyclesCompleted (S (cyclesCompleted m1)) (set_matchPosition 0 m1)
  else m1.

Definition reset (m : t) : t :=
  {| sequence := sequence m; sequenceLength := sequenceLength m;
     matchPosition := 0;
     cyclesCompleted := 0;
     confidenceScore := 0;
     lastMatchFrame := NegInfinity;
     isActive := false |}.

Definition getMatchQuality (m : t) : Q := confidenceScore m.

Definition isFullCycleComplete (m : t) : bool :=
  bool_decide (0 < cyclesCompleted m) && bool_decide (matchPosition m = 0).

(** What every caller does with one player frame: [updateMatch], then
    [advancePosition] when the update returned [true]. *)
Definition step (m : t) (playerState : option PoseState) (frameNumber : nat)
    : t * bool :=
  let '(m1, matched) := updateMatch m playerState frameNumber in
  (if matched then advancePosition m1 else m1, matched).

End SequenceMatcher.

(** ** Player (the fields the matching core reads or writes) *)

Module Player.

Record t := {
  states : PoseState;
  bodyColor : string;
  headColor : string;
  originalColor : string;
  moveHistory : list PoseState;
  maxHistoryLength : nat;
  frameCounter : nat;
  sequenceMatchers : gmap string SequenceMatcher.t;
  currentMatchingEnemy : option nat;
  confirmedMatchEnemy : option nat;
  graceFrames : nat;
  gracePeriod : nat
}.

Definition new : t :=
  {| states := {| leftArmRaised := false; rightArmRaised := false;
                  leftLegRaised := false; rightLegRaised := false;
                  lampBlinking := false |};
     bodyColor := "#00ffcc"; headColor := "#00ffcc";
     originalColor := "#00ffcc";
     moveHistory := [];
     maxHistoryLength := MATCHING_CONFIG.MAX_HISTORY_LENGTH;
     frameCounter := 0;
     sequenceMatchers := ∅;
     currentMatchingEnemy := None;
     confirmedMatchEnemy := None;
     graceFrames := 0;
     gracePeriod := MATCHING_CONFIG.GRACE_PERIOD |}.

Definition set_states (s : PoseState) (p : t) : t :=
  {| states := s; bodyColor := bodyColor p; headColor := headColor p;
     originalColor := originalColor p; moveHistory := moveHistory p;
     maxHistoryLength := maxHistoryLength p; frameCounter := frameCounter p;
     sequenceMatchers := sequenceMatchers p;
     currentMatchingEnemy := currentMatchingEnemy p;
     confirmedMatchEnemy := confirmedMatchEnemy p;
     graceFrames := graceFrames p; gracePeriod := gracePeriod p |}.

Definition set_moveHistory (h : list PoseState) (p : t) : t :=
  {| states := states p; bodyColor := bodyColor p; headColor := headColor p;
     originalColor := originalColor p; moveHistory := h;
     maxHistoryLength := maxHistoryLength p; frameCounter := frameCounter p;
     sequenceMatchers := sequenceMatchers p;
     currentMatchingEnemy := currentMatchingEnemy p;
     confirmedMatchEnemy := confirmedMatchEnemy p;
     graceFrames := graceFrames p; gracePeriod := gracePeriod p |}.

Definition set_frameCounter (n : nat) (p : t) : t :=
  {| states := states p; bodyColor := bodyColor p; headColor := headColor p;
     originalColor := originalColor p; moveHistory := moveHistory p;
     maxHistoryLength := maxHistoryLength p; frameCounter := n;
     sequenceMatchers := sequenceMatchers p;
     currentMatchingEnemy := currentMatchingEnemy p;
     confirmedMatchEnemy := confirmedMatchEnemy p;
     graceFrames := graceFrames p; gracePeriod := gracePeriod p |}.

Definition set_sequenceMatchers (ms : gmap string SequenceMatcher.t) (p : t) : t :=
  {| states := states p; bodyColor := bodyColor p; headColor := headColor p;
     originalColor := originalColor p; moveHistory := moveHistory p;
     maxHistoryLength := maxHistoryLength p; frameCounter := frameCounter p;
     sequenceMatchers := ms;
     currentMatchingEnemy := currentMatchingEnemy p;
     confirmedMatchEnemy := confirmedMatchEnemy p;
     graceFrames := graceFrames p; gracePeriod := gracePeriod p |}.

Definition set_currentMatchingEnemy (e : option nat) (p : t) : t :=
  {| states := states p; bodyColor := bodyColor p; headColor := headColor p;
     originalColor := originalColor p; moveHistory := moveHistory p;
     maxHistoryLength := maxHistoryLength p; frameCounter := frameCounter p;
     sequenceMatchers := sequenceMatchers p;
     currentMatchingEnemy := e;
     confirmedMatchEnemy := confirmedMatchEnemy p;
     graceFrames := graceFrames p; gracePeriod := gracePeriod p |}.

Definition set_confirmedMatchEnemy (e : option nat) (p : t) : t :=
  {| states := states p; bodyColor := bodyColor p; headColor := headColor p;
     originalColor := originalColor p; moveHistory := moveHistory p;
     maxHistoryLength := maxHistoryLength p; frameCounter := frameCounter p;
     sequenceMatchers := sequenceMatchers p;
     currentMatchingEnemy := currentMatchingEnemy p;
     confirmedMatchEnemy := e;
     graceFrames := graceFrames p; gracePeriod := gracePeriod p |}.

Definition set_graceFrames (n : nat) (p : t) : t :=
  {| states := states p; bodyColor := bodyColor p; headColor := headColor p;
     originalColor := originalColor p; moveHistory := moveHistory p;
     maxHistoryLength := maxHistoryLength p; frameCounter := frameCounter p;
     sequenceMatchers := sequenceMatchers p;
     currentMatchingEnemy := currentMatchingEnemy p;
     confirmedMatchEnemy := confirmedMatchEnemy p;
     graceFrames := n; gracePeriod := gracePeriod p |}.

Definition morphToColor (newColor : string) (p : t) : t :=
  {| states := states p; bodyColor := newColor; headColor := newColor;
     originalColor := originalColor p; moveHistory := moveHistory p;
     maxHistoryLength := maxHistoryLength p; frameCounter := frameCounter p;
     sequenceMatchers := sequenceMatchers p;
     currentMatchingEnemy := currentMatchingEnemy p;
     confirmedMatchEnemy := confirmedMatchEnemy p;
     graceFrames := graceFrames p; gracePeriod := gracePeriod p |}.

(** Push a copy of the current pose; drop the oldest entry once the log is
    longer than [maxHistoryLength]. *)
Definition recordMove (p : t) : t :=
  let h := moveHistory p ++ [states p] in
  set_moveHistory
    (if decide (maxHistoryLength p < length h) then drop 1 h else h) p.

(** [update(keys)], as far as matching is concerned: the pose this frame is
    [pose] (the toggles of the key handlers and the lamp timer have been
    applied), and it is logged. Movement and physics are left out. *)
Definition update (pose : PoseState) (p : t) : t :=
  recordMove (set_states pose p).

End Player.

(** ** Game: the arbitration of [checkPlayerMatches] *)

Module Game.

Record t := {
  player : Player.t;
  enemies : list Enemy.t;
  frameNumber : nat
}.

(** [constructor], with the enemy list of [createEnemies] as a parameter. *)
Definition new (es : list Enemy.t) : t :=
  {| player := Player.new; enemies := es; frameNumber := 0 |}.

Definition enemyId (e : Enemy.t) : string :=
  MoveSequence.id (Enemy.moveSequence e).

Definition enemyFrames (e : Enemy.t) : list PoseState :=
  MoveSequence.frames (Enemy.moveSequence e).

(** "Initialize matchers for all enemies if not already done". *)
Definition initMatchers (es : list Enemy.t)
    (ms : gmap string SequenceMatcher.t) : gmap string SequenceMatcher.t :=
  foldl (fun ms enemy =>
           match ms !! enemyId enemy with
           | Some _ => ms
           | None => <[enemyId enemy := SequenceMatcher.new (enemyFrames enemy)]> ms
           end) ms es.

(** The body shared by the "confirmed" and the "currently tracked" branches:
    update that enemy's matcher only. Returns the matchers and the quality. *)
Definition trackEnemy (es : list Enemy.t) (ms : gmap string SequenceMatcher.t)
    (e : nat) (playerState : PoseState) (frame : nat)
    : option (gmap string SequenceMatcher.t * Q) :=
  enemy ← es !! e;
  matcher ← ms !! enemyId enemy;
  let '(m1, _) := SequenceMatcher.step matcher (Some playerState) frame in
  Some (<[enemyId enemy := m1]> ms, SequenceMatcher.getMatchQuality m1).

(** The search loop over all enemies, entered at enemy number [i] with
    [rest] the enemies from [i] on; the accumulator is the matcher map,
    [bestEnemy] and [bestMatchQuality]. *)
Fixpoint searchFrom (playerState : PoseState) (frame : nat) (i : nat)
    (rest : list Enemy.t)
    (acc : gmap string SequenceMatcher.t * option nat * Q)
    : option (gmap string SequenceMatcher.t * option nat * Q) :=
  match rest with
  | [] => Some acc
  | enemy :: rest' =>
      let '(ms, bestEnemy, bestMatchQuality) := acc in
      matcher ← ms !! enemyId enemy;
      match SequenceMatcher.findBestStartingPosition matcher (Some playerState) with
      | None => searchFrom playerState frame (S i) rest' acc
      | Some startPos =>
          let m0 := SequenceMatcher.set_matchPosition startPos
                      (SequenceMatcher.reset matcher) in
          let '(m1, _) := SequenceMatcher.step m0 (Some playerState) frame in
          let ms1 := <[enemyId enemy := m1]> ms in
          let quality := SequenceMatcher.getMatchQuality m1 in
          if Qgtb quality bestMatchQuality
          then searchFrom playerState frame (S i) rest' (ms1, Some i, quality)
          else searchFrom playerState frame (S i) rest' (ms1, bestEnemy, bestMatchQuality)
      end
  end.

(** The first half of [checkPlayerMatches] after the warm-up guard: which
    matchers are updated, and the resulting [bestEnemy], [bestMatchQuality]. *)
Definition updateMatchers (pl : Player.t) (es : list Enemy.t)
    (ms : gmap string SequenceMatcher.t)
    : option (gmap string SequenceMatcher.t * option nat * Q) :=
  let playerState := Player.states pl in
  let frame := Player.frameCounter pl in
  match Player.confirmedMatchEnemy pl with
  | Some c =>
      '(ms1, q) ← trackEnemy es ms c playerState frame;
      Some (ms1, Some c, q)
  | None =>
      match Player.currentMatchingEnemy pl with
      | Some c =>
          '(ms1, q) ← trackEnemy es ms c playerState frame;
          Some (ms1, Some c, q)
      | None => searchFrom playerState frame 0 es (ms, None, 0%Q)
      end
  end.

(** "Handle state transitions". *)
Definition handleTransitions (pl : Player.t) (es : list Enemy.t)
    (bestEnemy : option nat) (bestMatchQuality : Q) : option Player.t :=
  match Player.confirmedMatchEnemy pl with
  | Some c =>
      confirmed ← es !! c;
      if bool_decide (bestEnemy = Some c) &&
         Qgtb bestMatchQuality MATCHING_CONFIG.QUALITY_THRESHOLD_CONFIRM
      then
        Some (Player.morphToColor (Enemy.bodyColor confirmed)
                (Player.set_graceFrames 0 pl))
      else
        let pl1 := Player.set_graceFrames (S (Player.graceFrames pl)) pl in
        if decide (Player.graceFrames pl1 < Player.gracePeriod pl1)
        then Some (Player.morphToColor (Enemy.bodyColor confirmed) pl1)
        else
          let pl2 := Player.morphToColor (Player.originalColor pl1)
                       (Player.set_currentMatchingEnemy None
                          (Player.set_confirmedMatchEnemy None pl1)) in
          Some (Player.set_sequenceMatchers
                  (SequenceMatcher.reset <$> Player.sequenceMatchers pl2) pl2)
  | None =>
      match bestEnemy with
      | Some b =>
          if Qgtb bestMatchQuality MATCHING_CONFIG.QUALITY_THRESHOLD_BUILD
          then
            best ← es !! b;
            matcher ← Player.sequenceMatchers pl !! enemyId best;
            if decide (0 < SequenceMatcher.cyclesCompleted matcher)
            then
              Some (Player.morphToColor (Enemy.bodyColor best)
                      (Player.set_graceFrames 0
                         (Player.set_currentMatchingEnemy (Some b)
                            (Player.set_confirmedMatchEnemy (Some b) pl))))
            else
              Some (Player.morphToColor (Enemy.bodyColor best)
                      (Player.set_currentMatchingEnemy (Some b) pl))
          else
            Some (Player.morphToColor (Player.originalColor pl)
                    (Player.set_currentMatchingEnemy None pl))
      | None =>
          Some (Player.morphToColor (Player.originalColor pl)
                  (Player.set_currentMatchingEnemy None pl))
      end
  end.

Definition set_player (p : Player.t) (g : t) : t :=
  {| player := p; enemies := enemies g; frameNumber := frameNumber g |}.

Definition checkPlayerMatches (g : t) : option t :=
  let pl := player g in
  if decide (length (Player.moveHistory pl) < 5) then Some g
  else
    let ms := initMatchers (enemies g) (Player.sequenceMatchers pl) in
    '(ms1, bestEnemy, bestMatchQuality) ← updateMatchers pl (enemies g) ms;
    pl1 ← handleTransitions (Player.set_sequenceMatchers ms1 pl) (enemies g)
            bestEnemy bestMatchQuality;
    Some (set_player pl1 g).

(** [update()], with the pose the player holds this frame as a parameter.
    The enemies' own animation and physics do not enter the matching. *)
Definition update (pose : PoseState) (g : t) : option t :=
  let pl := Player.update pose (player g) in
  checkPlayerMatches
    {| player := Player.set_frameCounter (S (Player.frameCounter pl)) pl;
       enemies := enemies g;
       frameNumber := S (frameNumber g) |}.

(** Successive frames. *)
Fixpoint run (poses : list PoseState) (g : t) : option t :=
  match poses with
  | [] => Some g
  | pose :: rest => g1 ← update pose g; run rest g1
  end.

(** [createSequence(pattern)]: every authored pose is held for 150 frames. *)
Definition createSequence (pattern : list PoseState) : list PoseState :=
  pattern ≫= replicate 150.

Definition pose (la ra ll rl : bool) : PoseState :=
  {| leftArmRaised := la; rightArmRaised := ra;
     leftLegRaised := ll; rightLegRaised := rl; lampBlinking := false |}.

Definition createEnemies : list Enemy.t :=
  [ {| Enemy.bodyColor := "#ff00ff";
       Enemy.moveSequence :=
         {| MoveSequence.frames :=
              createSequence [pose true false false false; pose false false false false];
            MoveSequence.id := "enemy1" |} |};
    {| Enemy.bodyColor := "#ff8800";
       Enemy.moveSequence :=
         {| MoveSequence.frames :=
              createSequence [pose false false false true; pose false false false false];
            MoveSequence.id := "enemy2" |} |};
    {| Enemy.bodyColor := "#00ffff";
       Enemy.moveSequence :=
         {| MoveSequence.frames :=
              createSequence [pose true true false false; pose false false false false];
            MoveSequence.id := "enemy3" |} |} ].

End Game.

(** * Properties of the pose predicates *)

Section PoseFacts.
Import SequenceMatcher.

Lemma statesEqual_Some_iff (a b : PoseState) :
  statesEqual (Some a) (Some b) = true ↔
  leftArmRaised a = leftArmRaised b ∧ rightArmRaised a = rightArmRaised b ∧
  leftLegRaised a = leftLegRaised b ∧ rightLegRaised a = rightLegRaised b.
Proof.
  unfold statesEqual. rewrite !andb_true_iff, !eqb_true_iff. tauto.
Qed.

Lemma statesEqual_self (s : PoseState) : statesEqual (Some s) (Some s) = true.
Proof. by apply statesEqual_Some_iff. Qed.

Lemma statesEqual_sym (a b : option PoseState) :
  statesEqual a b = statesEqual b a.
Proof.
  destruct a as [a|], b as [b|]; try reflexivity.
  apply eq_true_iff_eq. rewrite !statesEqual_Some_iff. intuition congruence.
Qed.

Lemma statesEqual_active (a b : option PoseState) :
  statesEqual a b = true → isActiveState a = isActiveState b.
Proof.
  destruct a as [a|], b as [b|]; try discriminate.
  intros (H1 & H2 & H3 & H4)%statesEqual_Some_iff. simpl. congruence.
Qed.

(** C8. Comparison with an absent pose is total and never a match:
    [statesEqual] with [null] on either side, or on both, is [false], and
    [isActiveState(null)] is [false]. *)
Theorem null_pose_never_equal_never_active (s : PoseState) :
  statesEqual None (Some s) = false ∧
  statesEqual (Some s) None = false ∧
  statesEqual None None = false ∧
  isActiveState None = false.
Proof. repeat split. Qed.

(** C9. Structural equality of poses is reflexive and symmetric, and its
    result does not depend on the [lampBlinking] field of either argument. *)
Theorem statesEqual_reflexive_symmetric_ignores_lamp :
  (∀ s : PoseState, statesEqual (Some s) (Some s) = true) ∧
  (∀ a b : option PoseState, statesEqual a b = statesEqual b a) ∧
  (∀ la ra ll rl la' ra' ll' rl' lamp1 lamp1' lamp2 lamp2',
     statesEqual (Some (Build_PoseState la ra ll rl lamp1))
                 (Some (Build_PoseState la' ra' ll' rl' lamp1')) =
     statesEqual (Some (Build_PoseState la ra ll rl lamp2))
                 (Some (Build_PoseState la' ra' ll' rl' lamp2'))).
Proof.
  split; [exact statesEqual_self|].
  split; [exact statesEqual_sym|].
  reflexivity.
Qed.

End PoseFacts.

(** * Properties of one matcher *)

Section MatcherFacts.
Import SequenceMatcher MATCHING_CONFIG.

(** C1. [updateMatch] takes the first applicable of four cases, stated here
    by the matcher it leaves and the boolean it returns: a perfect match
    (reward clamped to 1, frame recorded, [isActive] set); both idle (frame
    recorded, idle decay clamped at 0); both active but different (active
    decay clamped at 0, [isActive] cleared, [false]); exactly one active
    (mixed decay clamped at 0). No case touches [matchPosition],
    [cyclesCompleted] or the sequence. *)
Theorem updateMatch_four_cases (m : t) (p : PoseState) (f : nat) :
  let e := expectedState m in
  let c := confidenceScore m in
  (statesEqual (Some p) e = true →
     updateMatch m (Some p) f =
       ({| sequence := sequence m; sequenceLength := sequenceLength m;
           matchPosition := matchPosition m;
           cyclesCompleted := cyclesCompleted m;
           confidenceScore := Qmin 1 (c + CONFIDENCE_MATCH);
           lastMatchFrame := Frame f;
           isActive := true |}, true)) ∧
  (statesEqual (Some p) e = false →
   isActiveState (Some p) = false → isActiveState e = false →
     updateMatch m (Some p) f =
       ({| sequence := sequence m; sequenceLength := sequenceLength m;
           matchPosition := matchPosition m;
           cyclesCompleted := cyclesCompleted m;
           confidenceScore := Qmax 0 (c - CONFIDENCE_DECAY_IDLE);
           lastMatchFrame := Frame f;
           isActive := isActive m |}, true)) ∧
  (statesEqual (Some p) e = false →
   isActiveState (Some p) = true → isActiveState e = true →
     updateMatch m (Some p) f =
       ({| sequence := sequence m; sequenceLength := sequenceLength m;
           matchPosition := matchPosition m;
           cyclesCompleted := cyclesCompleted m;
           confidenceScore := Qmax 0 (c - CONFIDENCE_DECAY_ACTIVE);
           lastMatchFrame := lastMatchFrame m;
           isActive := false |}, false)) ∧
  (isActiveState (Some p) ≠ isActiveState e →
     updateMatch m (Some p) f =
       ({| sequence := sequence m; sequenceLength := sequenceLength m;
           matchPosition := matchPosition m;
           cyclesCompleted := cyclesCompleted m;
           confidenceScore := Qmax 0 (c - CONFIDENCE_DECAY_MIXED);
           lastMatchFrame := lastMatchFrame m;
           isActive := isActive m |}, true)) ∧
  matchPosition (updateMatch m (Some p) f).1 = matchPosition m ∧
  cyclesCompleted (updateMatch m (Some p) f).1 = cyclesCompleted m.
Proof.
  intros e c. subst c. unfold updateMatch. fold e.
  repeat split.
  - by intros ->.
  - by intros -> -> ->.
  - by intros -> -> ->.
  - intros Hne.
    destruct (statesEqual (Some p) e) eqn:Heq.
    { by apply statesEqual_active in Heq. }
    destruct (isActiveState (Some p)), (isActiveState e); done.
  - by repeat case_match.
  - by repeat case_match.
Qed.

End MatcherFacts.

(** ** The confidence score stays in [0,1] *)

Section Confidence.
Import SequenceMatcher MATCHING_CONFIG.

Definition inUnit (c : Q) : Prop := (0 <= c)%Q ∧ (c <= 1)%Q.

(** A finite sequence of [updateMatch] calls, each with its own player pose
    (possibly absent) and frame number. *)
Definition updates (m : t) (calls : list (option PoseState * nat)) : t :=
  foldl (fun m call => (updateMatch m call.1 call.2).1) m calls.

Lemma reward_inUnit (c : Q) :
  inUnit c → inUnit (Qmin 1 (c + CONFIDENCE_MATCH)).
Proof.
  intros [H0 H1]. split.
  - apply Q.min_glb; [done|]. unfold CONFIDENCE_MATCH. lra.
  - apply Q.le_min_l.
Qed.

Lemma decay_inUnit (c d : Q) :
  (0 <= d)%Q → inUnit c → inUnit (Qmax 0 (c - d)).
Proof.
  intros Hd [H0 H1]. split.
  - apply Q.le_max_l.
  - apply Q.max_lub; lra.
Qed.

Lemma updateMatch_inUnit (m : t) (p : option PoseState) (f : nat) :
  inUnit (confidenceScore m) →
  inUnit (confidenceScore (updateMatch m p f).1).
Proof.
  intros Hc. unfold updateMatch.
  repeat case_match; simpl;
    first [ by apply reward_inUnit | by apply decay_inUnit ].
Qed.

Lemma updates_inUnit (calls : list (option PoseState * nat)) (m : t) :
  inUnit (confidenceScore m) → inUnit (confidenceScore (updates m calls)).
Proof.
  revert m. induction calls as [|call calls IH]; intros m Hm; [done|].
  apply IH. by apply updateMatch_inUnit.
Qed.

(** C2. From the initial state of a matcher, or from a reset one, any
    finite sequence of [updateMatch] calls with arbitrary poses and frame
    numbers leaves [confidenceScore] in the closed interval [0,1]. *)
Theorem confidenceScore_always_in_unit_interval :
  (∀ (frames : list PoseState) (calls : list (option PoseState * nat)),
     (0 <= confidenceScore (updates (new frames) calls))%Q ∧
     (confidenceScore (updates (new frames) calls) <= 1)%Q) ∧
  (∀ (m : t) (calls : list (option PoseState * nat)),
     (0 <= confidenceScore (updates (reset m) calls))%Q ∧
     (confidenceScore (updates (reset m) calls) <= 1)%Q).
Proof.
  split; intros; apply updates_inUnit; split; simpl; lra.
Qed.

End Confidence.

(** ** Where a match may start *)

Section StartingPosition.
Import SequenceMatcher.

(** Frame [i] of the reference sequence is active and structurally equal to
    the player's pose. *)
Definition startsAt (frames : list PoseState) (p : PoseState) (i : nat) : Prop :=
  ∃ fr, frames !! i = Some fr ∧
        isActiveState (Some fr) = true ∧
        statesEqual (Some p) (Some fr) = true.

Lemma findFrom_Some (p : PoseState) (rest : list PoseState) (k i : nat) :
  findFrom (Some p) k rest = Some i →
  ∃ d, i = k + d ∧ startsAt rest p d ∧ ∀ j, j < d → ¬ startsAt rest p j.
Proof.
  revert k. induction rest as [|fr rest IH]; intros k; cbn [findFrom]; [done|].
  destruct (isActiveState (Some fr) && statesEqual (Some p) (Some fr)) eqn:Hhit.
  - intros [= Hk]. exists 0. apply andb_true_iff in Hhit as [Ha He].
    split; [lia|]. split; [by exists fr|]. intros j Hj. lia.
  - intros (d & -> & Hd & Hmin)%IH. exists (S d).
    split; [lia|]. split; [exact Hd|].
    intros [|j] Hj.
    + intros (fr' & [= <-] & Ha & He). by rewrite Ha, He in Hhit.
    + apply Hmin. lia.
Qed.

Lemma findFrom_None (p : PoseState) (rest : list PoseState) (k : nat) :
  findFrom (Some p) k rest = None → ∀ j, ¬ startsAt rest p j.
Proof.
  revert k. induction rest as [|fr rest IH]; intros k; cbn [findFrom].
  - intros _ j (fr & Hfr & _). by rewrite lookup_nil in Hfr.
  - destruct (isActiveState (Some fr) && statesEqual (Some p) (Some fr)) eqn:Hhit;
      [done|].
    intros Hnone [|j].
    + intros (fr' & [= <-] & Ha & He). by rewrite Ha, He in Hhit.
    + by apply (IH (S k)).
Qed.

(** C3. On an idle pose [findBestStartingPosition] answers "none"; on an
    active pose it answers the least index whose reference frame is active
    and structurally equal to the pose, and "none" when there is no such
    index. *)
Theorem findBestStartingPosition_least_active_match (m : t) (p : PoseState) :
  if isActiveState (Some p) then
    match findBestStartingPosition m (Some p) with
    | Some i => startsAt (sequence m) p i ∧
                ∀ j, j < i → ¬ startsAt (sequence m) p j
    | None => ∀ j, ¬ startsAt (sequence m) p j
    end
  else findBestStartingPosition m (Some p) = None.
Proof.
  unfold findBestStartingPosition.
  destruct (isActiveState (Some p)) eqn:Hact; simpl; [|done].
  destruct (findFrom (Some p) 0 (sequence m)) as [i|] eqn:Hfind.
  - by apply findFrom_Some in Hfind as (d & -> & Hd & Hmin).
  - by eapply findFrom_None.
Qed.

End StartingPosition.

(** ** Following the reference sequence itself *)

Section OwnSequence.
Import SequenceMatcher MATCHING_CONFIG.

(** Feed the matcher one pose per frame, from frame number [frameNumber] on:
    [updateMatch], then [advancePosition] when the update was accepted.
    Returns the matcher and the number of accepted updates. *)
Fixpoint feed (m : t) (poses : list PoseState) (frameNumber : nat) : t * nat :=
  match poses with
  | [] => (m, 0)
  | p :: rest =>
      let '(m1, matched) := step m (Some p) frameNumber in
      let '(m2, n) := feed m1 rest (S frameNumber) in
      (m2, if matched then S n else n)
  end.

(** [n × rewardConstant]. *)
Definition rewardTimes (n : nat) : Q :=
  (inject_Z (Z.of_nat n) * CONFIDENCE_MATCH)%Q.

Lemma clamp_reward (a c : Q) :
  (c == Qmin 1 a)%Q →
  (Qmin 1 (c + CONFIDENCE_MATCH) == Qmin 1 (a + CONFIDENCE_MATCH))%Q.
Proof.
  intros Hc. unfold CONFIDENCE_MATCH.
  destruct (Q.min_spec 1 a) as [[? Ha]|[? Ha]],
           (Q.min_spec 1 (c + (25 # 100))) as [[? H1]|[? H1]],
           (Q.min_spec 1 (a + (25 # 100))) as [[? H2]|[? H2]];
    rewrite H1, H2; lra.
Qed.

Lemma rewardTimes_S (a : Q) (n : nat) :
  (a + CONFIDENCE_MATCH + rewardTimes n == a + rewardTimes (S n))%Q.
Proof.
  unfold rewardTimes. rewrite Nat2Z.inj_succ, <- Z.add_1_r, inject_Z_plus.
  simpl. ring.
Qed.

Lemma rewardTimes_0 (a : Q) : (a + rewardTimes 0 == a)%Q.
Proof. unfold rewardTimes. change (inject_Z (Z.of_nat 0)) with 0%Q. ring. Qed.

Lemma rewardTimes_1 (a : Q) : (a + rewardTimes 1 == a + CONFIDENCE_MATCH)%Q.
Proof. unfold rewardTimes. change (inject_Z (Z.of_nat 1)) with 1%Q. ring. Qed.

(** One frame equal to the expected one is a perfect match. *)
Lemma step_expected (m : t) (x : PoseState) (f : nat) :
  expectedState m = Some x →
  step m (Some x) f =
    (advancePosition
       (set_isActive true
          (set_lastMatchFrame (Frame f)
             (set_confidenceScore
                (Qmin 1 (confidenceScore m + CONFIDENCE_MATCH)) m))), true).
Proof.
  intros He. unfold step, updateMatch. by rewrite He, statesEqual_self.
Qed.

Lemma feed_own_frames (r1 : list PoseState) :
  ∀ (pre r2 : list PoseState) (m : t) (f : nat) (a : Q),
    sequence m = pre ++ r1 ++ r2 →
    sequenceLength m = length (pre ++ r1 ++ r2) →
    matchPosition m = length pre →
    (confidenceScore m == Qmin 1 a)%Q →
    ∃ m', feed m r1 f = (m', length r1) ∧
          (confidenceScore m' == Qmin 1 (a + rewardTimes (length r1)))%Q ∧
          (r2 ≠ [] ∨ r1 = [] →
             matchPosition m' = length pre + length r1 ∧
             cyclesCompleted m' = cyclesCompleted m) ∧
          (r2 = [] → r1 ≠ [] →
             matchPosition m' = 0 ∧
             cyclesCompleted m' = S (cyclesCompleted m)).
Proof.
  induction r1 as [|x r1 IH]; intros pre r2 m f a Hseq Hlen Hpos Hc.
  - exists m. cbn [feed length]. split; [done|]. split.
    + by rewrite Hc, rewardTimes_0.
    + split; [intros _; split; [lia|done] | done].
  - assert (expectedState m = Some x) as He.
    { unfold expectedState. rewrite Hseq, Hpos.
      by rewrite lookup_app_r, Nat.sub_diag by lia. }
    cbn [feed]. rewrite (step_expected _ _ _ He).
    set (m1 := advancePosition _).
    assert (sequence m1 = sequence m ∧ sequenceLength m1 = sequenceLength m ∧
            confidenceScore m1 = Qmin 1 (confidenceScore m + CONFIDENCE_MATCH))
      as (Hs1 & Hl1 & Hc1).
    { subst m1. unfold advancePosition. by case_decide. }
    rewrite !length_app in Hlen. cbn [length] in Hlen.
    destruct (decide (r1 = [] ∧ r2 = [])) as [[-> ->]|Hmore].
    + (* the last frame of the sequence: the position wraps *)
      assert (matchPosition m1 = 0 ∧ cyclesCompleted m1 = S (cyclesCompleted m))
        as [Hp1 Hy1].
      { subst m1. unfold advancePosition. simpl in *.
        case_decide as Hwrap; simpl; [done|]. lia. }
      exists m1. cbn [feed length]. split; [done|]. split.
      * by rewrite Hc1, (clamp_reward a _ Hc), rewardTimes_1.
      * split; [|done]. by intros [?|?].
    + (* more frames follow: the position moves on *)
      assert (matchPosition m1 = length (pre ++ [x]) ∧
              cyclesCompleted m1 = cyclesCompleted m) as [Hp1 Hy1].
      { subst m1. unfold advancePosition. rewrite length_app. simpl in *.
        case_decide as Hwrap; simpl; [|lia].
        exfalso. apply Hmore.
        split; apply length_zero_iff_nil; lia. }
      destruct (IH (pre ++ [x]) r2 m1 (S f) (a + CONFIDENCE_MATCH)%Q)
        as (m' & Hfeed & Hc' & Hgo & Hwrap).
      { by rewrite Hs1, Hseq, <- app_assoc. }
      { rewrite Hl1, Hlen, !length_app. simpl. lia. }
      { done. }
      { rewrite Hc1. by apply clamp_reward. }
      exists m'. rewrite Hfeed. cbn [length]. split; [done|]. split.
      * rewrite Hc'. by rewrite rewardTimes_S.
      * rewrite length_app in Hgo. cbn [length] in Hgo. split.
        -- intros [Hr2|?]; [|done].
           destruct Hgo as [-> ->]; [by left|]. split; [lia|done].
        -- intros -> _. destruct r1 as [|y r1]; [by destruct Hmore|].
           destruct Hwrap as [-> ->]; [done..|]. by rewrite Hy1.
Qed.

(** C4. A freshly reset matcher over a reference sequence of length
    [N >= 1], fed that very sequence frame by frame, accepts every update;
    [cyclesCompleted] is still 0 after each of the first [N-1] accepted
    updates and is 1 after the [N]-th, when [matchPosition] is back at 0 and
    [confidenceScore] equals [min(1, N × rewardConstant)]. *)
Theorem own_sequence_completes_first_cycle (frames : list PoseState) (f0 : nat) :
  1 ≤ length frames →
  (∀ k, k < length frames →
     ∃ mk, feed (reset (new frames)) (take k frames) f0 = (mk, k) ∧
           cyclesCompleted mk = 0 ∧ matchPosition mk = k) ∧
  (∃ mN, feed (reset (new frames)) frames f0 = (mN, length frames) ∧
         cyclesCompleted mN = 1 ∧ matchPosition mN = 0 ∧
         (confidenceScore mN == Qmin 1 (rewardTimes (length frames)))%Q).
Proof.
  intros HN. split.
  - intros k Hk.
    destruct (feed_own_frames (take k frames) [] (drop k frames)
                (reset (new frames)) f0 0%Q)
      as (mk & Hfeed & _ & Hgo & _); simpl.
    + by rewrite take_drop.
    + by rewrite take_drop.
    + done.
    + done.
    + rewrite length_take, Nat.min_l in Hfeed, Hgo by lia.
      exists mk. split; [done|].
      destruct Hgo as [-> ->]; [|done].
      left. intros Hnil%(f_equal length). rewrite length_drop in Hnil.
      simpl in Hnil. lia.
  - destruct (feed_own_frames frames [] [] (reset (new frames)) f0 0%Q)
      as (mN & Hfeed & Hc & _ & Hwrap); simpl.
    + by rewrite app_nil_r.
    + by rewrite app_nil_r.
    + done.
    + done.
    + exists mN. split; [done|].
      destruct Hwrap as [-> ->]; [done| |].
      { intros ->. simpl in HN. lia. }
      split; [done|]. split; [done|].
      rewrite Hc. by rewrite Qplus_0_l.
Qed.

End OwnSequence.

Example own_sequence_completes_first_cycle_witness :
  ∃ mN, feed (SequenceMatcher.reset
                (SequenceMatcher.new
                   [Game.pose true false false false; Game.pose false false false false]))
             [Game.pose true false false false; Game.pose false false false false] 7
        = (mN, 2) ∧
        SequenceMatcher.cyclesCompleted mN = 1 ∧
        SequenceMatcher.matchPosition mN = 0 ∧
        (SequenceMatcher.confidenceScore mN == Qmin 1 (rewardTimes 2))%Q.
Proof.
  apply (own_sequence_completes_first_cycle
           [Game.pose true false false false; Game.pose false false false false] 7).
  simpl. lia.
Defined.

(** * The arbitration of [checkPlayerMatches] *)

(** ** What a frame never changes *)

Section Frame.
Import Game.

(** The player fields outside the arbitrator's state. *)
Definition sameLog (p q : Player.t) : Prop :=
  Player.states q = Player.states p ∧
  Player.moveHistory q = Player.moveHistory p ∧
  Player.maxHistoryLength q = Player.maxHistoryLength p ∧
  Player.frameCounter q = Player.frameCounter p ∧
  Player.gracePeriod q = Player.gracePeriod p ∧
  Player.originalColor q = Player.originalColor p.

Lemma handleTransitions_sameLog pl es b q pl' :
  handleTransitions pl es b q = Some pl' → sameLog pl pl'.
Proof.
  unfold handleTransitions, sameLog. intros H.
  repeat (case_match; simplify_option_eq); done.
Qed.

Lemma checkPlayerMatches_sameLog g g' :
  checkPlayerMatches g = Some g' →
  enemies g' = enemies g ∧ frameNumber g' = frameNumber g ∧
  sameLog (player g) (player g').
Proof.
  unfold checkPlayerMatches. case_decide.
  - intros [= <-]. by repeat split.
  - intros Hcheck. simplify_option_eq.
    repeat case_match; simplify_option_eq.
    match goal with
    | Ht : handleTransitions _ _ _ _ = Some _ |- _ =>
        apply handleTransitions_sameLog in Ht; rename Ht into Heqo0
    end.
    split; [done|]. split; [done|]. exact Heqo0.
Qed.

End Frame.

(** ** The warm-up guard *)

Section WarmUp.
Import Game.

(** The arbitrator has not done anything yet. *)
Definition untouched (pl : Player.t) : Prop :=
  Player.sequenceMatchers pl = ∅ ∧
  Player.currentMatchingEnemy pl = None ∧
  Player.confirmedMatchEnemy pl = None ∧
  Player.graceFrames pl = 0.

Definition warm (g : Game.t) : Prop :=
  Player.maxHistoryLength (player g) = MATCHING_CONFIG.MAX_HISTORY_LENGTH ∧
  (length (Player.moveHistory (player g)) < 5 → untouched (player g)).

Lemma recordMove_length (pl : Player.t) :
  length (Player.moveHistory (Player.recordMove pl)) =
    if decide (Player.maxHistoryLength pl < S (length (Player.moveHistory pl)))
    then length (Player.moveHistory pl)
    else S (length (Player.moveHistory pl)).
Proof.
  unfold Player.recordMove. simpl. rewrite length_app. simpl.
  rewrite Nat.add_1_r. case_decide; [|by rewrite length_app, Nat.add_1_r].
  rewrite length_drop, length_app. simpl. lia.
Qed.

Lemma checkPlayerMatches_warmup (g : Game.t) :
  length (Player.moveHistory (player g)) < 5 → checkPlayerMatches g = Some g.
Proof. intros Hlen. unfold checkPlayerMatches. by case_decide. Qed.

Lemma update_warm (pose : PoseState) (g g1 : Game.t) :
  warm g → update pose g = Some g1 → warm g1.
Proof.
  intros [Hmax Hun] Hupd. unfold update in Hupd.
  pose proof (checkPlayerMatches_sameLog _ _ Hupd) as (_ & _ & Hlog).
  destruct Hlog as (_ & Hhist & Hmax1 & _). simpl in Hhist, Hmax1.
  split; [by rewrite Hmax1|].
  rewrite Hhist. intros Hshort.
  rewrite checkPlayerMatches_warmup in Hupd by done.
  injection Hupd as <-.
  pose proof (recordMove_length (Player.set_states pose (player g))) as Hrec.
  simpl in Hrec, Hshort |- *. rewrite Hrec, Hmax in Hshort.
  unfold MATCHING_CONFIG.MAX_HISTORY_LENGTH in Hshort.
  clear Hrec Hhist Hmax1. apply Hun. case_decide; lia.
Qed.

Lemma run_warm (poses : list PoseState) :
  ∀ g g', warm g → run poses g = Some g' → warm g'.
Proof.
  induction poses as [|pose poses IH]; intros g g' Hw; simpl.
  - by intros [= <-].
  - intros Hrun. destruct (update pose g) as [g1|] eqn:Hupd; [|done].
    simpl in Hrun. eapply IH; [|exact Hrun]. by eapply update_warm.
Qed.

Lemma new_warm (es : list Enemy.t) : warm (Game.new es).
Proof. by split. Qed.

(** C7. While the player's move history holds fewer than 5 frames,
    [checkPlayerMatches] does nothing: the whole game state (every matcher,
    both candidates, the grace counter, the colours) is returned unchanged.
    In a game played from the start no candidate is held at such a frame
    (and no matcher exists yet), so no match is reported. *)
Theorem warmup_guard_suppresses_matching (g : Game.t) :
  length (Player.moveHistory (player g)) < 5 →
  checkPlayerMatches g = Some g ∧
  (∀ es poses, run poses (Game.new es) = Some g →
     Player.currentMatchingEnemy (player g) = None ∧
     Player.confirmedMatchEnemy (player g) = None ∧
     Player.sequenceMatchers (player g) = ∅).
Proof.
  intros Hshort. split; [by apply checkPlayerMatches_warmup|].
  intros es poses Hrun.
  destruct (run_warm poses _ _ (new_warm es) Hrun) as [_ Hun].
  by destruct (Hun Hshort) as (? & ? & ? & _).
Qed.

Example warmup_guard_suppresses_matching_witness :
  checkPlayerMatches (Game.new createEnemies) = Some (Game.new createEnemies) ∧
  (∀ es poses, run poses (Game.new es) = Some (Game.new createEnemies) →
     Player.currentMatchingEnemy (player (Game.new createEnemies)) = None ∧
     Player.confirmedMatchEnemy (player (Game.new createEnemies)) = None ∧
     Player.sequenceMatchers (player (Game.new createEnemies)) = ∅).
Proof.
  apply (warmup_guard_suppresses_matching (Game.new createEnemies)).
  simpl. lia.
Defined.

End WarmUp.

(** ** Confirmation *)

Section Confirmation.
Import Game.

(** A frame that newly confirms an enemy found that enemy's matcher with a
    positive wrap counter. *)
Lemma confirmation_needs_wrap (g g' : Game.t) (e : nat) :
  checkPlayerMatches g = Some g' →
  Player.confirmedMatchEnemy (player g) = None →
  Player.confirmedMatchEnemy (player g') = Some e →
  ∃ en m, enemies g !! e = Some en ∧
          Player.sequenceMatchers (player g') !! enemyId en = Some m ∧
          0 < SequenceMatcher.cyclesCompleted m.
Proof.
  unfold checkPlayerMatches. case_decide.
  { intros [= <-] Hnone Hsome. congruence. }
  intros Hcheck Hnone Hsome. simplify_option_eq.
  repeat case_match; simplify_option_eq.
  unfold handleTransitions in *. simpl in *. rewrite Hnone in *.
  repeat (case_match; simplify_option_eq); eauto.
Qed.

Example confirmation_needs_wrap_witness :
  let idle := pose false false false false in
  let leftArm := pose true false false false in
  let en := {| Enemy.bodyColor := "#ff00ff";
               Enemy.moveSequence :=
                 {| MoveSequence.frames := [idle; leftArm];
                    MoveSequence.id := "enemy1" |} |} in
  let g := set_player
             (Player.set_moveHistory (replicate 5 leftArm)
                (Player.set_states leftArm Player.new))
             (Game.new [en]) in
  let g' := default g (checkPlayerMatches g) in
  ∃ en' m, enemies g !! 0 = Some en' ∧
           Player.sequenceMatchers (player g') !! enemyId en' = Some m ∧
           0 < SequenceMatcher.cyclesCompleted m.
Proof.
  intros idle leftArm en g g'.
  apply (confirmation_needs_wrap g g' 0); vm_compute; reflexivity.
Defined.

(** [cyclesCompleted] counts wraps of [matchPosition]. With an enemy list
    other than that of [createEnemies] a wrap can come before a full cycle
    has been tracked: against the reference sequence [Idle, Active(leftArm)]
    a player who stands idle for the four warm-up frames and then raises the
    left arm is matched from index 1, so the position wraps after one
    accepted update, and the enemy is confirmed on that frame. *)
Example confirmed_after_one_tracked_frame :
  let idle := pose false false false false in
  let leftArm := pose true false false false in
  let es := [ {| Enemy.bodyColor := "#ff00ff";
                 Enemy.moveSequence :=
                   {| MoveSequence.frames := [idle; leftArm];
                      MoveSequence.id := "enemy1" |} |} ] in
  (∃ g4, run [idle; idle; idle; idle] (Game.new es) = Some g4 ∧
         Player.currentMatchingEnemy (player g4) = None ∧
         Player.confirmedMatchEnemy (player g4) = None ∧
         Player.sequenceMatchers (player g4) = ∅) ∧
  (∃ g5 m, run [idle; idle; idle; idle; leftArm] (Game.new es) = Some g5 ∧
           Player.confirmedMatchEnemy (player g5) = Some 0 ∧
           Player.sequenceMatchers (player g5) !! "enemy1" = Some m ∧
           SequenceMatcher.sequenceLength m = 2 ∧
           SequenceMatcher.cyclesCompleted m = 1 ∧
           SequenceMatcher.matchPosition m = 0 ∧
           SequenceMatcher.lastMatchFrame m = Frame 5).
Proof.
  intros idle leftArm es. split.
  - eexists. split; [vm_compute; reflexivity|]. by vm_compute.
  - eexists _, _. split; [vm_compute; reflexivity|].
    split; [by vm_compute|]. split; [vm_compute; reflexivity|].
    by vm_compute.
Qed.

(** With the enemies of [createEnemies] every match starts at index 0.
    Mirroring the first enemy from frame 5 on (150 frames with the left arm
    raised, then idle), the player is tracked but not confirmed after 299
    frames, and confirmed by the 300th. *)
Example mirroring_first_enemy_confirms_after_full_cycle :
  let idle := pose false false false false in
  let leftArm := pose true false false false in
  (∃ g, run (replicate 4 idle ++ replicate 150 leftArm ++ replicate 149 idle)
            (Game.new createEnemies) = Some g ∧
        Player.currentMatchingEnemy (player g) = Some 0 ∧
        Player.confirmedMatchEnemy (player g) = None) ∧
  (∃ g, run (replicate 4 idle ++ replicate 150 leftArm ++ replicate 150 idle)
            (Game.new createEnemies) = Some g ∧
        Player.confirmedMatchEnemy (player g) = Some 0).
Proof.
  intros idle leftArm.
  split; eexists; (split; [vm_compute; reflexivity|]); by vm_compute.
Qed.

End Confirmation.

(** ** The lazily created matchers *)

Section Matchers.
Import Game.

Lemma initMatchers_keeps (es : list Enemy.t) :
  ∀ (ms : gmap string SequenceMatcher.t) k m,
    ms !! k = Some m → initMatchers es ms !! k = Some m.
Proof.
  unfold initMatchers.
  induction es as [|en es IH]; intros ms k m Hk; simpl; [done|].
  apply IH. destruct (ms !! enemyId en) eqn:Hen; [done|].
  rewrite lookup_insert_ne; [done|]. congruence.
Qed.

Lemma initMatchers_covers (es : list Enemy.t) :
  ∀ (ms : gmap string SequenceMatcher.t) en,
    en ∈ es → is_Some (initMatchers es ms !! enemyId en).
Proof.
  induction es as [|en0 es IH]; intros ms en Hin; [by apply elem_of_nil in Hin|].
  apply elem_of_cons in Hin as [->|Hin]; [|by apply IH].
  unfold initMatchers. simpl. fold (initMatchers es).
  destruct (ms !! enemyId en0) as [m|] eqn:Hen.
  - exists m. by apply initMatchers_keeps.
  - eexists. apply initMatchers_keeps. apply lookup_insert_eq.
Qed.

End Matchers.

(** ** Starting a new match *)

Section FreshHit.
Import Game MATCHING_CONFIG.

(** The enemy's matcher finds a starting position for the pose. *)
Definition freshHit (ms : gmap string SequenceMatcher.t) (pose : PoseState)
    (en : Enemy.t) : Prop :=
  ∃ m s, ms !! enemyId en = Some m ∧
         SequenceMatcher.findBestStartingPosition m (Some pose) = Some s.

(** Two matcher maps over the same reference sequences. *)
Definition sameSequences (ms ms' : gmap string SequenceMatcher.t) : Prop :=
  ∀ k, SequenceMatcher.sequence <$> ms' !! k = SequenceMatcher.sequence <$> ms !! k.

Definition rewarded (m : SequenceMatcher.t) : Prop :=
  SequenceMatcher.getMatchQuality m = CONFIDENCE_MATCH.

Lemma freshHit_sameSequences ms ms' pose en :
  sameSequences ms ms' → freshHit ms pose en → freshHit ms' pose en.
Proof.
  intros Hsame (m & s & Hm & Hs). specialize (Hsame (enemyId en)).
  rewrite Hm in Hsame. destruct (ms' !! enemyId en) as [m'|] eqn:Hm'; [|done].
  injection Hsame as Hseq. exists m', s. split; [done|].
  unfold SequenceMatcher.findBestStartingPosition in *. by rewrite Hseq.
Qed.

(** The single update of a matcher restarted at a found position is a
    perfect match. *)
Lemma fresh_step (m : SequenceMatcher.t) (pose : PoseState) (s frame : nat) :
  SequenceMatcher.findBestStartingPosition m (Some pose) = Some s →
  ∃ m1, SequenceMatcher.step
          (SequenceMatcher.set_matchPosition s (SequenceMatcher.reset m))
          (Some pose) frame = (m1, true) ∧
        SequenceMatcher.sequence m1 = SequenceMatcher.sequence m ∧
        rewarded m1.
Proof.
  intros Hfind.
  unfold SequenceMatcher.findBestStartingPosition in Hfind.
  destruct (SequenceMatcher.isActiveState (Some pose)) eqn:Hact; [|done].
  simpl in Hfind.
  apply findFrom_Some in Hfind as (d & Hs & (fr & Hfr & _ & Heq) & _).
  simpl in Hs. subst d.
  assert (SequenceMatcher.expectedState
            (SequenceMatcher.set_matchPosition s (SequenceMatcher.reset m))
          = Some fr) as He by exact Hfr.
  unfold SequenceMatcher.step, SequenceMatcher.updateMatch. rewrite He, Heq.
  eexists. split; [reflexivity|].
  unfold SequenceMatcher.advancePosition. by case_decide.
Qed.

Lemma searchFrom_fresh (pose : PoseState) (frame : nat) (rest : list Enemy.t) :
  ∀ (i : nat) (ms : gmap string SequenceMatcher.t) (best : option nat) (q : Q),
    (∀ en, en ∈ rest → is_Some (ms !! enemyId en)) →
    (best = None ∧ q = 0%Q) ∨ (is_Some best ∧ q = CONFIDENCE_MATCH) →
    ∃ ms' best' q',
      searchFrom pose frame i rest (ms, best, q) = Some (ms', best', q') ∧
      sameSequences ms ms' ∧
      (∀ k m, ms !! k = Some m → rewarded m →
              ∃ m', ms' !! k = Some m' ∧ rewarded m') ∧
      (∀ en, en ∈ rest → freshHit ms pose en →
             ∃ m', ms' !! enemyId en = Some m' ∧ rewarded m') ∧
      match best with
      | Some b => best' = Some b ∧ q' = CONFIDENCE_MATCH
      | None =>
          (best' = None ∧ q' = 0%Q ∧ ∀ en, en ∈ rest → ¬ freshHit ms pose en) ∨
          (∃ d en, rest !! d = Some en ∧ freshHit ms pose en ∧
                   (∀ j en', j < d → rest !! j = Some en' → ¬ freshHit ms pose en') ∧
                   best' = Some (i + d) ∧ q' = CONFIDENCE_MATCH)
      end.
Proof.
  induction rest as [|en rest IH]; intros i ms best q Hcov Hbest.
  - exists ms, best, q. simpl. split; [done|]. split; [done|].
    split; [by eauto|]. split; [by intros en ?%elem_of_nil|].
    destruct Hbest as [[-> ->]|[[b ->] ->]]; [left|done].
    split; [done|]. split; [done|]. by intros en ?%elem_of_nil.
  - destruct (Hcov en) as [m Hm]; [by left|].
    cbn [searchFrom]. rewrite Hm. simpl.
    destruct (SequenceMatcher.findBestStartingPosition m (Some pose))
      as [s|] eqn:Hfind.
    + (* this enemy is a hit *)
      destruct (fresh_step m pose s frame Hfind) as (m1 & -> & Hseq1 & Hrew1).
      set (ms1 := <[enemyId en := m1]> ms).
      assert (sameSequences ms ms1) as Hsame1.
      { intros k. subst ms1. destruct (decide (enemyId en = k)) as [<-|Hne].
        - by rewrite lookup_insert_eq, Hm; simpl; rewrite Hseq1.
        - by rewrite lookup_insert_ne. }
      assert (∀ en', en' ∈ rest → is_Some (ms1 !! enemyId en')) as Hcov1.
      { intros en' Hin. specialize (Hsame1 (enemyId en')).
        destruct (Hcov en') as [m' Hm']; [by right|].
        rewrite Hm' in Hsame1. by destruct (ms1 !! enemyId en'). }
      assert (∀ k m0, ms !! k = Some m0 → rewarded m0 →
                ∃ m', ms1 !! k = Some m' ∧ rewarded m') as Hkeep1.
      { intros k m0 Hk Hr. subst ms1.
        destruct (decide (enemyId en = k)) as [<-|Hne].
        - exists m1. by rewrite lookup_insert_eq.
        - exists m0. by rewrite lookup_insert_ne. }
      assert (freshHit ms pose en) as Hhit by (by exists m, s).
      destruct best as [b|].
      * (* a best enemy is already held: the tie keeps it *)
        destruct Hbest as [[? _]|[_ ->]]; [done|].
        unfold rewarded in Hrew1. rewrite Hrew1.
        change (Qgtb CONFIDENCE_MATCH CONFIDENCE_MATCH) with false. cbv iota.
        destruct (IH (S i) ms1 (Some b) CONFIDENCE_MATCH Hcov1)
          as (ms' & best' & q' & -> & Hsame & Hkeep & Hhits & Hres);
          [right; eauto|].
        exists ms', best', q'. split; [done|].
        split; [intros k; by rewrite Hsame, Hsame1|].
        split.
        { intros k m0 Hk Hr. destruct (Hkeep1 k m0 Hk Hr) as (m' & Hk' & Hr').
          by apply (Hkeep k m'). }
        split; [|done].
        intros en' [->|Hin]%elem_of_cons Hh.
        -- apply (Hkeep (enemyId en) m1); [|done]. subst ms1.
           by rewrite lookup_insert_eq.
        -- apply Hhits; [done|]. by eapply freshHit_sameSequences.
      * (* the first hit becomes the best enemy *)
        destruct Hbest as [[_ ->]|[[? ?] _]]; [|done].
        unfold rewarded in Hrew1. rewrite Hrew1.
        change (Qgtb CONFIDENCE_MATCH 0) with true. cbv iota.
        destruct (IH (S i) ms1 (Some i) CONFIDENCE_MATCH Hcov1)
          as (ms' & best' & q' & -> & Hsame & Hkeep & Hhits & -> & ->);
          [right; eauto|].
        exists ms', (Some i), CONFIDENCE_MATCH. split; [done|].
        split; [intros k; by rewrite Hsame, Hsame1|].
        split.
        { intros k m0 Hk Hr. destruct (Hkeep1 k m0 Hk Hr) as (m' & Hk' & Hr').
          by apply (Hkeep k m'). }
        split.
        { intros en' [->|Hin]%elem_of_cons Hh.
          -- apply (Hkeep (enemyId en) m1); [|done]. subst ms1.
             by rewrite lookup_insert_eq.
          -- apply Hhits; [done|]. by eapply freshHit_sameSequences. }
        right. exists 0, en. split; [done|]. split; [done|].
        split; [intros j en' Hj; lia|]. split; [f_equal; lia|done].
    + (* no starting position in this enemy's sequence *)
      assert (¬ freshHit ms pose en) as Hmiss.
      { intros (m' & s & Hm' & Hs). congruence. }
      destruct (IH (S i) ms best q) as (ms' & best' & q' & -> & Hsame & Hkeep & Hhits & Hres);
        [intros en' Hin; apply Hcov; by right | done |].
      exists ms', best', q'. split; [done|]. split; [done|]. split; [done|].
      split.
      { intros en' [->|Hin]%elem_of_cons Hh; [done|]. by apply Hhits. }
      destruct best as [b|]; [done|].
      destruct Hres as [(-> & -> & Hno)|(d & en' & Hd & Hh & Hmin & -> & ->)].
      * left. split; [done|]. split; [done|].
        intros en' [->|Hin]%elem_of_cons; [done|]. by apply Hno.
      * right. exists (S d), en'. split; [done|]. split; [done|].
        split; [|split; [f_equal; lia|done]].
        intros [|j] en'' Hj; simpl.
        -- by intros [= <-].
        -- apply Hmin. lia.
Qed.

End FreshHit.

Section FreshHitSelected.
Import Game MATCHING_CONFIG.

(** C10, as amended: at a frame past the warm-up guard (at least 5 logged
    poses) with no candidate tracked, if some enemy's matcher finds a
    starting position for the player's pose, then every such matcher ends the
    frame with a quality equal to the reward constant, and the first such
    enemy in enumeration order becomes [currentMatchingEnemy]. *)
Theorem fresh_hit_selects_first_enemy (g : Game.t) :
  let ms := initMatchers (enemies g) (Player.sequenceMatchers (player g)) in
  let pose := Player.states (player g) in
  5 ≤ length (Player.moveHistory (player g)) →
  Player.currentMatchingEnemy (player g) = None →
  Player.confirmedMatchEnemy (player g) = None →
  (∃ en, en ∈ enemies g ∧ freshHit ms pose en) →
  ∃ g' i0 en0,
    checkPlayerMatches g = Some g' ∧
    enemies g !! i0 = Some en0 ∧ freshHit ms pose en0 ∧
    (∀ j en, j < i0 → enemies g !! j = Some en → ¬ freshHit ms pose en) ∧
    Player.currentMatchingEnemy (player g') = Some i0 ∧
    (∀ en, en ∈ enemies g → freshHit ms pose en →
       ∃ m, Player.sequenceMatchers (player g') !! enemyId en = Some m ∧
            SequenceMatcher.getMatchQuality m = CONFIDENCE_MATCH).
Proof.
  intros ms pose Hlen Hcur Hconf (enh & Hinh & Hhith).
  destruct (searchFrom_fresh pose (Player.frameCounter (player g))
              (enemies g) 0 ms None 0%Q)
    as (ms' & best' & q' & Hsearch & Hsame & _ & Hhits & Hres).
  { intros en Hin. by apply initMatchers_covers. }
  { by left. }
  destruct Hres as [(_ & _ & Hno)|(d & en0 & Hd & Hh0 & Hmin & -> & ->)].
  { by destruct (Hno enh Hinh). }
  change (0 + d) with d in Hsearch.
  destruct (Hhits en0) as (m0 & Hm0 & _);
    [by eapply list_elem_of_lookup_2 | done |].
  assert (∃ pl', handleTransitions (Player.set_sequenceMatchers ms' (player g))
                   (enemies g) (Some d) CONFIDENCE_MATCH = Some pl' ∧
                 Player.currentMatchingEnemy pl' = Some d ∧
                 Player.sequenceMatchers pl' = ms') as (pl' & Htr & Hcur' & Hms').
  { unfold handleTransitions. simpl. rewrite Hconf.
    change (Qgtb CONFIDENCE_MATCH QUALITY_THRESHOLD_BUILD) with true. cbv iota.
    rewrite Hd. simpl. rewrite Hm0. simpl.
    case_decide; eexists; (split; [reflexivity|done]). }
  exists (set_player pl' g), d, en0.
  split.
  { unfold checkPlayerMatches. case_decide; [lia|].
    unfold updateMatchers. rewrite Hconf, Hcur.
    fold ms. fold pose. rewrite Hsearch. simpl. by rewrite Htr. }
  split; [done|]. split; [done|]. split; [done|]. split; [done|].
  intros en Hin Hh. simpl. rewrite Hms'. by apply Hhits.
Qed.

(** C10 as stated, without the warm-up condition, fails: the guard returns
    before any of this. On the second frame of a game against the three
    enemies of [createEnemies], with the left arm raised, no candidate is
    tracked and the first enemy's matcher starts at index 0 for that pose,
    yet no candidate is selected. *)
Example fresh_hit_ignored_during_warmup :
  let leftArm := pose true false false false in
  ∃ g1 g2 en,
    run [leftArm] (Game.new createEnemies) = Some g1 ∧
    Player.currentMatchingEnemy (player g1) = None ∧
    Player.confirmedMatchEnemy (player g1) = None ∧
    enemies g1 !! 0 = Some en ∧
    SequenceMatcher.findBestStartingPosition
      (SequenceMatcher.new (enemyFrames en)) (Some leftArm) = Some 0 ∧
    update leftArm g1 = Some g2 ∧
    Player.currentMatchingEnemy (player g2) = None ∧
    Player.sequenceMatchers (player g2) = ∅.
Proof.
  intros leftArm. eexists _, _, _.
  split; [vm_compute; reflexivity|].
  split; [by vm_compute|]. split; [by vm_compute|].
  split; [vm_compute; reflexivity|]. split; [by vm_compute|].
  split; [vm_compute; reflexivity|]. by vm_compute.
Qed.

End FreshHitSelected.

Example fresh_hit_selects_first_enemy_witness :
  let leftArm := Game.pose true false false false in
  let g := Game.set_player
             (Player.set_moveHistory (replicate 5 leftArm)
                (Player.set_states leftArm Player.new))
             (Game.new Game.createEnemies) in
  ∃ g' i0, Game.checkPlayerMatches g = Some g' ∧
           Player.currentMatchingEnemy (Game.player g') = Some i0.
Proof.
  intros leftArm g.
  destruct (fresh_hit_selects_first_enemy g) as (g' & i0 & _ & Hcheck & _ & _ & _ & Hcur & _).
  - vm_compute. lia.
  - reflexivity.
  - reflexivity.
  - eexists. split; [left|]. eexists _, _. split; vm_compute; reflexivity.
  - by exists g', i0.
Defined.

(** * Further properties of the matcher *)

Section MatcherSteps.
Import SequenceMatcher MATCHING_CONFIG.

(** X2. [updateMatch] returns [false], and so stalls the matcher, exactly when
    the player's pose and the expected frame are both active and differ. In
    particular an idle player is never rejected. *)
Theorem updateMatch_rejects_only_active_mismatch
    (m : t) (p : option PoseState) (f : nat) :
  ((updateMatch m p f).2 = false ↔
     isActiveState p = true ∧ isActiveState (expectedState m) = true ∧
     statesEqual p (expectedState m) = false) ∧
  (isActiveState p = false → (updateMatch m p f).2 = true).
Proof.
  unfold updateMatch.
  destruct (statesEqual p (expectedState m)) eqn:Heq,
           (isActiveState p) eqn:Hp,
           (isActiveState (expectedState m)) eqn:He; simpl;
    split; try done; split; try done; intros (? & ? & ?); done.
Qed.

Lemma advancePosition_once (m : t) :
  matchPosition m < sequenceLength m →
  matchPosition (advancePosition m) = S (matchPosition m) mod sequenceLength m ∧
  cyclesCompleted (advancePosition m) =
    cyclesCompleted m + S (matchPosition m) / sequenceLength m ∧
  sequence (advancePosition m) = sequence m ∧
  sequenceLength (advancePosition m) = sequenceLength m ∧
  confidenceScore (advancePosition m) = confidenceScore m ∧
  lastMatchFrame (advancePosition m) = lastMatchFrame m ∧
  isActive (advancePosition m) = isActive m.
Proof.
  intros Hlt. unfold advancePosition. simpl. case_decide as Hwrap; simpl.
  - assert (S (matchPosition m) = sequenceLength m) as -> by lia.
    rewrite Nat.Div0.mod_same, Nat.div_same by lia.
    repeat split; lia.
  - rewrite Nat.mod_small, Nat.div_small by lia.
    repeat split; lia.
Qed.

(** X3. [k] calls of [advancePosition] move the position [k] places round the
    cycle and add one completed cycle per wrap; nothing else changes. *)
Theorem advancePosition_iterated (k : nat) (m : t) :
  matchPosition m < sequenceLength m →
  let m' := Nat.iter k advancePosition m in
  matchPosition m' = (matchPosition m + k) mod sequenceLength m ∧
  cyclesCompleted m' = cyclesCompleted m + (matchPosition m + k) / sequenceLength m ∧
  sequence m' = sequence m ∧
  sequenceLength m' = sequenceLength m ∧
  confidenceScore m' = confidenceScore m ∧
  lastMatchFrame m' = lastMatchFrame m ∧
  isActive m' = isActive m.
Proof.
  intros Hlt. induction k as [|k IH]; simpl.
  - rewrite Nat.add_0_r, Nat.mod_small, Nat.div_small by lia.
    repeat split; lia.
  - destruct IH as (Hp & Hc & Hs & Hl & Hq & Hf & Ha).
    set (mk := Nat.iter k advancePosition m) in *.
    assert (matchPosition mk < sequenceLength mk) as Hlt'.
    { rewrite Hp, Hl. apply Nat.mod_upper_bound. lia. }
    destruct (advancePosition_once mk Hlt') as (Hp' & Hc' & Hs' & Hl' & Hq' & Hf' & Ha').
    rewrite Hp', Hc', Hs', Hl', Hq', Hf', Ha', Hp, Hc, Hl.
    set (N := sequenceLength m) in *. set (a := matchPosition m + k).
    assert (matchPosition m + S k = S a) as -> by (subst a; lia).
    assert (N ≠ 0) as HN by lia.
    pose proof (Nat.div_mod a N HN) as Ha0.
    pose proof (Nat.mod_upper_bound a N HN) as Hr.
    set (qa := a / N) in *. set (r := a mod N) in *.
    assert (S a = S r + qa * N) as HS by lia.
    rewrite HS, Nat.Div0.mod_add, Nat.div_add by lia.
    repeat split; try done. lia.
Qed.

Example advancePosition_iterated_witness :
  let m := new [Game.pose true false false false; Game.pose false false false false;
                Game.pose false true false false] in
  matchPosition (Nat.iter 7 advancePosition m) = (0 + 7) mod 3 ∧
  cyclesCompleted (Nat.iter 7 advancePosition m) = 0 + (0 + 7) / 3.
Proof.
  intros m.
  destruct (advancePosition_iterated 7 m) as (Hp & Hc & _).
  - simpl. lia.
  - split; [exact Hp | exact Hc].
Defined.

End MatcherSteps.

(** * The constructor's analysis of the sequence *)

(** [extractUniqueStates] and [calculatePatternLength] are run once by the
    constructor of [SequenceMatcher] on [this.sequence]; they are functions
    of the frames alone. *)
Module SequenceAnalysis.
Import SequenceMatcher.

(** The loop of [extractUniqueStates] from index [1] on, with [last] the
    state pushed last and [rest] the frames still to visit. *)
Fixpoint extractFrom (last : PoseState) (rest : list PoseState) : list PoseState :=
  match rest with
  | [] => []
  | x :: rest' =>
      if negb (statesEqual (Some x) (Some last))
      then x :: extractFrom x rest'
      else extractFrom last rest'
  end.

Definition extractUniqueStates (sequence : list PoseState) : list PoseState :=
  match sequence with
  | [] => []
  | x :: rest => x :: extractFrom x rest
  end.

(** The inner loop of [calculatePatternLength]: every frame equals the frame
    at its index modulo [len]. *)
Definition isPattern (sequence : list PoseState) (len : nat) : bool :=
  forallb (fun i => statesEqual (sequence !! i) (sequence !! (i mod len)))
          (seq 0 (length sequence)).

(** [len] runs from 1 while [len <= sequence.length / 2]. *)
Definition calculatePatternLength (sequence : list PoseState) : nat :=
  if decide (length sequence ≤ 1) then 1
  else
    match List.find (isPattern sequence) (seq 1 (length sequence / 2)) with
    | Some len => len
    | None => length sequence
    end.

End SequenceAnalysis.

Section SequenceAnalysisFacts.
Import SequenceMatcher SequenceAnalysis.

Lemma lookup_bind_replicate (n : nat) (pattern : list PoseState) :
  0 < n → ∀ i, (pattern ≫= replicate n) !! i = pattern !! (i / n).
Proof.
  intros Hn. induction pattern as [|x pattern IH]; intros i.
  - by rewrite !lookup_nil.
  - rewrite bind_cons. destruct (decide (i < n)) as [Hlt|Hge].
    + rewrite lookup_app_l by (by rewrite length_replicate).
      rewrite Nat.div_small by done. simpl. by apply lookup_replicate_2.
    + rewrite lookup_app_r by (rewrite length_replicate; lia).
      rewrite length_replicate, IH.
      assert (i = (i - n) + 1 * n) as Hi by lia.
      rewrite Hi at 2. rewrite Nat.div_add by lia.
      by rewrite Nat.add_1_r.
Qed.

(** X4. [createSequence] holds every authored pose for 150 frames: the result
    is 150 times as long as the pattern, and frame [i] is pattern entry
    [i / 150]. *)
Theorem createSequence_frames (pattern : list PoseState) :
  length (Game.createSequence pattern) = 150 * length pattern ∧
  ∀ i, Game.createSequence pattern !! i = pattern !! (i / 150).
Proof.
  unfold Game.createSequence. split.
  - induction pattern as [|x pattern IH]; [done|].
    rewrite bind_cons, length_app, length_replicate, IH. simpl. lia.
  - apply lookup_bind_replicate. lia.
Qed.

(** No two neighbours of [last :: l] are structurally equal. *)
Fixpoint distinctFrom (last : PoseState) (l : list PoseState) : Prop :=
  match l with
  | [] => True
  | x :: l' => statesEqual (Some x) (Some last) = false ∧ distinctFrom x l'
  end.

Lemma lookup_distinctFrom (l : list PoseState) :
  ∀ last,
    (∀ i a b, (last :: l) !! i = Some a → (last :: l) !! S i = Some b →
              statesEqual (Some b) (Some a) = false) →
    distinctFrom last l.
Proof.
  induction l as [|x l IH]; intros last H; simpl; [done|]. split.
  - by apply (H 0 last x).
  - apply IH. intros i a b Ha Hb. by apply (H (S i) a b).
Qed.

(** A run of frames: its first frame and the frames that follow it. *)
Definition runFrames (r : PoseState * list PoseState) : list PoseState :=
  r.1 :: r.2.

(** Runs that follow a run headed by [last]: every run consists of frames
    structurally equal to its first frame, and its first frame differs
    from that of the run before. *)
Fixpoint runsFrom (last : PoseState) (runs : list (PoseState * list PoseState))
    : Prop :=
  match runs with
  | [] => True
  | r :: runs' =>
      statesEqual (Some r.1) (Some last) = false ∧
      Forall (fun y => statesEqual (Some y) (Some r.1) = true) r.2 ∧
      runsFrom r.1 runs'
  end.

Lemma extractFrom_runs (rest : list PoseState) :
  ∀ last, ∃ tail runs,
    rest = tail ++ (runs ≫= runFrames) ∧
    Forall (fun y => statesEqual (Some y) (Some last) = true) tail ∧
    runsFrom last runs ∧
    extractFrom last rest = runs.*1.
Proof.
  induction rest as [|x rest IH]; intros last.
  - by exists [], [].
  - cbn [extractFrom].
    destruct (statesEqual (Some x) (Some last)) eqn:Heq; cbn [negb].
    + destruct (IH last) as (tail & runs & -> & Htail & Hruns & Hext).
      exists (x :: tail), runs. split; [done|]. split; [by constructor|]. done.
    + destruct (IH x) as (tail & runs & -> & Htail & Hruns & Hext).
      exists [], ((x, tail) :: runs). split; [done|]. split; [done|].
      split; [done|]. simpl. by rewrite Hext.
Qed.

Lemma runsFrom_lookup (runs : list (PoseState * list PoseState)) :
  ∀ r0, runsFrom r0.1 runs →
    (∀ r y, r ∈ runs → y ∈ r.2 → statesEqual (Some y) (Some r.1) = true) ∧
    (∀ i r r', (r0 :: runs) !! i = Some r → (r0 :: runs) !! S i = Some r' →
               statesEqual (Some r'.1) (Some r.1) = false).
Proof.
  induction runs as [|r1 runs IH]; intros r0 Hruns.
  - split; [by intros r y ?%elem_of_nil|].
    intros i r r' _ Hr'. destruct i; simpl in Hr'; by rewrite ?lookup_nil in Hr'.
  - destruct Hruns as (Hne & Hall & Hruns).
    destruct (IH r1 Hruns) as [Hin Hadj]. split.
    + intros r y [->|Hr]%elem_of_cons Hy; [|by apply Hin].
      by eapply Forall_forall in Hall.
    + intros [|i] r r' Hr Hr'.
      * simpl in Hr, Hr'. by simplify_eq.
      * by apply (Hadj i).
Qed.

(** X5. [extractUniqueStates] collapses every run of structurally equal
    frames to its first frame. The sequence is a concatenation of runs, each
    a first frame followed by frames structurally equal to it, the first
    frames of neighbouring runs being structurally different; and the result
    is the list of the first frames of these runs, in order. *)
Theorem extractUniqueStates_collapses_runs (sequence : list PoseState) :
  ∃ runs : list (PoseState * list PoseState),
    sequence = runs ≫= runFrames ∧
    (∀ r y, r ∈ runs → y ∈ r.2 → statesEqual (Some y) (Some r.1) = true) ∧
    (∀ i r r', runs !! i = Some r → runs !! S i = Some r' →
               statesEqual (Some r'.1) (Some r.1) = false) ∧
    extractUniqueStates sequence = runs.*1.
Proof.
  destruct sequence as [|x rest].
  - exists []. split; [done|]. split; [by intros r y ?%elem_of_nil|].
    split; [|done]. intros i r r' Hr. by rewrite lookup_nil in Hr.
  - destruct (extractFrom_runs rest x) as (tail & runs & -> & Htail & Hruns & Hext).
    destruct (runsFrom_lookup runs (x, tail) Hruns) as [Hin Hadj].
    exists ((x, tail) :: runs). split; [done|]. split.
    + intros r y [->|Hr]%elem_of_cons Hy; [|by apply Hin].
      by eapply Forall_forall in Htail.
    + split; [exact Hadj|]. simpl. by rewrite Hext.
Qed.

Lemma extractFrom_skip (n : nat) (last x : PoseState) (rest : list PoseState) :
  statesEqual (Some x) (Some last) = true →
  extractFrom last (replicate n x ++ rest) = extractFrom last rest.
Proof.
  intros Heq. induction n as [|n IH]; [done|].
  cbn [replicate app extractFrom]. by rewrite Heq.
Qed.

Lemma extractFrom_bind (n : nat) (pattern : list PoseState) :
  0 < n → ∀ last, distinctFrom last pattern →
  extractFrom last (pattern ≫= replicate n) = pattern.
Proof.
  intros Hn. induction pattern as [|x pattern IH]; intros last Hd; [done|].
  destruct Hd as [Hx Hd]. rewrite bind_cons.
  destruct n as [|n]; [lia|]. cbn [replicate app extractFrom].
  rewrite Hx. cbn [negb]. f_equal.
  rewrite extractFrom_skip by apply statesEqual_self. by apply IH.
Qed.

(** X6. Expanding an authored pattern with [createSequence] and collapsing the
    result with [extractUniqueStates] gives the pattern back, provided no two
    neighbouring poses of the pattern are structurally equal. *)
Theorem extractUniqueStates_createSequence (pattern : list PoseState) :
  (∀ i a b, pattern !! i = Some a → pattern !! S i = Some b →
            statesEqual (Some b) (Some a) = false) →
  extractUniqueStates (Game.createSequence pattern) = pattern.
Proof.
  intros Hd. unfold Game.createSequence.
  destruct pattern as [|x pattern]; [done|].
  rewrite bind_cons. change (replicate 150 x) with (x :: replicate 149 x).
  cbn [app extractUniqueStates]. f_equal.
  rewrite (extractFrom_skip 149) by apply statesEqual_self.
  apply extractFrom_bind; [lia|]. by apply lookup_distinctFrom.
Qed.

Example extractUniqueStates_createSequence_witness :
  extractUniqueStates
    (Game.createSequence [Game.pose true false false false;
                          Game.pose false false false false]) =
  [Game.pose true false false false; Game.pose false false false false].
Proof.
  apply extractUniqueStates_createSequence.
  intros [|[|i]] a b Ha Hb; simpl in *; by simplify_eq.
Defined.

End SequenceAnalysisFacts.

Section PatternLength.
Import SequenceMatcher SequenceAnalysis.

(** Every frame is structurally equal to the frame [len] places (or a
    multiple of it) earlier. *)
Definition period (sequence : list PoseState) (len : nat) : Prop :=
  ∀ i x, sequence !! i = Some x →
         statesEqual (Some x) (sequence !! (i mod len)) = true.

Lemma isPattern_period (sequence : list PoseState) (len : nat) :
  isPattern sequence len = true ↔ period sequence len.
Proof.
  unfold isPattern, period. rewrite forallb_forall. split.
  - intros H i x Hi. rewrite <- Hi. apply H.
    apply in_seq. apply lookup_lt_Some in Hi. lia.
  - intros H i [_ Hi]%in_seq. simpl in Hi.
    destruct (lookup_lt_is_Some_2 sequence i Hi) as [x Hx].
    rewrite Hx. by apply H.
Qed.

Lemma find_seq_first (f : nat → bool) (n : nat) :
  ∀ a x, List.find f (seq a n) = Some x →
         a ≤ x < a + n ∧ f x = true ∧ ∀ y, a ≤ y → y < x → f y = false.
Proof.
  induction n as [|n IH]; intros a x; simpl; [done|].
  destruct (f a) eqn:Hfa.
  - intros [= <-]. split; [lia|]. split; [done|]. intros y ? ?. lia.
  - intros (Hx & Hfx & Hmin)%IH. split; [lia|]. split; [done|].
    intros y Hy Hlt. destruct (decide (y = a)) as [->|]; [done|].
    apply Hmin; lia.
Qed.

Lemma find_seq_none (f : nat → bool) (n a : nat) :
  List.find f (seq a n) = None → ∀ y, a ≤ y → y < a + n → f y = false.
Proof.
  intros Hnone y Hy Hlt. apply (find_none f _ Hnone). apply in_seq. lia.
Qed.

(** X7. [calculatePatternLength] returns the least [len >= 1] with
    [2 * len <= N] that is a period of the sequence, and the length [N] of the
    sequence when there is none (1 for sequences of at most one frame).
    The result is a period in every case; periods longer than half the
    sequence are not looked for. *)
Theorem calculatePatternLength_least_short_period (sequence : list PoseState) :
  let r := calculatePatternLength sequence in
  1 ≤ r ∧ r ≤ Nat.max 1 (length sequence) ∧
  (2 * r ≤ length sequence ∨ r = Nat.max 1 (length sequence)) ∧
  period sequence r ∧
  ∀ len, 1 ≤ len → len < r → 2 * len ≤ length sequence →
         ¬ period sequence len.
Proof.
  unfold calculatePatternLength. case_decide as Hshort.
  - split; [lia|]. split; [lia|]. split; [right; lia|]. split; [|intros; lia].
    intros i x Hi. pose proof (lookup_lt_Some _ _ _ Hi) as Hlt.
    assert (i = 0) as -> by lia. simpl. rewrite Hi. apply statesEqual_self.
  - destruct (List.find _ _) as [len|] eqn:Hfind.
    + apply find_seq_first in Hfind as (Hrange & Hpat & Hmin).
      assert (2 * len ≤ length sequence) as Hhalf.
      { pose proof (Nat.Div0.mul_div_le (length sequence) 2). lia. }
      split; [lia|]. split; [lia|]. split; [by left|].
      split; [by apply isPattern_period|].
      intros len' H1 Hlt _ Hper%isPattern_period.
      by rewrite Hmin in Hper.
    + split; [lia|]. split; [lia|]. split; [right; lia|]. split.
      * intros i x Hi. pose proof (lookup_lt_Some _ _ _ Hi) as Hlt.
        rewrite Nat.mod_small, Hi by done. apply statesEqual_self.
      * intros len H1 Hlt Hhalf Hper%isPattern_period.
        rewrite (find_seq_none _ _ _ Hfind len) in Hper; [done|lia|].
        assert (len ≤ length sequence / 2) by (apply Nat.div_le_lower_bound; lia).
        lia.
Qed.

End PatternLength.

(** * MoveSimilarityCalculator *)

Module MoveSimilarityCalculator.

Definition statesEqual (state1 state2 : option PoseState) : bool :=
  match state1, state2 with
  | Some s1, Some s2 =>
      eqb (leftArmRaised s1) (leftArmRaised s2) &&
      eqb (rightArmRaised s1) (rightArmRaised s2) &&
      eqb (leftLegRaised s1) (leftLegRaised s2) &&
      eqb (rightLegRaised s1) (rightLegRaised s2)
  | _, _ => false
  end.

Definition isActiveState (state : option PoseState) : bool :=
  match state with
  | Some s =>
      leftArmRaised s || rightArmRaised s ||
      leftLegRaised s || rightLegRaised s
  | None => false
  end.

(** [moves.slice(-windowSize)]: the last [windowSize] entries; [slice(-0)] is
    [slice(0)], the whole array. *)
Definition sliceLast (windowSize : nat) (moves : list PoseState) : list PoseState :=
  if decide (windowSize = 0) then moves
  else drop (length moves - windowSize) moves.

(** The counting loop: [matches] after the indices [i, i+1, ..., i+n-1]. *)
Fixpoint countMatches (playerWindow enemyWindow : list PoseState)
    (i n : nat) (matches : nat) : nat :=
  match n with
  | 0 => matches
  | S n' =>
      countMatches playerWindow enemyWindow (S i) n'
        (if statesEqual (playerWindow !! i) (enemyWindow !! i)
         then S matches else matches)
  end.

(** [compare(playerMoves, enemyMoves, windowSize)]. The quotient is [None]
    where JavaScript gives [NaN], that is for [0 / 0] with a window of size 0. *)
Definition compare (playerMoves enemyMoves : list PoseState) (windowSize : nat)
    : option Q :=
  if decide (length playerMoves < windowSize ∨ length enemyMoves < windowSize)
  then Some 0%Q
  else
    let playerWindow := sliceLast windowSize playerMoves in
    let enemyWindow := sliceLast windowSize enemyMoves in
    let matches := countMatches playerWindow enemyWindow 0 windowSize 0 in
    if decide (windowSize = 0) then None
    else Some (inject_Z (Z.of_nat matches) / inject_Z (Z.of_nat windowSize))%Q.

End MoveSimilarityCalculator.

Section Similarity.
Import MoveSimilarityCalculator.

(** The two copies of the pose predicates agree. *)
Lemma calculator_predicates_agree (a b : option PoseState) :
  statesEqual a b = SequenceMatcher.statesEqual a b ∧
  isActiveState a = SequenceMatcher.isActiveState a.
Proof. done. Qed.

Lemma countMatches_bounds (pw ew : list PoseState) (n : nat) :
  ∀ i k, k ≤ countMatches pw ew i n k ∧ countMatches pw ew i n k ≤ k + n.
Proof.
  induction n as [|n IH]; intros i k; simpl; [lia|].
  destruct (statesEqual (pw !! i) (ew !! i));
    [specialize (IH (S i) (S k)) | specialize (IH (S i) k)]; lia.
Qed.

Lemma countMatches_sym (pw ew : list PoseState) (n : nat) :
  ∀ i k, countMatches pw ew i n k = countMatches ew pw i n k.
Proof.
  induction n as [|n IH]; intros i k; simpl; [done|].
  change statesEqual with SequenceMatcher.statesEqual.
  by rewrite (statesEqual_sym (pw !! i)), IH.
Qed.

Lemma countMatches_self (w : list PoseState) (n : nat) :
  ∀ i k, i + n ≤ length w → countMatches w w i n k = k + n.
Proof.
  induction n as [|n IH]; intros i k Hlen; simpl; [lia|].
  destruct (lookup_lt_is_Some_2 w i) as [x Hx]; [lia|].
  rewrite Hx. change statesEqual with SequenceMatcher.statesEqual.
  rewrite statesEqual_self, IH by lia. lia.
Qed.

Lemma length_sliceLast (n : nat) (moves : list PoseState) :
  0 < n → n ≤ length moves → length (sliceLast n moves) = n.
Proof.
  intros Hn Hlen. unfold sliceLast. case_decide; [lia|].
  rewrite length_drop. lia.
Qed.

(** X8. With a non-empty window, [compare] always returns a number between 0
    and 1; it is 0 when either log is shorter than the window. *)
Theorem compare_in_unit_interval
    (playerMoves enemyMoves : list PoseState) (windowSize : nat) :
  0 < windowSize →
  ∃ q, compare playerMoves enemyMoves windowSize = Some q ∧
       (0 <= q)%Q ∧ (q <= 1)%Q ∧
       (length playerMoves < windowSize ∨ length enemyMoves < windowSize →
        q = 0%Q).
Proof.
  intros Hw. unfold compare. case_decide as Hshort.
  - exists 0%Q. repeat split; done.
  - case_decide; [lia|]. eexists. split; [reflexivity|].
    destruct (countMatches_bounds (sliceLast windowSize playerMoves)
                (sliceLast windowSize enemyMoves) windowSize 0 0) as [_ Hle].
    set (k := countMatches _ _ _ _ _) in *.
    assert (0 < inject_Z (Z.of_nat windowSize))%Q as Hpos.
    { change 0%Q with (inject_Z 0). rewrite <- Zlt_Qlt. lia. }
    split; [|split; [|done]].
    + apply Qle_shift_div_l; [done|]. rewrite Qmult_0_l.
      change 0%Q with (inject_Z 0). rewrite <- Zle_Qle. lia.
    + apply Qle_shift_div_r; [done|]. rewrite Qmult_1_l.
      rewrite <- Zle_Qle. lia.
Qed.

Example compare_in_unit_interval_witness :
  ∃ q, compare [Game.pose true false false false; Game.pose false false false false]
               [Game.pose true false false false; Game.pose false true false false] 2
       = Some q ∧ (0 <= q)%Q ∧ (q <= 1)%Q.
Proof.
  destruct (compare_in_unit_interval
              [Game.pose true false false false; Game.pose false false false false]
              [Game.pose true false false false; Game.pose false true false false] 2)
    as (q & Hq & H0 & H1 & _); [lia|].
  exists q. split; [exact Hq|]. split; [exact H0 | exact H1].
Defined.

(** X9. [compare] is symmetric in the two logs, and a log that is long enough is
    fully similar to itself. *)
Theorem compare_symmetric_and_reflexive
    (playerMoves enemyMoves : list PoseState) (windowSize : nat) :
  compare playerMoves enemyMoves windowSize =
    compare enemyMoves playerMoves windowSize ∧
  (0 < windowSize → windowSize ≤ length playerMoves →
   ∃ q, compare playerMoves playerMoves windowSize = Some q ∧ (q == 1)%Q).
Proof.
  split.
  - unfold compare. rewrite countMatches_sym.
    repeat case_decide; try done; tauto.
  - intros Hw Hlen. unfold compare.
    case_decide; [lia|]. case_decide; [lia|].
    eexists. split; [reflexivity|].
    rewrite countMatches_self by (rewrite length_sliceLast; lia).
    simpl. apply Qmult_inv_r.
    change 0%Q with (inject_Z 0). rewrite inject_Z_injective. lia.
Qed.

(** X10. Only the last [windowSize] entries of each log are compared. *)
Theorem compare_uses_last_window
    (olderPlayer olderEnemy playerWindow enemyWindow : list PoseState)
    (windowSize : nat) :
  0 < windowSize →
  length playerWindow = windowSize → length enemyWindow = windowSize →
  compare (olderPlayer ++ playerWindow) (olderEnemy ++ enemyWindow) windowSize =
    compare playerWindow enemyWindow windowSize.
Proof.
  intros Hw Hp He.
  assert (sliceLast windowSize (olderPlayer ++ playerWindow) = playerWindow) as Hsp.
  { unfold sliceLast. case_decide; [lia|].
    rewrite length_app, Hp, Nat.add_sub. apply drop_app_length. }
  assert (sliceLast windowSize (olderEnemy ++ enemyWindow) = enemyWindow) as Hse.
  { unfold sliceLast. case_decide; [lia|].
    rewrite length_app, He, Nat.add_sub. apply drop_app_length. }
  assert (sliceLast windowSize playerWindow = playerWindow) as Hsp'.
  { unfold sliceLast. case_decide; [lia|]. by rewrite Hp, Nat.sub_diag. }
  assert (sliceLast windowSize enemyWindow = enemyWindow) as Hse'.
  { unfold sliceLast. case_decide; [lia|]. by rewrite He, Nat.sub_diag. }
  unfold compare. rewrite Hsp, Hse, Hsp', Hse', !length_app, Hp, He.
  repeat case_decide; try done; lia.
Qed.

Example compare_uses_last_window_witness :
  compare ([Game.pose false false true false] ++ [Game.pose true false false false])
          ([] ++ [Game.pose true false false true]) 1 =
  compare [Game.pose true false false false] [Game.pose true false false true] 1.
Proof.
  apply (compare_uses_last_window [Game.pose false false true false] []
           [Game.pose true false false false] [Game.pose true false false true] 1);
    [lia | reflexivity | reflexivity].
Defined.

End Similarity.

(** * Animation playback, pose controls and the recorder *)

(** [MoveSequence] with its cursor: the frames and id of [MoveSequence.t]
    together with [currentFrame] and [isPlaying]. *)
Module Playback.

Record t := {
  sequence : MoveSequence.t;
  currentFrame : nat;
  isPlaying : bool
}.

Definition new (frames : list PoseState) (id : string) : t :=
  {| sequence := {| MoveSequence.frames := frames; MoveSequence.id := id |};
     currentFrame := 0; isPlaying := false |}.

Definition frames (p : t) : list PoseState := MoveSequence.frames (sequence p).

Definition play (p : t) : t :=
  {| sequence := sequence p; currentFrame := 0; isPlaying := true |}.

Definition stop (p : t) : t :=
  {| sequence := sequence p; currentFrame := currentFrame p; isPlaying := false |}.

Definition update (p : t) : t :=
  if isPlaying p then
    let next := S (currentFrame p) in
    {| sequence := sequence p;
       currentFrame := if decide (length (frames p) ≤ next) then 0 else next;
       isPlaying := isPlaying p |}
  else p.

Definition getCurrentState (p : t) : option PoseState :=
  if decide (length (frames p) = 0) then None
  else frames p !! currentFrame p.

End Playback.

(** The animated part of [Enemy]: its [moveSequence] and the pose it shows. *)
Module EnemyAnimation.

Record t := { moveSequence : Playback.t; states : PoseState }.

(** [constructor]: all limbs down, and the animation started. *)
Definition new (moveSequence : Playback.t) : t :=
  {| moveSequence := Playback.play moveSequence;
     states := Game.pose false false false false |}.

(** The animation part of [update()]. *)
Definition update (e : t) : t :=
  let ms := Playback.update (moveSequence e) in
  match Playback.getCurrentState ms with
  | Some currentState => {| moveSequence := ms; states := currentState |}
  | None => {| moveSequence := ms; states := states e |}
  end.

End EnemyAnimation.

Section PlaybackFacts.

Lemma playback_update_iter (k : nat) (p : Playback.t) :
  Playback.isPlaying p = true →
  Playback.currentFrame p < length (Playback.frames p) →
  let p' := Nat.iter k Playback.update p in
  Playback.currentFrame p' = (Playback.currentFrame p + k) mod length (Playback.frames p) ∧
  Playback.sequence p' = Playback.sequence p ∧
  Playback.isPlaying p' = true.
Proof.
  intros Hplay Hlt. induction k as [|k IH]; simpl.
  - by rewrite Nat.add_0_r, Nat.mod_small.
  - destruct IH as (Hc & Hs & Hp).
    set (pk := Nat.iter k Playback.update p) in *.
    unfold Playback.update. rewrite Hp. simpl.
    unfold Playback.frames in *. rewrite Hs, Hc.
    set (N := length (MoveSequence.frames (Playback.sequence p))) in *.
    set (a := Playback.currentFrame p + k).
    assert (Playback.currentFrame p + S k = S a) as -> by (subst a; lia).
    assert (N ≠ 0) as HN by lia.
    pose proof (Nat.div_mod a N HN) as Ha.
    pose proof (Nat.mod_upper_bound a N HN) as Hr.
    split; [|done].
    assert (S a = S (a mod N) + (a / N) * N) as HS by lia.
    rewrite HS, Nat.Div0.mod_add. clear Ha HS.
    generalize dependent (a mod N). intros r Hr.
    case_decide.
    + assert (S r = N) as -> by lia. by rewrite Nat.Div0.mod_same.
    + by rewrite Nat.mod_small by lia.
Qed.

(** X11. An enemy built on a non-empty sequence shows, after its [k]-th update
    ([k >= 1]), frame [k mod N] of the sequence: the animation loops, and the
    first cycle starts at frame 1 (frame 0 is first shown by update [N]).
    Before the first update it shows the idle pose. *)
Theorem enemy_shows_frame_k_mod_N (ms : Playback.t) (k : nat) :
  0 < length (Playback.frames ms) →
  let e := Nat.iter (S k) EnemyAnimation.update (EnemyAnimation.new ms) in
  Playback.frames ms !! (S k mod length (Playback.frames ms))
    = Some (EnemyAnimation.states e) ∧
  Playback.currentFrame (EnemyAnimation.moveSequence e)
    = S k mod length (Playback.frames ms) ∧
  EnemyAnimation.states (EnemyAnimation.new ms) = Game.pose false false false false.
Proof.
  intros HN.
  assert (∀ j, EnemyAnimation.moveSequence
                 (Nat.iter j EnemyAnimation.update (EnemyAnimation.new ms))
               = Nat.iter j Playback.update (Playback.play ms)) as Hms.
  { induction j as [|j IH]; [done|]. simpl. rewrite <- IH.
    unfold EnemyAnimation.update. by case_match. }
  destruct (playback_update_iter (S k) (Playback.play ms)) as (Hc & Hs & _);
    [done | simpl; unfold Playback.frames in *; simpl; lia |].
  cbn zeta. split; [|split; [|done]].
  - change (Nat.iter (S k) EnemyAnimation.update (EnemyAnimation.new ms))
      with (EnemyAnimation.update
              (Nat.iter k EnemyAnimation.update (EnemyAnimation.new ms))).
    unfold EnemyAnimation.update. rewrite Hms.
    change (Playback.update (Nat.iter k Playback.update (Playback.play ms)))
      with (Nat.iter (S k) Playback.update (Playback.play ms)).
    set (pb := Nat.iter (S k) Playback.update (Playback.play ms)) in *.
    unfold Playback.getCurrentState, Playback.frames in *. rewrite Hs. simpl.
    case_decide; [lia|]. rewrite Hc. simpl.
    destruct (lookup_lt_is_Some_2 (MoveSequence.frames (Playback.sequence ms))
                (S k mod length (MoveSequence.frames (Playback.sequence ms))))
      as [x Hx]; [apply Nat.mod_upper_bound; lia|].
    by rewrite Hx.
  - rewrite Hms, Hc. by simpl.
Qed.

Example enemy_shows_frame_k_mod_N_witness :
  let ms := Playback.new [Game.pose true false false false;
                          Game.pose false false false false] "enemy1" in
  Playback.frames ms !! (S 4 mod length (Playback.frames ms))
    = Some (EnemyAnimation.states
              (Nat.iter (S 4) EnemyAnimation.update (EnemyAnimation.new ms))).
Proof.
  intros ms. apply (enemy_shows_frame_k_mod_N ms 4). simpl. lia.
Defined.

Lemma enemy_update_sequence (e : EnemyAnimation.t) :
  Playback.sequence (EnemyAnimation.moveSequence (EnemyAnimation.update e)) =
    Playback.sequence (EnemyAnimation.moveSequence e).
Proof.
  unfold EnemyAnimation.update. case_match; simpl;
    unfold Playback.update; by case_match.
Qed.

(** X12. Edge cases of the animation: a stopped sequence does not move however
    often it is updated, and an enemy whose sequence has no frames keeps the
    pose it shows ([getCurrentState] is [null] there). *)
Theorem stopped_or_empty_animation_stands_still (k : nat) :
  (∀ p : Playback.t,
     Nat.iter k Playback.update (Playback.stop p) = Playback.stop p) ∧
  (∀ e : EnemyAnimation.t,
     Playback.frames (EnemyAnimation.moveSequence e) = [] →
     EnemyAnimation.states (Nat.iter k EnemyAnimation.update e) =
       EnemyAnimation.states e).
Proof.
  split.
  - intros p. induction k as [|k IH]; [done|]. simpl. by rewrite IH.
  - intros e Hempty.
    assert (Playback.frames
              (EnemyAnimation.moveSequence (Nat.iter k EnemyAnimation.update e)) = []
            ∧ EnemyAnimation.states (Nat.iter k EnemyAnimation.update e) =
              EnemyAnimation.states e) as [_ H]; [|done].
    induction k as [|k [IHf IHs]]; [done|]. simpl.
    set (ek := Nat.iter k EnemyAnimation.update e) in *. split.
    + unfold Playback.frames in *. by rewrite enemy_update_sequence.
    + rewrite <- IHs. unfold EnemyAnimation.update, Playback.getCurrentState.
      assert (Playback.frames (Playback.update (EnemyAnimation.moveSequence ek)) = [])
        as ->; [|done].
      unfold Playback.frames in *. unfold Playback.update. by case_match.
Qed.

End PlaybackFacts.

(** The player's pose state: [Player.states] with [blinkTimer], the toggles,
    [blink], the lamp timer of [Player.update], and the pose changes of
    [InputHandler.handleKeyDown]. *)
Module PoseControl.

Record t := { states : PoseState; blinkTimer : nat }.

Definition toggleLeftArm (p : t) : t :=
  {| states := {| leftArmRaised := negb (leftArmRaised (states p));
                  rightArmRaised := rightArmRaised (states p);
                  leftLegRaised := leftLegRaised (states p);
                  rightLegRaised := rightLegRaised (states p);
                  lampBlinking := lampBlinking (states p) |};
     blinkTimer := blinkTimer p |}.

Definition toggleRightArm (p : t) : t :=
  {| states := {| leftArmRaised := leftArmRaised (states p);
                  rightArmRaised := negb (rightArmRaised (states p));
                  leftLegRaised := leftLegRaised (states p);
                  rightLegRaised := rightLegRaised (states p);
                  lampBlinking := lampBlinking (states p) |};
     blinkTimer := blinkTimer p |}.

Definition toggleLeftLeg (p : t) : t :=
  {| states := {| leftArmRaised := leftArmRaised (states p);
                  rightArmRaised := rightArmRaised (states p);
                  leftLegRaised := negb (leftLegRaised (states p));
                  rightLegRaised := rightLegRaised (states p);
                  lampBlinking := lampBlinking (states p) |};
     blinkTimer := blinkTimer p |}.

Definition toggleRightLeg (p : t) : t :=
  {| states := {| leftArmRaised := leftArmRaised (states p);
                  rightArmRaised := rightArmRaised (states p);
                  leftLegRaised := leftLegRaised (states p);
                  rightLegRaised := negb (rightLegRaised (states p));
                  lampBlinking := lampBlinking (states p) |};
     blinkTimer := blinkTimer p |}.

Definition blink (p : t) : t :=
  {| states := {| leftArmRaised := leftArmRaised (states p);
                  rightArmRaised := rightArmRaised (states p);
                  leftLegRaised := leftLegRaised (states p);
                  rightLegRaised := rightLegRaised (states p);
                  lampBlinking := true |};
     blinkTimer := 15 |}.

(** The lamp part of [Player.update]. *)
Definition updateLamp (p : t) : t :=
  if decide (0 < blinkTimer p)
  then {| states := states p; blinkTimer := blinkTimer p - 1 |}
  else {| states := {| leftArmRaised := leftArmRaised (states p);
                       rightArmRaised := rightArmRaised (states p);
                       leftLegRaised := leftLegRaised (states p);
                       rightLegRaised := rightLegRaised (states p);
                       lampBlinking := false |};
          blinkTimer := blinkTimer p |}.

(** The state toggles of [handleKeyDown], for the key code [code]. *)
Definition handleKeyDown (code : string) (p : t) : t :=
  let p1 := if decide (code = "KeyQ") then toggleLeftArm p else p in
  let p2 := if decide (code = "KeyE") then toggleRightArm p1 else p1 in
  let p3 := if decide (code = "KeyZ") then toggleLeftLeg p2 else p2 in
  let p4 := if decide (code = "KeyX") then toggleRightLeg p3 else p3 in
  if decide (code = "KeyR") then blink p4 else p4.

End PoseControl.

Section PoseControlFacts.
Import PoseControl.

Lemma handleKeyDown_cases (code : string) (p : t) :
  handleKeyDown code p =
    if decide (code = "KeyQ") then toggleLeftArm p
    else if decide (code = "KeyE") then toggleRightArm p
    else if decide (code = "KeyZ") then toggleLeftLeg p
    else if decide (code = "KeyX") then toggleRightLeg p
    else if decide (code = "KeyR") then blink p
    else p.
Proof.
  unfold handleKeyDown. repeat case_decide; simplify_eq; done.
Qed.

(** X13. Pressing the same key twice restores the pose state (for every key but
    the lamp key, which is idempotent), and two key presses have the same
    effect in either order. *)
Theorem key_presses_toggle_and_commute (code code' : string) (p : t) :
  (code ≠ "KeyR" → handleKeyDown code (handleKeyDown code p) = p) ∧
  (handleKeyDown "KeyR" (handleKeyDown "KeyR" p) = handleKeyDown "KeyR" p) ∧
  handleKeyDown code (handleKeyDown code' p) =
    handleKeyDown code' (handleKeyDown code p).
Proof.
  destruct p as [[la ra ll rl lamp] timer].
  rewrite !handleKeyDown_cases. split; [|split].
  - intros Hne. repeat case_decide; simplify_eq;
      unfold toggleLeftArm, toggleRightArm, toggleLeftLeg, toggleRightLeg; simpl;
      by rewrite ?negb_involutive.
  - done.
  - repeat case_decide; simplify_eq; done.
Qed.

Lemma updateLamp_iter_on (k : nat) :
  ∀ p, lampBlinking (states p) = true → k ≤ blinkTimer p →
       Nat.iter k updateLamp p =
         {| states := states p; blinkTimer := blinkTimer p - k |}.
Proof.
  induction k as [|k IH]; intros p Hon Hk; simpl.
  - destruct p. simpl. by rewrite Nat.sub_0_r.
  - rewrite IH by (done || lia). unfold updateLamp. simpl.
    case_decide; [|lia]. f_equal. lia.
Qed.

(** X14. After [blink] the lamp is on for the next 15 updates and is switched off
    by the 16th; whatever the lamp does, the four limb fields, and with them
    what the matchers compare, never change. *)
Theorem blink_lasts_fifteen_updates (p : t) (k : nat) :
  lampBlinking (states (Nat.iter k updateLamp (blink p))) = bool_decide (k ≤ 15) ∧
  ∀ other : option PoseState,
    SequenceMatcher.statesEqual (Some (states (Nat.iter k updateLamp (blink p)))) other =
      SequenceMatcher.statesEqual (Some (states p)) other ∧
    SequenceMatcher.isActiveState (Some (states (Nat.iter k updateLamp (blink p)))) =
      SequenceMatcher.isActiveState (Some (states p)).
Proof.
  assert (∀ j q, leftArmRaised (states (Nat.iter j updateLamp q)) = leftArmRaised (states q) ∧
                 rightArmRaised (states (Nat.iter j updateLamp q)) = rightArmRaised (states q) ∧
                 leftLegRaised (states (Nat.iter j updateLamp q)) = leftLegRaised (states q) ∧
                 rightLegRaised (states (Nat.iter j updateLamp q)) = rightLegRaised (states q))
    as Hlimbs.
  { induction j as [|j IH]; intros q; [done|]. simpl.
    destruct (IH q) as (H1 & H2 & H3 & H4).
    unfold updateLamp. case_decide; simpl; by rewrite ?H1, ?H2, ?H3, ?H4. }
  split.
  - destruct (decide (k ≤ 15)) as [Hle|Hgt].
    + rewrite bool_decide_eq_true_2 by done.
      by rewrite updateLamp_iter_on.
    + rewrite bool_decide_eq_false_2 by done.
      assert (∃ j, k = S j + 15) as [j ->] by (exists (k - 16); lia).
      rewrite Nat.iter_add, (updateLamp_iter_on 15) by done.
      simpl. clear Hgt. induction j as [|j IH]; [done|].
      simpl. unfold updateLamp at 1.
      assert (∀ i q, blinkTimer q = 0 → blinkTimer (Nat.iter i updateLamp q) = 0) as Hzero.
      { induction i as [|i IHi]; intros q Hq; [done|]. simpl.
        unfold updateLamp. case_decide; simpl; rewrite IHi in *; done || lia. }
      case_decide as Hpos; [|done].
      change (updateLamp (Nat.iter j updateLamp ?q)) with (Nat.iter (S j) updateLamp q) in Hpos.
      rewrite Hzero in Hpos by done. lia.
  - intros other. destruct (Hlimbs k (blink p)) as (H1 & H2 & H3 & H4).
    unfold SequenceMatcher.statesEqual, SequenceMatcher.isActiveState.
    rewrite H1, H2, H3, H4. by destruct other.
Qed.

End PoseControlFacts.

(** [AnimationRecorder], recording pose states. *)
Module AnimationRecorder.

Record t := { frames : list PoseState; isRecording : bool }.

Definition new : t := {| frames := []; isRecording := false |}.

Definition record (states : PoseState) (r : t) : t :=
  if isRecording r
  then {| frames := frames r ++ [states]; isRecording := isRecording r |}
  else r.

Definition startRecording (r : t) : t :=
  {| frames := []; isRecording := true |}.

(** The recorder after the call, and the frames returned. *)
Definition stopRecording (r : t) : t * list PoseState :=
  ({| frames := frames r; isRecording := false |}, frames r).

Definition getFrames (r : t) : list PoseState := frames r.

End AnimationRecorder.

Section RecorderFacts.
Import AnimationRecorder.

Definition recordAll (poses : list PoseState) (r : t) : t :=
  foldl (fun r states => record states r) r poses.

Lemma recordAll_recording (poses : list PoseState) :
  ∀ r, isRecording r = true →
       recordAll poses r = {| frames := frames r ++ poses; isRecording := true |}.
Proof.
  induction poses as [|x poses IH]; intros r Hrec.
  - destruct r. simpl in *. by rewrite app_nil_r, Hrec.
  - change (recordAll (x :: poses) r) with (recordAll poses (record x r)).
    unfold record. rewrite Hrec, IH by done. simpl.
    by rewrite <- app_assoc.
Qed.

Lemma recordAll_stopped (poses : list PoseState) :
  ∀ r, isRecording r = false → recordAll poses r = r.
Proof.
  induction poses as [|x poses IH]; intros r Hrec; [done|].
  change (recordAll (x :: poses) r) with (recordAll poses (record x r)).
  unfold record. rewrite Hrec. by apply IH.
Qed.

(** X15. A recording returns exactly the poses recorded between [startRecording]
    and [stopRecording], in order: what the recorder held before is
    discarded, and poses offered before the start or after the stop are
    ignored. *)
Theorem recorder_returns_what_was_recorded
    (r : t) (before during after : list PoseState) :
  let rec := recordAll during (startRecording (recordAll before r)) in
  (stopRecording rec).2 = during ∧
  getFrames (recordAll after (stopRecording rec).1) = during ∧
  getFrames (recordAll before AnimationRecorder.new) = [].
Proof.
  cbn zeta. rewrite recordAll_recording by done. simpl.
  split; [done|]. split; by rewrite recordAll_stopped.
Qed.

End RecorderFacts.

(** * Invariants of a game in play *)

Section GameInvariant.
Import Game MATCHING_CONFIG.

Variable es : list Enemy.t.

(** A matcher stored under the key [k]: built over the frames of an enemy
    with that id, its recorded length that of the sequence, its position
    inside the sequence (0 for an empty one), its confidence in [0,1]. *)
Definition wfMatcher (k : string) (m : SequenceMatcher.t) : Prop :=
  (∃ en, en ∈ es ∧ enemyId en = k ∧
         SequenceMatcher.sequence m = enemyFrames en) ∧
  SequenceMatcher.sequenceLength m = length (SequenceMatcher.sequence m) ∧
  (SequenceMatcher.matchPosition m < SequenceMatcher.sequenceLength m ∨
   SequenceMatcher.matchPosition m = 0) ∧
  inUnit (SequenceMatcher.confidenceScore m).

Definition matchersOk (ms : gmap string SequenceMatcher.t) : Prop :=
  ∀ k m, ms !! k = Some m → wfMatcher k m.

Definition covers (ms : gmap string SequenceMatcher.t) : Prop :=
  ∀ en, en ∈ es → is_Some (ms !! enemyId en).

Definition candidatesOk (pl : Player.t) : Prop :=
  (∀ c, Player.currentMatchingEnemy pl = Some c → is_Some (es !! c)) ∧
  (∀ c, Player.confirmedMatchEnemy pl = Some c →
        Player.currentMatchingEnemy pl = Some c ∧
        Player.graceFrames pl < Player.gracePeriod pl).

Definition gameOk (g : Game.t) : Prop :=
  enemies g = es ∧
  Player.gracePeriod (player g) = GRACE_PERIOD ∧
  Player.maxHistoryLength (player g) = MAX_HISTORY_LENGTH ∧
  candidatesOk (player g) ∧
  matchersOk (Player.sequenceMatchers (player g)).

Lemma inUnit_0 : inUnit 0.
Proof. split; simpl; lra. Qed.

Lemma initMatchers_ok (es0 : list Enemy.t) :
  ∀ ms, (∀ en, en ∈ es0 → en ∈ es) → matchersOk ms →
        matchersOk (initMatchers es0 ms).
Proof.
  unfold initMatchers.
  induction es0 as [|en es0 IH]; intros ms Hsub Hok; simpl; [done|].
  apply IH; [intros en' Hin; apply Hsub; by right|].
  destruct (ms !! enemyId en) eqn:Hen; [done|].
  intros k m. destruct (decide (enemyId en = k)) as [<-|Hne].
  - rewrite lookup_insert_eq. intros [= <-]. split.
    + exists en. split; [apply Hsub; by left|done].
    + split; [done|]. split; [by right|]. apply inUnit_0.
  - rewrite lookup_insert_ne by done. apply Hok.
Qed.

Lemma step_wf (k : string) (m : SequenceMatcher.t) (p : option PoseState) (f : nat) :
  wfMatcher k m → wfMatcher k (SequenceMatcher.step m p f).1.
Proof.
  intros (Hen & Hlen & Hpos & Hc). unfold SequenceMatcher.step.
  pose proof (updateMatch_inUnit m p f Hc) as Hc'.
  assert (SequenceMatcher.sequence (SequenceMatcher.updateMatch m p f).1 =
            SequenceMatcher.sequence m ∧
          SequenceMatcher.sequenceLength (SequenceMatcher.updateMatch m p f).1 =
            SequenceMatcher.sequenceLength m ∧
          SequenceMatcher.matchPosition (SequenceMatcher.updateMatch m p f).1 =
            SequenceMatcher.matchPosition m) as (Hs & Hl & Hp).
  { unfold SequenceMatcher.updateMatch. by repeat case_match. }
  destruct (SequenceMatcher.updateMatch m p f) as [m1 matched]. simpl in *.
  destruct matched; simpl.
  - unfold SequenceMatcher.advancePosition. simpl.
    case_decide; unfold wfMatcher; simpl; rewrite ?Hs, ?Hl;
      (split; [done|]); (split; [done|]); (split; [|done]).
    + by right.
    + left. lia.
  - unfold wfMatcher. rewrite Hs, Hl, Hp. done.
Qed.

Lemma restart_wf (k : string) (m : SequenceMatcher.t) (p : PoseState) (s f : nat) :
  wfMatcher k m →
  SequenceMatcher.findBestStartingPosition m (Some p) = Some s →
  wfMatcher k
    (SequenceMatcher.step
       (SequenceMatcher.set_matchPosition s (SequenceMatcher.reset m)) (Some p) f).1.
Proof.
  intros (Hen & Hlen & Hpos & Hc) Hfind. apply step_wf.
  split; [done|]. split; [done|]. split; [|apply inUnit_0].
  left. simpl. rewrite Hlen.
  unfold SequenceMatcher.findBestStartingPosition in Hfind.
  destruct (negb _); [done|].
  apply findFrom_Some in Hfind as (d & Hs & (fr & Hfr & _) & _).
  simpl in Hs. subst d. by eapply lookup_lt_Some.
Qed.

Lemma matchersOk_insert (ms : gmap string SequenceMatcher.t) (k : string)
    (m : SequenceMatcher.t) :
  matchersOk ms → wfMatcher k m → matchersOk (<[k := m]> ms).
Proof.
  intros Hok Hm k' m'. destruct (decide (k = k')) as [<-|Hne].
  - rewrite lookup_insert_eq. by intros [= <-].
  - rewrite lookup_insert_ne by done. apply Hok.
Qed.

Lemma insert_keeps_is_Some (ms : gmap string SequenceMatcher.t) (k k' : string)
    (m : SequenceMatcher.t) :
  is_Some (ms !! k') → is_Some (<[k := m]> ms !! k').
Proof.
  intros Hk. destruct (decide (k = k')) as [<-|Hne].
  - rewrite lookup_insert_eq. by eexists.
  - by rewrite lookup_insert_ne.
Qed.

Lemma searchFrom_ok (pose : PoseState) (frame : nat) (rest : list Enemy.t) :
  ∀ (i : nat) (ms : gmap string SequenceMatcher.t) (best : option nat) (q : Q),
    (∀ en, en ∈ rest → is_Some (ms !! enemyId en)) →
    matchersOk ms →
    ∃ ms' best' q',
      searchFrom pose frame i rest (ms, best, q) = Some (ms', best', q') ∧
      matchersOk ms' ∧
      (∀ k, is_Some (ms !! k) → is_Some (ms' !! k)) ∧
      (best' = best ∨ ∃ d en, best' = Some (i + d) ∧ rest !! d = Some en).
Proof.
  induction rest as [|en rest IH]; intros i ms best q Hcov Hok.
  - exists ms, best, q. split; [done|]. split; [done|]. split; [done|]. by left.
  - destruct (Hcov en) as [m Hm]; [by left|].
    cbn [searchFrom]. rewrite Hm. simpl.
    destruct (SequenceMatcher.findBestStartingPosition m (Some pose))
      as [s|] eqn:Hfind.
    + pose proof (restart_wf (enemyId en) m pose s frame (Hok _ _ Hm) Hfind) as Hwf.
      destruct (SequenceMatcher.step _ _ _) as [m1 matched]. simpl in Hwf.
      set (ms1 := <[enemyId en := m1]> ms).
      assert (∀ en', en' ∈ rest → is_Some (ms1 !! enemyId en')) as Hcov1.
      { intros en' Hin. apply insert_keeps_is_Some, Hcov. by right. }
      assert (matchersOk ms1) as Hok1 by (by apply matchersOk_insert).
      destruct (Qgtb _ _).
      * destruct (IH (S i) ms1 (Some i) (SequenceMatcher.getMatchQuality m1) Hcov1 Hok1)
          as (ms' & b' & q' & -> & Hok' & Hdom & Hb).
        exists ms', b', q'. split; [done|]. split; [done|]. split.
        { intros k Hk. by apply Hdom, insert_keeps_is_Some. }
        right. destruct Hb as [->|(d & en' & -> & Hd)].
        -- exists 0, en. split; [f_equal; lia|done].
        -- exists (S d), en'. split; [f_equal; lia|done].
      * destruct (IH (S i) ms1 best q Hcov1 Hok1)
          as (ms' & b' & q' & -> & Hok' & Hdom & Hb).
        exists ms', b', q'. split; [done|]. split; [done|]. split.
        { intros k Hk. by apply Hdom, insert_keeps_is_Some. }
        destruct Hb as [->|(d & en' & -> & Hd)]; [by left|].
        right. exists (S d), en'. split; [f_equal; lia|done].
    + destruct (IH (S i) ms best q) as (ms' & b' & q' & -> & Hok' & Hdom & Hb);
        [intros en' Hin; apply Hcov; by right | done |].
      exists ms', b', q'. split; [done|]. split; [done|]. split; [done|].
      destruct Hb as [->|(d & en' & -> & Hd)]; [by left|].
      right. exists (S d), en'. split; [f_equal; lia|done].
Qed.

Lemma trackEnemy_ok (ms : gmap string SequenceMatcher.t) (c : nat)
    (pose : PoseState) (frame : nat) :
  is_Some (es !! c) → covers ms → matchersOk ms →
  ∃ ms' q, trackEnemy es ms c pose frame = Some (ms', q) ∧
           matchersOk ms' ∧ covers ms'.
Proof.
  intros [en Hen] Hcov Hok. unfold trackEnemy. rewrite Hen. simpl.
  destruct (Hcov en) as [m Hm]; [by eapply list_elem_of_lookup_2|].
  rewrite Hm. simpl.
  pose proof (step_wf (enemyId en) m (Some pose) frame (Hok _ _ Hm)) as Hwf.
  destruct (SequenceMatcher.step _ _ _) as [m1 matched]. simpl in Hwf.
  eexists _, _. split; [reflexivity|]. split.
  - by apply matchersOk_insert.
  - intros en' Hin. by apply insert_keeps_is_Some, Hcov.
Qed.

Lemma updateMatchers_ok (pl : Player.t) (ms : gmap string SequenceMatcher.t) :
  candidatesOk pl → covers ms → matchersOk ms →
  ∃ ms' b q, updateMatchers pl es ms = Some (ms', b, q) ∧
             matchersOk ms' ∧ covers ms' ∧
             (∀ i, b = Some i → is_Some (es !! i)).
Proof.
  intros [Hcur Hconf] Hcov Hok. unfold updateMatchers.
  destruct (Player.confirmedMatchEnemy pl) as [c|] eqn:Hc.
  - destruct (Hconf c eq_refl) as [Hcc _].
    destruct (trackEnemy_ok ms c (Player.states pl) (Player.frameCounter pl))
      as (ms' & q & -> & Hok' & Hcov'); [by apply Hcur | done | done |].
    simpl. exists ms', (Some c), q.
    split; [done|]. split; [done|]. split; [done|].
    intros i [= <-]. by apply Hcur.
  - destruct (Player.currentMatchingEnemy pl) as [c|] eqn:Hcc.
    + destruct (trackEnemy_ok ms c (Player.states pl) (Player.frameCounter pl))
        as (ms' & q & -> & Hok' & Hcov'); [by apply Hcur | done | done |].
      simpl. exists ms', (Some c), q.
      split; [done|]. split; [done|]. split; [done|].
      intros i [= <-]. by apply Hcur.
    + destruct (searchFrom_ok (Player.states pl) (Player.frameCounter pl) es 0 ms None 0%Q)
        as (ms' & b & q & Hs & Hok' & Hdom & Hb); [done | done |].
      exists ms', b, q. split; [done|]. split; [done|]. split.
      * intros en Hin. by apply Hdom, Hcov.
      * intros i ->. destruct Hb as [?|(d & en & [= ->] & Hd)]; [done|].
        by exists en.
Qed.

Lemma reset_all_ok (ms : gmap string SequenceMatcher.t) :
  matchersOk ms → matchersOk (SequenceMatcher.reset <$> ms).
Proof.
  intros Hok k m Hk. rewrite lookup_fmap in Hk.
  destruct (ms !! k) as [m0|] eqn:Hm0; [|done]. injection Hk as <-.
  destruct (Hok k m0 Hm0) as (Hen & Hlen & _ & _).
  split; [done|]. split; [done|]. split; [by right|]. apply inUnit_0.
Qed.

Lemma handleTransitions_ok (pl : Player.t) (b : option nat) (q : Q) :
  candidatesOk pl → 0 < Player.gracePeriod pl →
  covers (Player.sequenceMatchers pl) →
  matchersOk (Player.sequenceMatchers pl) →
  (∀ i, b = Some i → is_Some (es !! i)) →
  ∃ pl', handleTransitions pl es b q = Some pl' ∧
         candidatesOk pl' ∧ matchersOk (Player.sequenceMatchers pl').
Proof.
  intros [Hcur Hconf] Hperiod Hcov Hok Hb. unfold handleTransitions.
  destruct (Player.confirmedMatchEnemy pl) as [c|] eqn:Hc.
  - destruct (Hconf c eq_refl) as [Hcc Hgrace].
    destruct (Hcur c Hcc) as [en Hen]. rewrite Hen. simpl.
    destruct (_ && _).
    + eexists. split; [reflexivity|]. split; [|done]. split; simpl.
      * done.
      * intros c'. rewrite Hc. intros [= <-]. split; [done|]. lia.
    + case_decide as Hlt.
      * eexists. split; [reflexivity|]. split; [|done]. split; simpl.
        -- done.
        -- intros c'. rewrite Hc. intros [= <-]. by split.
      * eexists. split; [reflexivity|]. split; [by split|].
        simpl. by apply reset_all_ok.
  - destruct b as [i|].
    + destruct (Qgtb _ _).
      * destruct (Hb i eq_refl) as [en Hen]. rewrite Hen. simpl.
        destruct (Hcov en) as [m Hm]; [by eapply list_elem_of_lookup_2|].
        rewrite Hm. simpl. case_decide.
        -- eexists. split; [reflexivity|]. split; [|done]. split; simpl.
           ++ intros c [= <-]. by exists en.
           ++ intros c [= <-]. split; [done|]. lia.
        -- eexists. split; [reflexivity|]. split; [|done]. split; simpl.
           ++ intros c [= <-]. by exists en.
           ++ intros c. by rewrite Hc.
      * eexists. split; [reflexivity|]. split; [|done]. split; simpl.
        -- done.
        -- intros c. by rewrite Hc.
    + eexists. split; [reflexivity|]. split; [|done]. split; simpl.
      * done.
      * intros c. by rewrite Hc.
Qed.

Lemma checkPlayerMatches_ok (g : Game.t) :
  gameOk g → ∃ g', checkPlayerMatches g = Some g' ∧ gameOk g'.
Proof.
  intros (Hes & Hperiod & Hmax & Hcand & Hok).
  unfold checkPlayerMatches. case_decide.
  { exists g. by split. }
  rewrite Hes.
  set (ms := initMatchers es (Player.sequenceMatchers (player g))).
  assert (covers ms) as Hcov by (intros en Hin; by apply initMatchers_covers).
  assert (matchersOk ms) as Hok0 by (by apply initMatchers_ok).
  destruct (updateMatchers_ok (player g) ms Hcand Hcov Hok0)
    as (ms' & b & q & -> & Hok' & Hcov' & Hb).
  simpl.
  destruct (handleTransitions_ok (Player.set_sequenceMatchers ms' (player g)) b q)
    as (pl' & Htr & Hcand' & Hok''); try done.
  { simpl. rewrite Hperiod. unfold GRACE_PERIOD. lia. }
  rewrite Htr. simpl. eexists. split; [reflexivity|].
  apply handleTransitions_sameLog in Htr as (_ & _ & Hm & _ & Hg & _).
  simpl in Hm, Hg. split; [done|]. simpl.
  split; [by rewrite Hg|]. split; [by rewrite Hm|]. by split.
Qed.

Lemma update_ok (pose : PoseState) (g : Game.t) :
  gameOk g →
  ∃ g', update pose g = Some g' ∧ gameOk g' ∧
        Player.moveHistory (player g') =
          Player.moveHistory (Player.recordMove (Player.set_states pose (player g))) ∧
        Player.frameCounter (player g') = S (Player.frameCounter (player g)) ∧
        frameNumber g' = S (frameNumber g).
Proof.
  intros (Hes & Hperiod & Hmax & Hcand & Hok). unfold update.
  set (mid := Build_t _ _ _).
  destruct (checkPlayerMatches_ok mid) as (g' & Hcheck & Hok').
  { split; [done|]. split; [done|]. split; [done|]. split; [|done].
    destruct Hcand as [Hcur Hconf]. split; [exact Hcur|exact Hconf]. }
  exists g'. split; [done|]. split; [done|].
  apply checkPlayerMatches_sameLog in Hcheck as (_ & Hf & _ & Hh & _ & Hc & _).
  by simpl in *.
Qed.

(** The log after [past ++ [pose]] is the last 120 poses again. *)
Lemma recordMove_last (past : list PoseState) (pose : PoseState) (pl : Player.t) :
  Player.maxHistoryLength pl = MAX_HISTORY_LENGTH →
  Player.moveHistory pl = drop (length past - MAX_HISTORY_LENGTH) past →
  Player.moveHistory (Player.recordMove (Player.set_states pose pl)) =
    drop (length (past ++ [pose]) - MAX_HISTORY_LENGTH) (past ++ [pose]).
Proof.
  intros Hmax Hh. unfold Player.recordMove. simpl. rewrite Hmax, Hh.
  rewrite !length_app, length_drop. simpl. unfold MAX_HISTORY_LENGTH.
  case_decide.
  - rewrite <- drop_app_le by lia. rewrite drop_drop. f_equal. lia.
  - rewrite <- drop_app_le by lia. f_equal. lia.
Qed.

Lemma run_ok (poses : list PoseState) :
  ∀ (past : list PoseState) (g : Game.t),
    gameOk g →
    Player.moveHistory (player g) = drop (length past - MAX_HISTORY_LENGTH) past →
    Player.frameCounter (player g) = length past →
    frameNumber g = length past →
    ∃ g', run poses g = Some g' ∧ gameOk g' ∧
          Player.moveHistory (player g') =
            drop (length (past ++ poses) - MAX_HISTORY_LENGTH) (past ++ poses) ∧
          Player.frameCounter (player g') = length (past ++ poses) ∧
          frameNumber g' = length (past ++ poses).
Proof.
  induction poses as [|pose poses IH]; intros past g Hok Hh Hc Hn.
  - exists g. rewrite app_nil_r.
    split; [done|]. split; [done|]. split; [done|]. by split.
  - cbn [run].
    destruct (update_ok pose g Hok) as (g1 & -> & Hok1 & Hh1 & Hc1 & Hn1). simpl.
    destruct (IH (past ++ [pose]) g1) as (g' & Hrun & Hok' & Hh' & Hc' & Hn'); try done.
    + rewrite Hh1. apply recordMove_last; [|done]. by destruct Hok as (_ & _ & ? & _).
    + rewrite Hc1, Hc, length_app. simpl. lia.
    + rewrite Hn1, Hn, length_app. simpl. lia.
    + exists g'. rewrite <- app_assoc in Hh', Hc', Hn'.
      split; [done|]. split; [done|]. split; [done|]. by split.
Qed.

Lemma new_ok : gameOk (Game.new es).
Proof.
  split; [done|]. split; [done|]. split; [done|]. split; [by split|].
  intros k m Hk. simpl in Hk. by rewrite lookup_empty in Hk.
Qed.

End GameInvariant.

Section GameInPlay.
Import Game MATCHING_CONFIG.

(** X16. A game never throws: for every list of enemies and every list of player
    poses, one per frame, [update] succeeds on each frame (no [undefined] is
    dereferenced). Afterwards both frame counters equal the number of frames,
    the enemy list is the one given, and [moveHistory] holds exactly the
    last 120 poses (all of them while there are fewer), oldest first. *)
Theorem game_never_throws_and_logs_last_poses
    (es : list Enemy.t) (poses : list PoseState) :
  ∃ g, run poses (Game.new es) = Some g ∧
       enemies g = es ∧
       Player.frameCounter (player g) = length poses ∧
       frameNumber g = length poses ∧
       Player.moveHistory (player g) =
         drop (length poses - MAX_HISTORY_LENGTH) poses.
Proof.
  destruct (run_ok es poses [] (Game.new es) (new_ok es))
    as (g & Hrun & Hok & Hh & Hc & Hn); [done..|].
  exists g. split; [done|]. split; [by destruct Hok|]. by repeat split.
Qed.

Lemma run_gameOk (es : list Enemy.t) (poses : list PoseState) (g : Game.t) :
  run poses (Game.new es) = Some g → gameOk es g.
Proof.
  intros Hrun.
  destruct (run_ok es poses [] (Game.new es) (new_ok es))
    as (g' & Hrun' & Hok & _); [done..|].
  congruence.
Qed.

(** X17. In a game in play a confirmed enemy is always also the current one, and
    its grace counter is below the grace period; a current enemy is always
    one of the game's enemies. *)
Theorem confirmed_enemy_is_current_and_within_grace
    (es : list Enemy.t) (poses : list PoseState) (g : Game.t) :
  run poses (Game.new es) = Some g →
  (∀ c, Player.confirmedMatchEnemy (player g) = Some c →
        Player.currentMatchingEnemy (player g) = Some c ∧
        Player.graceFrames (player g) < GRACE_PERIOD) ∧
  (∀ c, Player.currentMatchingEnemy (player g) = Some c → c < length es).
Proof.
  intros (_ & Hperiod & _ & [Hcur Hconf] & _)%run_gameOk. split.
  - intros c Hc. rewrite <- Hperiod. by apply Hconf.
  - intros c Hc. destruct (Hcur c Hc) as [en Hen]. by eapply lookup_lt_Some.
Qed.

(** X18. In a game in play every stored matcher is keyed by the id of an enemy
    whose frames are its sequence, records the length of that sequence, has
    its position inside the sequence (0 when the sequence is empty) and its
    confidence in [0,1]. *)
Theorem stored_matchers_stay_well_formed
    (es : list Enemy.t) (poses : list PoseState) (g : Game.t) :
  run poses (Game.new es) = Some g →
  ∀ k m, Player.sequenceMatchers (player g) !! k = Some m →
    (∃ en, en ∈ es ∧ enemyId en = k ∧
           SequenceMatcher.sequence m = enemyFrames en) ∧
    SequenceMatcher.sequenceLength m = length (SequenceMatcher.sequence m) ∧
    (SequenceMatcher.matchPosition m < length (SequenceMatcher.sequence m) ∨
     SequenceMatcher.matchPosition m = 0) ∧
    (0 <= SequenceMatcher.confidenceScore m)%Q ∧
    (SequenceMatcher.confidenceScore m <= 1)%Q.
Proof.
  intros (_ & _ & _ & _ & Hok)%run_gameOk k m Hk.
  destruct (Hok k m Hk) as (Hen & Hlen & Hpos & Hc0 & Hc1).
  rewrite Hlen in Hpos. by repeat split.
Qed.

(** X19. While an enemy is tracked (confirmed, or current and not yet confirmed),
    a frame updates that enemy's matcher only: unless the frame ends the
    grace period, every matcher stored under another id is left exactly as
    it was. *)
Theorem tracked_frame_leaves_other_matchers (g g' : Game.t) (c : nat) (en : Enemy.t) :
  checkPlayerMatches g = Some g' →
  Player.confirmedMatchEnemy (player g) = Some c ∨
  (Player.confirmedMatchEnemy (player g) = None ∧
   Player.currentMatchingEnemy (player g) = Some c) →
  enemies g !! c = Some en →
  Player.confirmedMatchEnemy (player g) = None ∨
  is_Some (Player.confirmedMatchEnemy (player g')) →
  ∀ k m, k ≠ enemyId en →
         Player.sequenceMatchers (player g) !! k = Some m →
         Player.sequenceMatchers (player g') !! k = Some m.
Proof.
  intros Hcheck Htracked Hen Hkept k m Hne Hk.
  unfold checkPlayerMatches in Hcheck. case_decide.
  { by injection Hcheck as <-. }
  pose proof (initMatchers_keeps (enemies g) _ _ _ Hk) as Hk0.
  set (ms := initMatchers (enemies g) (Player.sequenceMatchers (player g))) in *.
  unfold updateMatchers, trackEnemy in Hcheck.
  assert (∀ m1, <[enemyId en := m1]> ms !! k = Some m) as Hother.
  { intros m1. by rewrite lookup_insert_ne. }
  destruct Htracked as [Hc|[Hc Hcc]]; rewrite Hc, ?Hcc, Hen in Hcheck;
    simpl in Hcheck;
    (destruct (ms !! enemyId en) as [m0|]; [|done]); simpl in Hcheck;
    destruct (SequenceMatcher.step _ _ _) as [m1 matched]; simpl in Hcheck;
    specialize (Hother m1);
    (destruct (handleTransitions _ _ _ _) as [pl'|] eqn:Htr; [|done]);
    injection Hcheck as <-; simpl in *;
    unfold handleTransitions in Htr; simpl in Htr; rewrite Hc, ?Hen in Htr;
    simpl in Htr.
  - destruct Hkept as [Hnone|[c' Hsome]]; [congruence|].
    repeat case_match; simplify_eq; simpl in *; done.
  - repeat (case_match; simplify_option_eq); done.
Qed.

End GameInPlay.

Example confirmed_enemy_is_current_and_within_grace_witness :
  let idle := Game.pose false false false false in
  let leftArm := Game.pose true false false false in
  let en := {| Enemy.bodyColor := "#ff00ff";
               Enemy.moveSequence :=
                 {| MoveSequence.frames := [leftArm; idle];
                    MoveSequence.id := "enemy1" |} |} in
  let poses := [idle; idle; idle; idle; leftArm; idle] in
  let g := default (Game.new [en]) (Game.run poses (Game.new [en])) in
  Player.currentMatchingEnemy (Game.player g) = Some 0 ∧
  Player.graceFrames (Game.player g) < MATCHING_CONFIG.GRACE_PERIOD.
Proof.
  intros idle leftArm en poses g.
  destruct (confirmed_enemy_is_current_and_within_grace [en] poses g) as [Hconf _].
  - vm_compute. reflexivity.
  - apply (Hconf 0). vm_compute. reflexivity.
Defined.

Example stored_matchers_stay_well_formed_witness :
  let idle := Game.pose false false false false in
  let leftArm := Game.pose true false false false in
  let en := {| Enemy.bodyColor := "#ff00ff";
               Enemy.moveSequence :=
                 {| MoveSequence.frames := [leftArm; idle];
                    MoveSequence.id := "enemy1" |} |} in
  let poses := [idle; idle; idle; idle; leftArm] in
  let g := default (Game.new [en]) (Game.run poses (Game.new [en])) in
  let m := default (SequenceMatcher.new [])
             (Player.sequenceMatchers (Game.player g) !! "enemy1") in
  SequenceMatcher.sequenceLength m = length (SequenceMatcher.sequence m) ∧
  (SequenceMatcher.matchPosition m < length (SequenceMatcher.sequence m) ∨
   SequenceMatcher.matchPosition m = 0).
Proof.
  intros idle leftArm en poses g m.
  destruct (stored_matchers_stay_well_formed [en] poses g) with (k := "enemy1"%string) (m := m)
    as (_ & Hlen & Hpos & _).
  - vm_compute. reflexivity.
  - vm_compute. reflexivity.
  - split; [exact Hlen | exact Hpos].
Defined.

Example tracked_frame_leaves_other_matchers_witness :
  let idle := Game.pose false false false false in
  let leftArm := Game.pose true false false false in
  let g := default (Game.new Game.createEnemies)
             (Game.run [idle; idle; idle; idle; leftArm] (Game.new Game.createEnemies)) in
  let mid := Game.set_player
               (Player.set_frameCounter 6 (Player.update leftArm (Game.player g))) g in
  let g' := default mid (Game.checkPlayerMatches mid) in
  Player.sequenceMatchers (Game.player g') !! "enemy2" =
    Some (SequenceMatcher.new
            (Game.createSequence [Game.pose false false false true; idle])).
Proof.
  intros idle leftArm g mid g'.
  apply (tracked_frame_leaves_other_matchers mid g' 0
           {| Enemy.bodyColor := "#ff00ff";
              Enemy.moveSequence :=
                {| MoveSequence.frames := Game.createSequence [leftArm; idle];
                   MoveSequence.id := "enemy1" |} |}).
  - vm_compute. reflexivity.
  - right. split; vm_compute; reflexivity.
  - vm_compute. reflexivity.
  - left. vm_compute. reflexivity.
  - vm_compute. discriminate.
  - vm_compute. reflexivity.
Defined.

(** ** Frames that start nothing, and the colour shown *)

Section NoHit.
Import Game MATCHING_CONFIG.

Lemma searchFrom_no_hit (pose : PoseState) (frame : nat) (rest : list Enemy.t)
    (ms : gmap string SequenceMatcher.t) (best : option nat) (q : Q) :
  (∀ en, en ∈ rest →
     ∃ m, ms !! enemyId en = Some m ∧
          SequenceMatcher.findBestStartingPosition m (Some pose) = None) →
  ∀ i, searchFrom pose frame i rest (ms, best, q) = Some (ms, best, q).
Proof.
  induction rest as [|en rest IH]; intros Hmiss i; [done|].
  cbn [searchFrom]. destruct (Hmiss en) as (m & Hm & Hf); [by left|].
  rewrite Hm. simpl. rewrite Hf.
  apply IH. intros en' Hin. apply Hmiss. by right.
Qed.

(** X20. Past the warm-up guard and with no candidate tracked, a frame on which no
    enemy's matcher finds a starting position, as on every frame with an idle
    player, selects no candidate, restores the player's own colour and
    changes no matcher (beyond creating the missing ones). *)
Theorem frame_without_hit_selects_nothing (g : Game.t) :
  let ms := initMatchers (enemies g) (Player.sequenceMatchers (player g)) in
  5 ≤ length (Player.moveHistory (player g)) →
  Player.currentMatchingEnemy (player g) = None →
  Player.confirmedMatchEnemy (player g) = None →
  SequenceMatcher.isActiveState (Some (Player.states (player g))) = false ∨
  (∀ en m, en ∈ enemies g → ms !! enemyId en = Some m →
           SequenceMatcher.findBestStartingPosition m
             (Some (Player.states (player g))) = None) →
  ∃ g', checkPlayerMatches g = Some g' ∧
        Player.currentMatchingEnemy (player g') = None ∧
        Player.confirmedMatchEnemy (player g') = None ∧
        Player.sequenceMatchers (player g') = ms ∧
        Player.bodyColor (player g') = Player.originalColor (player g) ∧
        Player.headColor (player g') = Player.originalColor (player g).
Proof.
  intros ms Hlen Hcur Hconf Hmiss.
  assert (∀ en, en ∈ enemies g →
            ∃ m, ms !! enemyId en = Some m ∧
                 SequenceMatcher.findBestStartingPosition m
                   (Some (Player.states (player g))) = None) as Hmiss'.
  { intros en Hin.
    destruct (initMatchers_covers (enemies g) (Player.sequenceMatchers (player g)) en Hin)
      as [m Hm].
    exists m. split; [done|]. destruct Hmiss as [Hidle|Hnone]; [|by eapply Hnone].
    unfold SequenceMatcher.findBestStartingPosition. by rewrite Hidle. }
  unfold checkPlayerMatches. case_decide; [lia|].
  unfold updateMatchers. rewrite Hconf, Hcur. fold ms.
  rewrite (searchFrom_no_hit _ _ _ _ _ _ Hmiss'). simpl.
  unfold handleTransitions. simpl. rewrite Hconf.
  eexists. split; [reflexivity|]. by simpl.
Qed.

Example frame_without_hit_selects_nothing_witness :
  let idle := pose false false false false in
  let g := set_player
             (Player.set_moveHistory (replicate 5 idle) Player.new)
             (Game.new createEnemies) in
  ∃ g', checkPlayerMatches g = Some g' ∧
        Player.currentMatchingEnemy (player g') = None.
Proof.
  intros idle g.
  destruct (frame_without_hit_selects_nothing g) as (g' & Hcheck & Hcur & _).
  - vm_compute. lia.
  - reflexivity.
  - reflexivity.
  - left. reflexivity.
  - exists g'. split; [exact Hcheck | exact Hcur].
Defined.

(** The colour the player shows: the body colour of the current enemy, the
    player's own colour when there is none; head and body agree. *)
Definition shownColour (es : list Enemy.t) (pl : Player.t) : string :=
  match Player.currentMatchingEnemy pl with
  | Some c => default (Player.originalColor pl) (Enemy.bodyColor <$> es !! c)
  | None => Player.originalColor pl
  end.

Definition colourOk (es : list Enemy.t) (pl : Player.t) : Prop :=
  Player.bodyColor pl = shownColour es pl ∧
  Player.headColor pl = shownColour es pl.

Lemma handleTransitions_colour (es : list Enemy.t) (pl pl' : Player.t)
    (b : option nat) (q : Q) :
  candidatesOk es pl →
  handleTransitions pl es b q = Some pl' → colourOk es pl'.
Proof.
  intros [_ Hconf] Htr. unfold handleTransitions in Htr.
  destruct (Player.confirmedMatchEnemy pl) as [c|] eqn:Hc.
  - destruct (Hconf c eq_refl) as [Hcc _].
    destruct (es !! c) as [en|] eqn:Hen; [|done]. simpl in Htr.
    repeat case_match; simplify_eq;
      unfold colourOk, shownColour; simpl; rewrite ?Hcc, ?Hen; done.
  - repeat (case_match; simplify_option_eq);
      unfold colourOk, shownColour; simpl;
      repeat match goal with H : es !! _ = Some _ |- _ => rewrite H end; done.
Qed.

Lemma checkPlayerMatches_colour (es : list Enemy.t) (g g' : Game.t) :
  gameOk es g → colourOk es (player g) →
  checkPlayerMatches g = Some g' → colourOk es (player g').
Proof.
  intros (Hes & _ & _ & Hcand & _) Hcol. unfold checkPlayerMatches.
  case_decide; [by intros [= <-]|].
  intros Hcheck.
  destruct (updateMatchers _ _ _) as [[[ms' b] q]|]; [|done]. simpl in Hcheck.
  destruct (handleTransitions _ _ _ _) as [pl'|] eqn:Htr; [|done].
  injection Hcheck as <-. simpl. rewrite Hes in Htr.
  eapply handleTransitions_colour; [|exact Htr].
  destruct Hcand as [Hcur Hconf]. split; [exact Hcur | exact Hconf].
Qed.

Lemma run_colour (es : list Enemy.t) (poses : list PoseState) :
  ∀ g g', gameOk es g → colourOk es (player g) →
          run poses g = Some g' → colourOk es (player g').
Proof.
  induction poses as [|pose poses IH]; intros g g' Hok Hcol; simpl.
  - by intros [= <-].
  - destruct (update_ok es pose g Hok) as (g1 & Hupd & Hok1 & _).
    rewrite Hupd. simpl. apply IH; [done|].
    unfold update in Hupd.
    eapply checkPlayerMatches_colour; [| |exact Hupd].
    + destruct Hok as (? & ? & ? & [Hcur Hconf] & ?).
      split; [done|]. split; [done|]. split; [done|]. split; [|done].
      split; [exact Hcur | exact Hconf].
    + exact Hcol.
Qed.

Lemma run_originalColor (poses : list PoseState) :
  ∀ g0 g, run poses g0 = Some g →
          Player.originalColor (player g) = Player.originalColor (player g0).
Proof.
  induction poses as [|pose poses IH]; intros g0 g; simpl.
  - by intros [= <-].
  - destruct (update pose g0) as [g1|] eqn:Hupd; [|done]. simpl.
    intros ->%IH. unfold update in Hupd.
    apply checkPlayerMatches_sameLog in Hupd as (_ & _ & Hlog).
    by destruct Hlog as (_ & _ & _ & _ & _ & ->).
Qed.

(** X21. In a game in play the player always shows the body colour of the current
    enemy (head and body alike), and the player's own colour when no enemy
    is current. *)
Theorem player_shows_colour_of_current_enemy
    (es : list Enemy.t) (poses : list PoseState) (g : Game.t) :
  run poses (Game.new es) = Some g →
  match Player.currentMatchingEnemy (player g) with
  | Some c => ∃ en, es !! c = Some en ∧
                    Player.bodyColor (player g) = Enemy.bodyColor en ∧
                    Player.headColor (player g) = Enemy.bodyColor en
  | None => Player.bodyColor (player g) = Player.originalColor Player.new ∧
            Player.headColor (player g) = Player.originalColor Player.new
  end.
Proof.
  intros Hrun.
  pose proof (run_gameOk es poses g Hrun) as (_ & _ & _ & [Hcur _] & _).
  pose proof (run_colour es poses _ _ (new_ok es) (conj eq_refl eq_refl) Hrun)
    as [Hbody Hhead].
  pose proof (run_originalColor poses _ _ Hrun) as Horig. simpl in Horig.
  unfold shownColour in *.
  destruct (Player.currentMatchingEnemy (player g)) as [c|].
  - destruct (Hcur c eq_refl) as [en Hen]. rewrite Hen in *. simpl in *.
    by exists en.
  - by rewrite Hbody, Hhead, Horig.
Qed.

End NoHit.

Example player_shows_colour_of_current_enemy_witness :
  let idle := Game.pose false false false false in
  let leftArm := Game.pose true false false false in
  let poses := [idle; idle; idle; idle; leftArm] in
  let g := default (Game.new Game.createEnemies)
             (Game.run poses (Game.new Game.createEnemies)) in
  match Player.currentMatchingEnemy (Game.player g) with
  | Some c => ∃ en, Game.createEnemies !! c = Some en ∧
                    Player.bodyColor (Game.player g) = Enemy.bodyColor en ∧
                    Player.headColor (Game.player g) = Enemy.bodyColor en
  | None => Player.bodyColor (Game.player g) = Player.originalColor Player.new ∧
            Player.headColor (Game.player g) = Player.originalColor Player.new
  end.
Proof.
  intros idle leftArm poses g.
  apply (player_shows_colour_of_current_enemy Game.createEnemies poses g).
  vm_compute. reflexivity.
Defined.

(** * The game over binary64 scores

    The same program with the scores as JavaScript has them: IEEE 754
    binary64 numbers, every [+] and [-] rounded to nearest. Which side of
    [QUALITY_THRESHOLD_BUILD] or [QUALITY_THRESHOLD_CONFIRM] a score falls on
    can depend on that rounding (1 - 0.1 - 0.1 - 0.1 - 0.1 is
    0.6000000000000001), so the statements about whole games in which these
    tests decide the outcome are made over this model. The pose predicates
    [statesEqual] and [isActiveState], the search loop [findFrom], and the
    enemies are those of the first part: no score enters them. *)

#[local] Set Warnings "-inexact-float".

(** [Math.min] and [Math.max] on two numbers: [NaN] if either is [NaN],
    and [-0] counts as smaller than [+0]. *)
Module Math.
Definition min (a b : float) : float :=
  if is_nan a || is_nan b then nan
  else if (a <? b)%float then a
  else if (b <? a)%float then b
  else if get_sign a then a else b.

Definition max (a b : float) : float :=
  if is_nan a || is_nan b then nan
  else if (a <? b)%float then b
  else if (b <? a)%float then a
  else if get_sign a then b else a.
End Math.

(** [a > b] on numbers, as a boolean. *)
Definition gtb (a b : float) : bool := (b <? a)%float.

Module MATCHING_CONFIG_f64.
Definition CONFIDENCE_MATCH : float := 0.25.
Definition CONFIDENCE_DECAY_ACTIVE : float := 0.25.
Definition CONFIDENCE_DECAY_MIXED : float := 0.1.
Definition CONFIDENCE_DECAY_IDLE : float := 0.
Definition QUALITY_THRESHOLD_BUILD : float := 0.1.
Definition QUALITY_THRESHOLD_CONFIRM : float := 0.35.
Definition GRACE_PERIOD : nat := 60.
Definition MAX_HISTORY_LENGTH : nat := 120.
End MATCHING_CONFIG_f64.

(** ** SequenceMatcher *)

Module SequenceMatcher_f64.

Record t := {
  sequence : list PoseState;
  sequenceLength : nat;
  matchPosition : nat;
  cyclesCompleted : nat;
  confidenceScore : float;
  lastMatchFrame : FrameMark;
  isActive : bool
}.

Definition new (enemySequenceFrames : list PoseState) : t :=
  {| sequence := enemySequenceFrames;
     sequenceLength := length enemySequenceFrames;
     matchPosition := 0;
     cyclesCompleted := 0;
     confidenceScore := 0;
     lastMatchFrame := NegInfinity;
     isActive := false |}.

(** Returns [None] where the code returns [-1]. *)
Definition findBestStartingPosition (m : t) (playerState : option PoseState)
    : option nat :=
  if negb (SequenceMatcher.isActiveState playerState) then None
  else SequenceMatcher.findFrom playerState 0 (sequence m).

Definition set_confidenceScore (c : float) (m : t) : t :=
  {| sequence := sequence m; sequenceLength := sequenceLength m;
     matchPosition := matchPosition m; cyclesCompleted := cyclesCompleted m;
     confidenceScore := c;
     lastMatchFrame := lastMatchFrame m; isActive := isActive m |}.

Definition set_lastMatchFrame (f : FrameMark) (m : t) : t :=
  {| sequence := sequence m; sequenceLength := sequenceLength m;
     matchPosition := matchPosition m; cyclesCompleted := cyclesCompleted m;
     confidenceScore := confidenceScore m;
     lastMatchFrame := f; isActive := isActive m |}.

Definition set_isActive (b : bool) (m : t) : t :=
  {| sequence := sequence m; sequenceLength := sequenceLength m;
     matchPosition := matchPosition m; cyclesCompleted := cyclesCompleted m;
     confidenceScore := confidenceScore m;
     lastMatchFrame := lastMatchFrame m; isActive := b |}.

Definition set_matchPosition (p : nat) (m : t) : t :=
  {| sequence := sequence m; sequenceLength := sequenceLength m;
     matchPosition := p; cyclesCompleted := cyclesCompleted m;
     confidenceScore := confidenceScore m;
     lastMatchFrame := lastMatchFrame m; isActive := isActive m |}.

Definition set_cyclesCompleted (c : nat) (m : t) : t :=
  {| sequence := sequence m; sequenceLength := sequenceLength m;
     matchPosition := matchPosition m; cyclesCompleted := c;
     confidenceScore := confidenceScore m;
     lastMatchFrame := lastMatchFrame m; isActive := isActive m |}.

(** [this.sequence[this.matchPosition]]: [undefined] out of range. *)
Definition expectedState (m : t) : option PoseState :=
  sequence m !! matchPosition m.

(** The matcher after the call, and the returned boolean. *)
Definition updateMatch (m : t) (playerState : option PoseState)
    (frameNumber : nat) : t * bool :=
  let expected := expectedState m in
  if SequenceMatcher.statesEqual playerState expected then
    (set_isActive true
       (set_lastMatchFrame (Frame frameNumber)
          (set_confidenceScore
             (Math.min 1 (confidenceScore m + MATCHING_CONFIG_f64.CONFIDENCE_MATCH)) m)),
     true)
  else if negb (SequenceMatcher.isActiveState playerState) &&
          negb (SequenceMatcher.isActiveState expected) then
    (set_confidenceScore
       (Math.max 0 (confidenceScore m - MATCHING_CONFIG_f64.CONFIDENCE_DECAY_IDLE))
       (set_lastMatchFrame (Frame frameNumber) m),
     true)
  else if SequenceMatcher.isActiveState playerState &&
          SequenceMatcher.isActiveState expected then
    (set_isActive false
       (set_confidenceScore
          (Math.max 0 (confidenceScore m - MATCHING_CONFIG_f64.CONFIDENCE_DECAY_ACTIVE)) m),
     false)
  else
    (set_confidenceScore
       (Math.max 0 (confidenceScore m - MATCHING_CONFIG_f64.CONFIDENCE_DECAY_MIXED)) m,
     true).

Definition advancePosition (m : t) : t :=
  let m1 := set_matchPosition (S (matchPosition m)) m in
  if decide (sequenceLength m1 <= matchPosition m1)
  then set_cyclesCompleted (S (cyclesCompleted m1)) (set_matchPosition 0 m1)
  else m1.

Definition reset (m : t) : t :=
  {| sequence := sequence m; sequenceLength := sequenceLength m;
     matchPosition := 0;
     cyclesCompleted := 0;
     confidenceScore := 0;
     lastMatchFrame := NegInfinity;
     isActive := false |}.

Definition getMatchQuality (m : t) : float := confidenceScore m.

(** What every caller does with one player frame: [updateMatch], then
    [advancePosition] when the update returned [true]. *)
Definition step (m : t) (playerState : option PoseState) (frameNumber : nat)
    : t * bool :=
  let '(m1, matched) := updateMatch m playerState frameNumber in
  (if matched then advancePosition m1 else m1, matched).

End SequenceMatcher_f64.

(** ** Player (the fields the matching core reads or writes) *)

Module Player_f64.

Record t := {
  states : PoseState;
  bodyColor : string;
  headColor : string;
  originalColor : string;
  moveHistory : list PoseState;
  maxHistoryLength : nat;
  frameCounter : nat;
  sequenceMatchers : gmap string SequenceMatcher_f64.t;
  currentMatchingEnemy : option nat;
  confirmedMatchEnemy : option nat;
  graceFrames : nat;
  gracePeriod : nat
}.

Definition new : t :=
  {| states := {| leftArmRaised := false; rightArmRaised := false;
                  leftLegRaised := false; rightLegRaised := false;
                  lampBlinking := false |};
     bodyColor := "#00ffcc"; headColor := "#00ffcc";
     originalColor := "#00ffcc";
     moveHistory := [];
     maxHistoryLength := MATCHING_CONFIG_f64.MAX_HISTORY_LENGTH;
     frameCounter := 0;
     sequenceMatchers := ∅;
     currentMatchingEnemy := None;
     confirmedMatchEnemy := None;
     graceFrames := 0;
     gracePeriod := MATCHING_CONFIG_f64.GRACE_PERIOD |}.

Definition set_states (s : PoseState) (p : t) : t :=
  {| states := s; bodyColor := bodyColor p; headColor := headColor p;
     originalColor := originalColor p; moveHistory := moveHistory p;
     maxHistoryLength := maxHistoryLength p; frameCounter := frameCounter p;
     sequenceMatchers := sequenceMatchers p;
     currentMatchingEnemy := currentMatchingEnemy p;
     confirmedMatchEnemy := confirmedMatchEnemy p;
     graceFrames := graceFrames p; gracePeriod := gracePeriod p |}.

Definition set_moveHistory (h : list PoseState) (p : t) : t :=
  {| states := states p; bodyColor := bodyColor p; headColor := headColor p;
     originalColor := originalColor p; moveHistory := h;
     maxHistoryLength := maxHistoryLength p; frameCounter := frameCounter p;
     sequenceMatchers := sequenceMatchers p;
     currentMatchingEnemy := currentMatchingEnemy p;
     confirmedMatchEnemy := confirmedMatchEnemy p;
     graceFrames := graceFrames p; gracePeriod := gracePeriod p |}.

Definition set_frameCounter (n : nat) (p : t) : t :=
  {| states := states p; bodyColor := bodyColor p; headColor := headColor p;
     originalColor := originalColor p; moveHistory := moveHistory p;
     maxHistoryLength := maxHistoryLength p; frameCounter := n;
     sequenceMatchers := sequenceMatchers p;
     currentMatchingEnemy := currentMatchingEnemy p;
     confirmedMatchEnemy := confirmedMatchEnemy p;
     graceFrames := graceFrames p; gracePeriod := gracePeriod p |}.

Definition set_sequenceMatchers (ms : gmap string SequenceMatcher_f64.t) (p : t) : t :=
  {| states := states p; bodyColor := bodyColor p; headColor := headColor p;
     originalColor := originalColor p; moveHistory := moveHistory p;
     maxHistoryLength := maxHistoryLength p; frameCounter := frameCounter p;
     sequenceMatchers := ms;
     currentMatchingEnemy := currentMatchingEnemy p;
     confirmedMatchEnemy := confirmedMatchEnemy p;
     graceFrames := graceFrames p; gracePeriod := gracePeriod p |}.

Definition set_currentMatchingEnemy (e : option nat) (p : t) : t :=
  {| states := states p; bodyColor := bodyColor p; headColor := headColor p;
     originalColor := originalColor p; moveHistory := moveHistory p;
     maxHistoryLength := maxHistoryLength p; frameCounter := frameCounter p;
     sequenceMatchers := sequenceMatchers p;
     currentMatchingEnemy := e;
     confirmedMatchEnemy := confirmedMatchEnemy p;
     graceFrames := graceFrames p; gracePeriod := gracePeriod p |}.

Definition set_confirmedMatchEnemy (e : option nat) (p : t) : t :=
  {| states := states p; bodyColor := bodyColor p; headColor := headColor p;
     originalColor := originalColor p; moveHistory := moveHistory p;
     maxHistoryLength := maxHistoryLength p; frameCounter := frameCounter p;
     sequenceMatchers := sequenceMatchers p;
     currentMatchingEnemy := currentMatchingEnemy p;
     confirmedMatchEnemy := e;
     graceFrames := graceFrames p; gracePeriod := gracePeriod p |}.

Definition set_graceFrames (n : nat) (p : t) : t :=
  {| states := states p; bodyColor := bodyColor p; headColor := headColor p;
     originalColor := originalColor p; moveHistory := moveHistory p;
     maxHistoryLength := maxHistoryLength p; frameCounter := frameCounter p;
     sequenceMatchers := sequenceMatchers p;
     currentMatchingEnemy := currentMatchingEnemy p;
     confirmedMatchEnemy := confirmedMatchEnemy p;
     graceFrames := n; gracePeriod := gracePeriod p |}.

Definition morphToColor (newColor : string) (p : t) : t :=
  {| states := states p; bodyColor := newColor; headColor := newColor;
     originalColor := originalColor p; moveHistory := moveHistory p;
     maxHistoryLength := maxHistoryLength p; frameCounter := frameCounter p;
     sequenceMatchers := sequenceMatchers p;
     currentMatchingEnemy := currentMatchingEnemy p;
     confirmedMatchEnemy := confirmedMatchEnemy p;
     graceFrames := graceFrames p; gracePeriod := gracePeriod p |}.

(** Push a copy of the current pose; drop the oldest entry once the log is
    longer than [maxHistoryLength]. *)
Definition recordMove (p : t) : t :=
  let h := moveHistory p ++ [states p] in
  set_moveHistory
    (if decide (maxHistoryLength p < length h) then drop 1 h else h) p.

(** [update(keys)], as far as matching is concerned: the pose this frame is
    [pose] (the toggles of the key handlers and the lamp timer have been
    applied), and it is logged. Movement and physics are left out. *)
Definition update (pose : PoseState) (p : t) : t :=
  recordMove (set_states pose p).

End Player_f64.

(** ** Game: the arbitration of [checkPlayerMatches] *)

Module Game_f64.

Record t := {
  player : Player_f64.t;
  enemies : list Enemy.t;
  frameNumber : nat
}.

(** [constructor], with the enemy list of [createEnemies] as a parameter. *)
Definition new (es : list Enemy.t) : t :=
  {| player := Player_f64.new; enemies := es; frameNumber := 0 |}.

(** "Initialize matchers for all enemies if not already done". *)
Definition initMatchers (es : list Enemy.t)
    (ms : gmap string SequenceMatcher_f64.t) : gmap string SequenceMatcher_f64.t :=
  foldl (fun ms enemy =>
           match ms !! Game.enemyId enemy with
           | Some _ => ms
           | None => <[Game.enemyId enemy := SequenceMatcher_f64.new (Game.enemyFrames enemy)]> ms
           end) ms es.

(** The body shared by the "confirmed" and the "currently tracked" branches:
    update that enemy's matcher only. Returns the matchers and the quality. *)
Definition trackEnemy (es : list Enemy.t) (ms : gmap string SequenceMatcher_f64.t)
    (e : nat) (playerState : PoseState) (frame : nat)
    : option (gmap string SequenceMatcher_f64.t * float) :=
  enemy ← es !! e;
  matcher ← ms !! Game.enemyId enemy;
  let '(m1, _) := SequenceMatcher_f64.step matcher (Some playerState) frame in
  Some (<[Game.enemyId enemy := m1]> ms, SequenceMatcher_f64.getMatchQuality m1).

(** The search loop over all enemies, entered at enemy number [i] with
    [rest] the enemies from [i] on; the accumulator is the matcher map,
    [bestEnemy] and [bestMatchQuality]. *)
Fixpoint searchFrom (playerState : PoseState) (frame : nat) (i : nat)
    (rest : list Enemy.t)
    (acc : gmap string SequenceMatcher_f64.t * option nat * float)
    : option (gmap string SequenceMatcher_f64.t * option nat * float) :=
  match rest with
  | [] => Some acc
  | enemy :: rest' =>
      let '(ms, bestEnemy, bestMatchQuality) := acc in
      matcher ← ms !! Game.enemyId enemy;
      match SequenceMatcher_f64.findBestStartingPosition matcher (Some playerState) with
      | None => searchFrom playerState frame (S i) rest' acc
      | Some startPos =>
          let m0 := SequenceMatcher_f64.set_matchPosition startPos
                      (SequenceMatcher_f64.reset matcher) in
          let '(m1, _) := SequenceMatcher_f64.step m0 (Some playerState) frame in
          let ms1 := <[Game.enemyId enemy := m1]> ms in
          let quality := SequenceMatcher_f64.getMatchQuality m1 in
          if gtb quality bestMatchQuality
          then searchFrom playerState frame (S i) rest' (ms1, Some i, quality)
          else searchFrom playerState frame (S i) rest' (ms1, bestEnemy, bestMatchQuality)
      end
  end.

(** The first half of [checkPlayerMatches] after the warm-up guard: which
    matchers are updated, and the resulting [bestEnemy], [bestMatchQuality]. *)
Definition updateMatchers (pl : Player_f64.t) (es : list Enemy.t)
    (ms : gmap string SequenceMatcher_f64.t)
    : option (gmap string SequenceMatcher_f64.t * option nat * float) :=
  let playerState := Player_f64.states pl in
  let frame := Player_f64.frameCounter pl in
  match Player_f64.confirmedMatchEnemy pl with
  | Some c =>
      '(ms1, q) ← trackEnemy es ms c playerState frame;
      Some (ms1, Some c, q)
  | None =>
      match Player_f64.currentMatchingEnemy pl with
      | Some c =>
          '(ms1, q) ← trackEnemy es ms c playerState frame;
          Some (ms1, Some c, q)
      | None => searchFrom playerState frame 0 es (ms, None, 0%float)
      end
  end.

(** "Handle state transitions". *)
Definition handleTransitions (pl : Player_f64.t) (es : list Enemy.t)
    (bestEnemy : option nat) (bestMatchQuality : float) : option Player_f64.t :=
  match Player_f64.confirmedMatchEnemy pl with
  | Some c =>
      confirmed ← es !! c;
      if bool_decide (bestEnemy = Some c) &&
         gtb bestMatchQuality MATCHING_CONFIG_f64.QUALITY_THRESHOLD_CONFIRM
      then
        Some (Player_f64.morphToColor (Enemy.bodyColor confirmed)
                (Player_f64.set_graceFrames 0 pl))
      else
        let pl1 := Player_f64.set_graceFrames (S (Player_f64.graceFrames pl)) pl in
        if decide (Player_f64.graceFrames pl1 < Player_f64.gracePeriod pl1)
        then Some (Player_f64.morphToColor (Enemy.bodyColor confirmed) pl1)
        else
          let pl2 := Player_f64.morphToColor (Player_f64.originalColor pl1)
                       (Player_f64.set_currentMatchingEnemy None
                          (Player_f64.set_confirmedMatchEnemy None pl1)) in
          Some (Player_f64.set_sequenceMatchers
                  (SequenceMatcher_f64.reset <$> Player_f64.sequenceMatchers pl2) pl2)
  | None =>
      match bestEnemy with
      | Some b =>
          if gtb bestMatchQuality MATCHING_CONFIG_f64.QUALITY_THRESHOLD_BUILD
          then
            best ← es !! b;
            matcher ← Player_f64.sequenceMatchers pl !! Game.enemyId best;
            if decide (0 < SequenceMatcher_f64.cyclesCompleted matcher)
            then
              Some (Player_f64.morphToColor (Enemy.bodyColor best)
                      (Player_f64.set_graceFrames 0
                         (Player_f64.set_currentMatchingEnemy (Some b)
                            (Player_f64.set_confirmedMatchEnemy (Some b) pl))))
            else
              Some (Player_f64.morphToColor (Enemy.bodyColor best)
                      (Player_f64.set_currentMatchingEnemy (Some b) pl))
          else
            Some (Player_f64.morphToColor (Player_f64.originalColor pl)
                    (Player_f64.set_currentMatchingEnemy None pl))
      | None =>
          Some (Player_f64.morphToColor (Player_f64.originalColor pl)
                  (Player_f64.set_currentMatchingEnemy None pl))
      end
  end.

Definition set_player (p : Player_f64.t) (g : t) : t :=
  {| player := p; enemies := enemies g; frameNumber := frameNumber g |}.

Definition checkPlayerMatches (g : t) : option t :=
  let pl := player g in
  if decide (length (Player_f64.moveHistory pl) < 5) then Some g
  else
    let ms := initMatchers (enemies g) (Player_f64.sequenceMatchers pl) in
    '(ms1, bestEnemy, bestMatchQuality) ← updateMatchers pl (enemies g) ms;
    pl1 ← handleTransitions (Player_f64.set_sequenceMatchers ms1 pl) (enemies g)
            bestEnemy bestMatchQuality;
    Some (set_player pl1 g).

(** [update()], with the pose the player holds this frame as a parameter.
    The enemies' own animation and physics do not enter the matching. *)
Definition update (pose : PoseState) (g : t) : option t :=
  let pl := Player_f64.update pose (player g) in
  checkPlayerMatches
    {| player := Player_f64.set_frameCounter (S (Player_f64.frameCounter pl)) pl;
       enemies := enemies g;
       frameNumber := S (frameNumber g) |}.

(** Successive frames. *)
Fixpoint run (poses : list PoseState) (g : t) : option t :=
  match poses with
  | [] => Some g
  | pose :: rest => g1 ← update pose g; run rest g1
  end.

(** The game at the end of each of the frames, first frame first. *)
Fixpoint trace (poses : list PoseState) (g : t) : option (list t) :=
  match poses with
  | [] => Some []
  | pose :: rest => g1 ← update pose g; gs ← trace rest g1; Some (g1 :: gs)
  end.

End Game_f64.

(** ** What a frame never changes *)

Section Frame_f64.
Import Game_f64.

(** The player fields outside the arbitrator's state. *)
Definition sameLog_f64 (p q : Player_f64.t) : Prop :=
  Player_f64.states q = Player_f64.states p ∧
  Player_f64.moveHistory q = Player_f64.moveHistory p ∧
  Player_f64.maxHistoryLength q = Player_f64.maxHistoryLength p ∧
  Player_f64.frameCounter q = Player_f64.frameCounter p ∧
  Player_f64.gracePeriod q = Player_f64.gracePeriod p ∧
  Player_f64.originalColor q = Player_f64.originalColor p.

Lemma handleTransitions_sameLog_f64 pl es b q pl' :
  handleTransitions pl es b q = Some pl' → sameLog_f64 pl pl'.
Proof.
  unfold handleTransitions, sameLog_f64. intros H.
  repeat (case_match; simplify_option_eq); done.
Qed.

Lemma checkPlayerMatches_sameLog_f64 g g' :
  checkPlayerMatches g = Some g' →
  enemies g' = enemies g ∧ frameNumber g' = frameNumber g ∧
  sameLog_f64 (player g) (player g').
Proof.
  unfold checkPlayerMatches. case_decide.
  - intros [= <-]. by repeat split.
  - intros Hcheck.
    destruct (updateMatchers _ _ _) as [[[ms1 b] q]|]; [|done]. simpl in Hcheck.
    destruct (handleTransitions _ _ _ _) as [pl1|] eqn:Htr; [|done].
    injection Hcheck as <-.
    apply handleTransitions_sameLog_f64 in Htr.
    split; [done|]. split; [done|]. exact Htr.
Qed.

Lemma recordMove_length_f64 (pl : Player_f64.t) :
  length (Player_f64.moveHistory (Player_f64.recordMove pl)) =
    if decide (Player_f64.maxHistoryLength pl < S (length (Player_f64.moveHistory pl)))
    then length (Player_f64.moveHistory pl)
    else S (length (Player_f64.moveHistory pl)).
Proof.
  unfold Player_f64.recordMove. simpl. rewrite length_app. simpl.
  rewrite Nat.add_1_r. case_decide; [|by rewrite length_app, Nat.add_1_r].
  rewrite length_drop, length_app. simpl. lia.
Qed.

Lemma initMatchers_keeps_f64 (es : list Enemy.t) :
  ∀ (ms : gmap string SequenceMatcher_f64.t) k m,
    ms !! k = Some m → initMatchers es ms !! k = Some m.
Proof.
  unfold initMatchers.
  induction es as [|en es IH]; intros ms k m Hk; simpl; [done|].
  apply IH. destruct (ms !! Game.enemyId en) eqn:Hen; [done|].
  rewrite lookup_insert_ne; [done|]. congruence.
Qed.

Lemma initMatchers_covers_f64 (es : list Enemy.t) :
  ∀ (ms : gmap string SequenceMatcher_f64.t) en,
    en ∈ es → is_Some (initMatchers es ms !! Game.enemyId en).
Proof.
  induction es as [|en0 es IH]; intros ms en Hin; [by apply elem_of_nil in Hin|].
  apply elem_of_cons in Hin as [->|Hin]; [|by apply IH].
  unfold initMatchers. simpl. fold (initMatchers es).
  destruct (ms !! Game.enemyId en0) as [m|] eqn:Hen.
  - exists m. by apply initMatchers_keeps_f64.
  - eexists. apply initMatchers_keeps_f64. apply lookup_insert_eq.
Qed.

End Frame_f64.

(** ** Invariants of a game in play *)

Section Invariant_f64.
Import Game_f64 MATCHING_CONFIG_f64.

Variable es : list Enemy.t.

(** A matcher stored under the key [k]: built over the frames of an enemy
    with that id, its recorded length that of the sequence, its position
    inside the sequence (0 for an empty one). *)
Definition wfMatcher_f64 (k : string) (m : SequenceMatcher_f64.t) : Prop :=
  (∃ en, en ∈ es ∧ Game.enemyId en = k ∧
         SequenceMatcher_f64.sequence m = Game.enemyFrames en) ∧
  SequenceMatcher_f64.sequenceLength m = length (SequenceMatcher_f64.sequence m) ∧
  (SequenceMatcher_f64.matchPosition m < SequenceMatcher_f64.sequenceLength m ∨
   SequenceMatcher_f64.matchPosition m = 0).

Definition matchersOk_f64 (ms : gmap string SequenceMatcher_f64.t) : Prop :=
  ∀ k m, ms !! k = Some m → wfMatcher_f64 k m.

Definition covers_f64 (ms : gmap string SequenceMatcher_f64.t) : Prop :=
  ∀ en, en ∈ es → is_Some (ms !! Game.enemyId en).

Definition candidatesOk_f64 (pl : Player_f64.t) : Prop :=
  (∀ c, Player_f64.currentMatchingEnemy pl = Some c → is_Some (es !! c)) ∧
  (∀ c, Player_f64.confirmedMatchEnemy pl = Some c →
        Player_f64.currentMatchingEnemy pl = Some c ∧
        Player_f64.graceFrames pl < Player_f64.gracePeriod pl).

Definition gameOk_f64 (g : Game_f64.t) : Prop :=
  enemies g = es ∧
  Player_f64.gracePeriod (player g) = GRACE_PERIOD ∧
  Player_f64.maxHistoryLength (player g) = MAX_HISTORY_LENGTH ∧
  candidatesOk_f64 (player g) ∧
  matchersOk_f64 (Player_f64.sequenceMatchers (player g)) ∧
  (length (Player_f64.moveHistory (player g)) < 5 →
   Player_f64.currentMatchingEnemy (player g) = None).

(** Frames accepted since the matcher was last reset, if it was started at
    index 0: full cycles and the position inside the current one. *)
Definition progress (m : SequenceMatcher_f64.t) : nat :=
  SequenceMatcher_f64.cyclesCompleted m * SequenceMatcher_f64.sequenceLength m +
  SequenceMatcher_f64.matchPosition m.

Lemma initMatchers_ok_f64 (es0 : list Enemy.t) :
  ∀ ms, (∀ en, en ∈ es0 → en ∈ es) → matchersOk_f64 ms →
        matchersOk_f64 (initMatchers es0 ms).
Proof.
  unfold initMatchers.
  induction es0 as [|en es0 IH]; intros ms Hsub Hok; simpl; [done|].
  apply IH; [intros en' Hin; apply Hsub; by right|].
  destruct (ms !! Game.enemyId en) eqn:Hen; [done|].
  intros k m. destruct (decide (Game.enemyId en = k)) as [<-|Hne].
  - rewrite lookup_insert_eq. intros [= <-]. split.
    + exists en. split; [apply Hsub; by left|done].
    + split; [done|]. by right.
  - rewrite lookup_insert_ne by done. apply Hok.
Qed.

(** One player frame keeps a matcher well formed, adds at most one to its
    progress and never lowers its cycle count. *)
Lemma step_wf_f64 (k : string) (m : SequenceMatcher_f64.t) (p : option PoseState)
    (f : nat) :
  wfMatcher_f64 k m →
  wfMatcher_f64 k (SequenceMatcher_f64.step m p f).1 ∧
  progress (SequenceMatcher_f64.step m p f).1 ≤ S (progress m) ∧
  SequenceMatcher_f64.cyclesCompleted m ≤
    SequenceMatcher_f64.cyclesCompleted (SequenceMatcher_f64.step m p f).1.
Proof.
  intros (Hen & Hlen & Hpos). unfold SequenceMatcher_f64.step.
  assert (SequenceMatcher_f64.sequence (SequenceMatcher_f64.updateMatch m p f).1 =
            SequenceMatcher_f64.sequence m ∧
          SequenceMatcher_f64.sequenceLength (SequenceMatcher_f64.updateMatch m p f).1 =
            SequenceMatcher_f64.sequenceLength m ∧
          SequenceMatcher_f64.matchPosition (SequenceMatcher_f64.updateMatch m p f).1 =
            SequenceMatcher_f64.matchPosition m ∧
          SequenceMatcher_f64.cyclesCompleted (SequenceMatcher_f64.updateMatch m p f).1 =
            SequenceMatcher_f64.cyclesCompleted m) as (Hs & Hl & Hp & Hc).
  { unfold SequenceMatcher_f64.updateMatch. by repeat case_match. }
  destruct (SequenceMatcher_f64.updateMatch m p f) as [m1 matched]. simpl in *.
  destruct matched; simpl.
  - unfold SequenceMatcher_f64.advancePosition. simpl.
    rewrite Hl, Hp.
    case_decide as Hwrap; unfold wfMatcher_f64, progress; simpl;
      rewrite ?Hs, ?Hl, ?Hp, ?Hc.
    + split; [split; [done|]; split; [done|]; by right|]. split; lia.
    + split; [split; [done|]; split; [done|]; left; lia|]. split; lia.
  - unfold wfMatcher_f64, progress. rewrite Hs, Hl, Hp, Hc.
    split; [by repeat split|]. split; lia.
Qed.

Lemma matchersOk_insert_f64 (ms : gmap string SequenceMatcher_f64.t) (k : string)
    (m : SequenceMatcher_f64.t) :
  matchersOk_f64 ms → wfMatcher_f64 k m → matchersOk_f64 (<[k := m]> ms).
Proof.
  intros Hok Hm k' m'. destruct (decide (k = k')) as [<-|Hne].
  - rewrite lookup_insert_eq. by intros [= <-].
  - rewrite lookup_insert_ne by done. apply Hok.
Qed.

Lemma insert_keeps_is_Some_f64 (ms : gmap string SequenceMatcher_f64.t)
    (k k' : string) (m : SequenceMatcher_f64.t) :
  is_Some (ms !! k') → is_Some (<[k := m]> ms !! k').
Proof.
  intros Hk. destruct (decide (k = k')) as [<-|Hne].
  - rewrite lookup_insert_eq. by eexists.
  - by rewrite lookup_insert_ne.
Qed.

Lemma reset_all_ok_f64 (ms : gmap string SequenceMatcher_f64.t) :
  matchersOk_f64 ms → matchersOk_f64 (SequenceMatcher_f64.reset <$> ms).
Proof.
  intros Hok k m Hk. rewrite lookup_fmap in Hk.
  destruct (ms !! k) as [m0|] eqn:Hm0; [|done]. injection Hk as <-.
  destruct (Hok k m0 Hm0) as (Hen & Hlen & _).
  split; [done|]. split; [done|]. by right.
Qed.

(** Every starting position found in an enemy's sequence is its first
    frame, as for sequences that begin with their only active pose. *)
Hypothesis startAtFirst :
  ∀ en p s, en ∈ es →
    SequenceMatcher.findFrom (Some p) 0 (Game.enemyFrames en) = Some s → s = 0.

(** A matcher restarted by the search and given its one frame. *)
Lemma restart_wf_f64 (k : string) (m : SequenceMatcher_f64.t) (p : PoseState)
    (s f : nat) :
  wfMatcher_f64 k m →
  SequenceMatcher_f64.findBestStartingPosition m (Some p) = Some s →
  let m1 := (SequenceMatcher_f64.step
               (SequenceMatcher_f64.set_matchPosition s (SequenceMatcher_f64.reset m))
               (Some p) f).1 in
  wfMatcher_f64 k m1 ∧ progress m1 ≤ 1.
Proof.
  intros (Hen & Hlen & Hpos) Hfind m1.
  unfold SequenceMatcher_f64.findBestStartingPosition in Hfind.
  destruct (negb _); [done|].
  destruct Hen as (en & Hin & Hk & Hseq).
  assert (s = 0) as ->.
  { eapply startAtFirst; [exact Hin|]. rewrite <- Hseq. exact Hfind. }
  destruct (step_wf_f64 k
              (SequenceMatcher_f64.set_matchPosition 0 (SequenceMatcher_f64.reset m))
              (Some p) f) as (Hwf & Hprog & _).
  { split; [by exists en|]. split; [done|]. by right. }
  split; [exact Hwf|]. exact Hprog.
Qed.

(** The search: it succeeds, keeps the matchers well formed, and the enemy
    it returns, if it is not the one it was entered with, was restarted. *)
Lemma searchFrom_ok_f64 (pose : PoseState) (frame : nat) (rest : list Enemy.t) :
  ∀ (i : nat) (ms : gmap string SequenceMatcher_f64.t) (best : option nat)
    (q : float),
    (∀ en, en ∈ rest → is_Some (ms !! Game.enemyId en)) →
    matchersOk_f64 ms →
    ∃ ms' best' q',
      searchFrom pose frame i rest (ms, best, q) = Some (ms', best', q') ∧
      matchersOk_f64 ms' ∧
      (∀ k m', ms' !! k = Some m' → ms !! k = Some m' ∨ progress m' ≤ 1) ∧
      (∀ k, is_Some (ms !! k) → is_Some (ms' !! k)) ∧
      (best' = best ∨
       ∃ d en m', best' = Some (i + d) ∧ rest !! d = Some en ∧
                  ms' !! Game.enemyId en = Some m' ∧ progress m' ≤ 1).
Proof.
  induction rest as [|en rest IH]; intros i ms best q Hcov Hok.
  - exists ms, best, q. split; [done|]. split; [done|].
    split; [by left|]. split; [done|]. by left.
  - destruct (Hcov en) as [m Hm]; [by left|].
    cbn [searchFrom]. rewrite Hm. simpl.
    destruct (SequenceMatcher_f64.findBestStartingPosition m (Some pose))
      as [s|] eqn:Hfind.
    + pose proof (restart_wf_f64 (Game.enemyId en) m pose s frame (Hok _ _ Hm) Hfind)
        as [Hwf Hprog].
      destruct (SequenceMatcher_f64.step _ _ _) as [m1 matched].
      simpl in Hwf, Hprog.
      set (ms1 := <[Game.enemyId en := m1]> ms).
      assert (∀ en', en' ∈ rest → is_Some (ms1 !! Game.enemyId en')) as Hcov1.
      { intros en' Hin. apply insert_keeps_is_Some_f64, Hcov. by right. }
      assert (matchersOk_f64 ms1) as Hok1 by (by apply matchersOk_insert_f64).
      assert (∀ ms' : gmap string SequenceMatcher_f64.t,
                (∀ k m', ms' !! k = Some m' → ms1 !! k = Some m' ∨ progress m' ≤ 1) →
                ∀ k m', ms' !! k = Some m' → ms !! k = Some m' ∨ progress m' ≤ 1)
        as Hthrough.
      { intros ms' Hnew k m' Hk. destruct (Hnew k m' Hk) as [Hk1|]; [|by right].
        subst ms1. destruct (decide (Game.enemyId en = k)) as [<-|Hne].
        - rewrite lookup_insert_eq in Hk1. injection Hk1 as <-. by right.
        - rewrite lookup_insert_ne in Hk1 by done. by left. }
      assert (∀ ms' : gmap string SequenceMatcher_f64.t,
                (∀ k m', ms' !! k = Some m' → ms1 !! k = Some m' ∨ progress m' ≤ 1) →
                (∀ k, is_Some (ms1 !! k) → is_Some (ms' !! k)) →
                ∃ m', ms' !! Game.enemyId en = Some m' ∧ progress m' ≤ 1) as Hhit.
      { intros ms' Hnew Hdom.
        destruct (Hdom (Game.enemyId en)) as [m' Hm'].
        { subst ms1. rewrite lookup_insert_eq. by eexists. }
        exists m'. split; [done|].
        destruct (Hnew _ _ Hm') as [Hk1|]; [|done].
        subst ms1. rewrite lookup_insert_eq in Hk1. by injection Hk1 as <-. }
      destruct (gtb _ _).
      * destruct (IH (S i) ms1 (Some i) (SequenceMatcher_f64.getMatchQuality m1)
                    Hcov1 Hok1)
          as (ms' & b' & q' & -> & Hok' & Hnew & Hdom & Hb).
        exists ms', b', q'. split; [done|]. split; [done|].
        split; [by apply Hthrough|]. split.
        { intros k Hk. by apply Hdom, insert_keeps_is_Some_f64. }
        right. destruct Hb as [->|(d & en' & m' & -> & Hd & Hm' & Hp')].
        -- destruct (Hhit ms' Hnew Hdom) as (m' & Hm' & Hp').
           exists 0, en, m'. split; [f_equal; lia|done].
        -- exists (S d), en', m'. split; [f_equal; lia|done].
      * destruct (IH (S i) ms1 best q Hcov1 Hok1)
          as (ms' & b' & q' & -> & Hok' & Hnew & Hdom & Hb).
        exists ms', b', q'. split; [done|]. split; [done|].
        split; [by apply Hthrough|]. split.
        { intros k Hk. by apply Hdom, insert_keeps_is_Some_f64. }
        destruct Hb as [->|(d & en' & m' & -> & Hd & Hm' & Hp')]; [by left|].
        right. exists (S d), en', m'. split; [f_equal; lia|done].
    + destruct (IH (S i) ms best q) as (ms' & b' & q' & -> & Hok' & Hnew & Hdom & Hb);
        [intros en' Hin; apply Hcov; by right | done |].
      exists ms', b', q'. split; [done|]. split; [done|]. split; [done|].
      split; [done|].
      destruct Hb as [->|(d & en' & m' & -> & Hd & Hm' & Hp')]; [by left|].
      right. exists (S d), en', m'. split; [f_equal; lia|done].
Qed.

Lemma trackEnemy_ok_f64 (ms : gmap string SequenceMatcher_f64.t) (c : nat)
    (en : Enemy.t) (pose : PoseState) (frame : nat) :
  es !! c = Some en → covers_f64 ms → matchersOk_f64 ms →
  ∃ m m1 ms' q,
    trackEnemy es ms c pose frame = Some (ms', q) ∧
    ms !! Game.enemyId en = Some m ∧
    ms' = <[Game.enemyId en := m1]> ms ∧
    wfMatcher_f64 (Game.enemyId en) m1 ∧
    progress m1 ≤ S (progress m) ∧
    SequenceMatcher_f64.cyclesCompleted m ≤ SequenceMatcher_f64.cyclesCompleted m1.
Proof.
  intros Hen Hcov Hok. unfold trackEnemy. rewrite Hen. simpl.
  destruct (Hcov en) as [m Hm]; [by eapply list_elem_of_lookup_2|].
  rewrite Hm. simpl.
  pose proof (step_wf_f64 (Game.enemyId en) m (Some pose) frame (Hok _ _ Hm))
    as (Hwf & Hprog & Hcyc).
  destruct (SequenceMatcher_f64.step _ _ _) as [m1 matched]. simpl in *.
  exists m, m1. eexists _, _. split; [reflexivity|]. done.
Qed.

(** What the first half of a frame reports about the enemy it returns:
    either the search has just restarted that enemy's matcher, or the enemy
    was current already and its matcher moved on by at most one. *)
Definition followed (pl : Player_f64.t) (ms ms' : gmap string SequenceMatcher_f64.t)
    (c : nat) : Prop :=
  ∃ en m', es !! c = Some en ∧ ms' !! Game.enemyId en = Some m' ∧
    ((Player_f64.confirmedMatchEnemy pl = None ∧ progress m' ≤ 1) ∨
     (Player_f64.currentMatchingEnemy pl = Some c ∧
      ∃ m, ms !! Game.enemyId en = Some m ∧
           progress m' ≤ S (progress m) ∧
           SequenceMatcher_f64.cyclesCompleted m ≤
             SequenceMatcher_f64.cyclesCompleted m')).

Lemma updateMatchers_ok_f64 (pl : Player_f64.t)
    (ms : gmap string SequenceMatcher_f64.t) :
  candidatesOk_f64 pl → covers_f64 ms → matchersOk_f64 ms →
  ∃ ms' b q, updateMatchers pl es ms = Some (ms', b, q) ∧
             matchersOk_f64 ms' ∧ covers_f64 ms' ∧
             (∀ c, Player_f64.confirmedMatchEnemy pl = Some c → b = Some c) ∧
             (∀ c, b = Some c → followed pl ms ms' c).
Proof.
  intros [Hcur Hconf] Hcov Hok. unfold updateMatchers.
  destruct (Player_f64.confirmedMatchEnemy pl) as [c|] eqn:Hc.
  - destruct (Hconf c eq_refl) as [Hcc _].
    destruct (Hcur c Hcc) as [en Hen].
    destruct (trackEnemy_ok_f64 ms c en (Player_f64.states pl)
                (Player_f64.frameCounter pl) Hen Hcov Hok)
      as (m & m1 & ms' & q & -> & Hm & -> & Hwf & Hprog & Hcyc).
    simpl. eexists _, (Some c), q. split; [reflexivity|].
    split; [by apply matchersOk_insert_f64|].
    split; [intros en' Hin; by apply insert_keeps_is_Some_f64, Hcov|].
    split; [by intros c' [= <-]|].
    intros c' [= <-]. exists en, m1. split; [done|].
    split; [apply lookup_insert_eq|]. right. split; [done|]. by exists m.
  - destruct (Player_f64.currentMatchingEnemy pl) as [c|] eqn:Hcc.
    + destruct (Hcur c eq_refl) as [en Hen].
      destruct (trackEnemy_ok_f64 ms c en (Player_f64.states pl)
                  (Player_f64.frameCounter pl) Hen Hcov Hok)
        as (m & m1 & ms' & q & -> & Hm & -> & Hwf & Hprog & Hcyc).
      simpl. eexists _, (Some c), q. split; [reflexivity|].
      split; [by apply matchersOk_insert_f64|].
      split; [intros en' Hin; by apply insert_keeps_is_Some_f64, Hcov|].
      split; [done|].
      intros c' [= <-]. exists en, m1. split; [done|].
      split; [apply lookup_insert_eq|]. right. split; [done|]. by exists m.
    + destruct (searchFrom_ok_f64 (Player_f64.states pl) (Player_f64.frameCounter pl)
                  es 0 ms None 0%float)
        as (ms' & b & q & Hs & Hok' & _ & Hdom & Hb); [done | done |].
      exists ms', b, q. split; [done|]. split; [done|].
      split; [intros en Hin; by apply Hdom, Hcov|].
      split; [done|].
      intros c ->. destruct Hb as [?|(d & en & m' & [= ->] & Hd & Hm' & Hp')]; [done|].
      exists en, m'. split; [done|]. split; [done|]. by left.
Qed.

Lemma handleTransitions_ok_f64 (pl : Player_f64.t) (b : option nat) (q : float) :
  candidatesOk_f64 pl → 0 < Player_f64.gracePeriod pl →
  covers_f64 (Player_f64.sequenceMatchers pl) →
  matchersOk_f64 (Player_f64.sequenceMatchers pl) →
  (∀ c, Player_f64.confirmedMatchEnemy pl = Some c → b = Some c) →
  (∀ i, b = Some i → is_Some (es !! i)) →
  ∃ pl', handleTransitions pl es b q = Some pl' ∧
         candidatesOk_f64 pl' ∧ matchersOk_f64 (Player_f64.sequenceMatchers pl') ∧
         (∀ c, Player_f64.currentMatchingEnemy pl' = Some c →
               b = Some c ∧
               Player_f64.sequenceMatchers pl' = Player_f64.sequenceMatchers pl ∧
               (Player_f64.confirmedMatchEnemy pl' = Some c →
                Player_f64.confirmedMatchEnemy pl = Some c ∨
                ∃ en m, es !! c = Some en ∧
                        Player_f64.sequenceMatchers pl !! Game.enemyId en = Some m ∧
                        0 < SequenceMatcher_f64.cyclesCompleted m)).
Proof.
  intros [Hcur Hconf] Hperiod Hcov Hok Hsame Hb. unfold handleTransitions.
  destruct (Player_f64.confirmedMatchEnemy pl) as [c|] eqn:Hc.
  - destruct (Hconf c eq_refl) as [Hcc Hgrace].
    destruct (Hcur c Hcc) as [en Hen]. rewrite Hen. simpl.
    destruct (_ && _).
    + eexists. split; [reflexivity|]. split.
      { split; simpl; [done|]. intros c'. rewrite Hc. intros [= <-]. split; [done|]. lia. }
      split; [done|]. simpl. intros c'. rewrite Hcc. intros [= <-].
      split; [by apply Hsame|]. split; [done|]. intros _. by left.
    + case_decide as Hlt.
      * eexists. split; [reflexivity|]. split.
        { split; simpl; [done|]. intros c'. rewrite Hc. intros [= <-]. by split. }
        split; [done|]. simpl. intros c'. rewrite Hcc. intros [= <-].
        split; [by apply Hsame|]. split; [done|]. intros _. by left.
      * eexists. split; [reflexivity|]. split; [by split|].
        split; [simpl; by apply reset_all_ok_f64|]. by simpl.
  - destruct b as [i|].
    + destruct (gtb _ _).
      * destruct (Hb i eq_refl) as [en Hen]. rewrite Hen. simpl.
        destruct (Hcov en) as [m Hm]; [by eapply list_elem_of_lookup_2|].
        rewrite Hm. simpl. case_decide.
        -- eexists. split; [reflexivity|]. split.
           { split; simpl.
             - intros c [= <-]. by exists en.
             - intros c [= <-]. split; [done|]. lia. }
           split; [done|]. simpl. intros c [= <-].
           split; [done|]. split; [done|]. intros _. right. by exists en, m.
        -- eexists. split; [reflexivity|]. split.
           { split; simpl.
             - intros c [= <-]. by exists en.
             - intros c. by rewrite Hc. }
           split; [done|]. simpl. intros c [= <-].
           split; [done|]. split; [done|]. by rewrite Hc.
      * eexists. split; [reflexivity|]. split.
        { split; simpl; [done|]. intros c. by rewrite Hc. }
        split; [done|]. by simpl.
    + eexists. split; [reflexivity|]. split.
      { split; simpl; [done|]. intros c. by rewrite Hc. }
      split; [done|]. by simpl.
Qed.

(** What a frame does to the enemy that is current when it ends. *)
Definition tracks (g g' : Game_f64.t) : Prop :=
  ∀ c en, Player_f64.currentMatchingEnemy (player g') = Some c →
          es !! c = Some en →
    ∃ m', Player_f64.sequenceMatchers (player g') !! Game.enemyId en = Some m' ∧
      (Player_f64.confirmedMatchEnemy (player g') = Some c →
       Player_f64.confirmedMatchEnemy (player g) = Some c ∨
       0 < SequenceMatcher_f64.cyclesCompleted m') ∧
      ((Player_f64.confirmedMatchEnemy (player g) = None ∧ progress m' ≤ 1) ∨
       (Player_f64.currentMatchingEnemy (player g) = Some c ∧
        ∀ m, Player_f64.sequenceMatchers (player g) !! Game.enemyId en = Some m →
             progress m' ≤ S (progress m) ∧
             SequenceMatcher_f64.cyclesCompleted m ≤
               SequenceMatcher_f64.cyclesCompleted m')).

Lemma checkPlayerMatches_ok_f64 (g : Game_f64.t) :
  gameOk_f64 g →
  ∃ g', checkPlayerMatches g = Some g' ∧ gameOk_f64 g' ∧ tracks g g'.
Proof.
  intros (Hes & Hperiod & Hmax & Hcand & Hok & Hwarm).
  unfold checkPlayerMatches. case_decide as Hguard.
  { exists g. split; [done|]. split; [done|].
    intros c en Hcur. rewrite (Hwarm Hguard) in Hcur. done. }
  rewrite Hes.
  set (ms := initMatchers es (Player_f64.sequenceMatchers (player g))).
  assert (covers_f64 ms) as Hcov by (intros en Hin; by apply initMatchers_covers_f64).
  assert (matchersOk_f64 ms) as Hok0 by (by apply initMatchers_ok_f64).
  destruct (updateMatchers_ok_f64 (player g) ms Hcand Hcov Hok0)
    as (ms' & b & q & -> & Hok' & Hcov' & Hsame & Hfol).
  simpl.
  destruct (handleTransitions_ok_f64
              (Player_f64.set_sequenceMatchers ms' (player g)) b q)
    as (pl' & Htr & Hcand'' & Hok'' & Hdesc); try done.
  { simpl. rewrite Hperiod. unfold GRACE_PERIOD. lia. }
  { intros i Hi. destruct (Hfol i Hi) as (en & _ & Hen & _). by exists en. }
  rewrite Htr. simpl. eexists. split; [reflexivity|].
  pose proof (handleTransitions_sameLog_f64 _ _ _ _ _ Htr)
    as (_ & Hh & Hm & _ & Hg & _).
  simpl in Hh, Hm, Hg. split.
  - split; [done|]. simpl. split; [by rewrite Hg|]. split; [by rewrite Hm|].
    split; [done|]. split; [done|]. rewrite Hh. intros Hlt. by destruct Hguard.
  - intros c en Hcur Hen. simpl in Hcur |- *.
    destruct (Hdesc c Hcur) as (-> & Hms & Hconf'). simpl in Hms, Hconf'.
    destruct (Hfol c eq_refl) as (en' & m' & Hen' & Hm' & Hcase).
    assert (en' = en) as -> by congruence.
    exists m'. split; [by rewrite Hms|]. split.
    + intros Hc'. destruct (Hconf' Hc') as [Hold|(en2 & m2 & Hen2 & Hm2 & Hcyc)];
        [by left|].
      right. assert (en2 = en) as -> by congruence. congruence.
    + destruct Hcase as [Hfresh|(Hcc & m & Hm0 & Hprog & Hcyc)]; [by left|].
      right. split; [done|]. intros m0 Hm0'.
      pose proof (initMatchers_keeps_f64 es _ _ _ Hm0') as Hkeep.
      fold ms in Hkeep. assert (m0 = m) as -> by congruence. done.
Qed.

Lemma update_ok_f64 (pose : PoseState) (g : Game_f64.t) :
  gameOk_f64 g →
  ∃ g', update pose g = Some g' ∧ gameOk_f64 g' ∧ tracks g g'.
Proof.
  intros (Hes & Hperiod & Hmax & Hcand & Hok & Hwarm). unfold update.
  set (mid := Build_t _ _ _).
  destruct (checkPlayerMatches_ok_f64 mid) as (g' & Hcheck & Hok' & Htracks).
  { split; [done|]. split; [done|]. split; [done|]. split.
    { destruct Hcand as [Hcur Hconf]. split; [exact Hcur | exact Hconf]. }
    split; [done|]. intros Hshort. apply Hwarm. revert Hshort.
    subst mid. cbn [player Player_f64.set_frameCounter Player_f64.moveHistory].
    unfold Player_f64.update. rewrite recordMove_length_f64. simpl. rewrite Hmax.
    unfold MAX_HISTORY_LENGTH. case_decide; lia. }
  exists g'. split; [done|]. split; [done|]. exact Htracks.
Qed.

Lemma new_ok_f64 : gameOk_f64 (Game_f64.new es).
Proof.
  split; [done|]. split; [done|]. split; [done|]. split; [by split|].
  split; [|done]. intros k m Hk. simpl in Hk. by rewrite lookup_empty in Hk.
Qed.

(** *** Continuous tracking *)

(** For how many frames, counted back from the latest one, enemy number [c]
    has been the current candidate; [hist] lists the game at the end of
    each frame, latest first. *)
Fixpoint streak (c : nat) (hist : list Game_f64.t) : nat :=
  match hist with
  | [] => 0
  | g :: h =>
      if decide (Player_f64.currentMatchingEnemy (player g) = Some c)
      then S (streak c h) else 0
  end.

(** The matcher of the current candidate has not progressed further than
    the candidate has been tracked, and a confirmed candidate's matcher has
    wrapped. *)
Definition within (g : Game_f64.t) (h : list Game_f64.t) : Prop :=
  ∀ c en, Player_f64.currentMatchingEnemy (player g) = Some c →
          es !! c = Some en →
    ∃ m, Player_f64.sequenceMatchers (player g) !! Game.enemyId en = Some m ∧
         progress m ≤ streak c (g :: h) ∧
         (Player_f64.confirmedMatchEnemy (player g) = Some c →
          0 < SequenceMatcher_f64.cyclesCompleted m).

Lemma tracks_within (g g' : Game_f64.t) (h : list Game_f64.t) :
  gameOk_f64 g → within g h → tracks g g' → within g' (g :: h).
Proof.
  intros (_ & _ & _ & [_ Hconf] & _) Hin Htr c en Hcur Hen.
  destruct (Htr c en Hcur Hen) as (m' & Hm' & Hc' & Hcase).
  exists m'. split; [done|].
  cbn [streak]. rewrite (decide_True _ _ Hcur).
  destruct Hcase as [[Hnone Hfresh]|[Hcc Hnext]].
  - split; [lia|]. intros Hc. destruct (Hc' Hc); [congruence|done].
  - destruct (Hin c en Hcc Hen) as (m & Hm & Hprog & Hwrapped).
    destruct (Hnext m Hm) as [Hprog' Hcyc].
    split; [cbn [streak] in Hprog; lia|].
    intros Hc. destruct (Hc' Hc) as [Hold|]; [|done].
    specialize (Hwrapped Hold). lia.
Qed.

Lemma trace_within (poses : list PoseState) :
  ∀ (g : Game_f64.t) (h : list Game_f64.t),
    gameOk_f64 g → within g h →
    ∃ gs, trace poses g = Some gs ∧
          ∀ t gt, gs !! t = Some gt →
                  gameOk_f64 gt ∧ within gt (reverse (take t gs) ++ g :: h).
Proof.
  induction poses as [|pose poses IH]; intros g h Hok Hin.
  - exists []. split; [done|]. intros t gt Ht. by rewrite lookup_nil in Ht.
  - cbn [trace].
    destruct (update_ok_f64 pose g Hok) as (g1 & -> & Hok1 & Htr). simpl.
    pose proof (tracks_within g g1 h Hok Hin Htr) as Hin1.
    destruct (IH g1 (g :: h) Hok1 Hin1) as (gs & -> & Hall). simpl.
    eexists. split; [reflexivity|].
    intros [|t] gt Ht; simpl in Ht.
    + injection Ht as <-. by split.
    + destruct (Hall t gt Ht) as [Hokt Hint]. split; [done|].
      cbn [take]. by rewrite reverse_cons, <- app_assoc.
Qed.

Lemma streak_lookup (c : nat) (hist : list Game_f64.t) :
  ∀ j, j < streak c hist →
       ∃ gj, hist !! j = Some gj ∧
             Player_f64.currentMatchingEnemy (player gj) = Some c.
Proof.
  induction hist as [|g h IH]; intros j Hj; cbn [streak] in Hj; [lia|].
  case_decide as Hcur; [|lia].
  destruct j as [|j]; [by exists g|]. apply IH. lia.
Qed.

(** All reference sequences have the same length. *)
Variable N : nat.
Hypothesis sameLength : ∀ en, en ∈ es → length (Game.enemyFrames en) = N.

(** In a game played from the start, a confirmed enemy has a matcher that
    wrapped, and has been the current candidate at the end of each of the
    last [N] frames. *)
Lemma trace_confirmed (poses : list PoseState) :
  ∃ gs, trace poses (Game_f64.new es) = Some gs ∧
    ∀ t g c, gs !! t = Some g →
      Player_f64.confirmedMatchEnemy (player g) = Some c →
      (∃ en m, es !! c = Some en ∧
               Player_f64.sequenceMatchers (player g) !! Game.enemyId en = Some m ∧
               1 ≤ SequenceMatcher_f64.cyclesCompleted m) ∧
      N ≤ S t ∧
      ∀ j, j < N →
           ∃ gj, gs !! (t - j) = Some gj ∧
                 Player_f64.currentMatchingEnemy (player gj) = Some c.
Proof.
  destruct (trace_within poses (Game_f64.new es) [] new_ok_f64)
    as (gs & Htrace & Hall); [by intros c en Hcur|].
  exists gs. split; [done|]. intros t g c Ht Hc.
  destruct (Hall t g Ht) as [Hok Hin].
  destruct Hok as (_ & _ & _ & [Hcur Hconf] & Hwf & _).
  destruct (Hconf c Hc) as [Hcc _]. destruct (Hcur c Hcc) as [en Hen].
  destruct (Hin c en Hcc Hen) as (m & Hm & Hprog & Hwrapped).
  specialize (Hwrapped Hc).
  set (hist := reverse (take (S t) gs) ++ [Game_f64.new es]).
  assert (g :: reverse (take t gs) ++ [Game_f64.new es] = hist) as Hhist.
  { subst hist. by rewrite (take_S_r _ _ _ Ht), reverse_snoc. }
  rewrite Hhist in Hprog.
  assert (N ≤ streak c hist) as Hstreak.
  { destruct (Hwf _ _ Hm) as ((en' & Hin' & _ & Hseq) & Hlen & _).
    unfold progress in Hprog. rewrite Hlen, Hseq, (sameLength en' Hin') in Hprog.
    nia. }
  assert (length (take (S t) gs) = S t) as Hlen.
  { rewrite length_take. apply lookup_lt_Some in Ht. lia. }
  assert (∀ j, j < N → j ≤ t) as Hbound.
  { intros j Hj. destruct (decide (j ≤ t)) as [|Hgt]; [done|].
    destruct (streak_lookup c hist (S t)) as (g0 & Hg0 & Hc0); [lia|].
    subst hist. rewrite lookup_app_r in Hg0 by (rewrite length_reverse; lia).
    rewrite length_reverse, Hlen, Nat.sub_diag in Hg0. by injection Hg0 as <-. }
  split; [by exists en, m|]. split.
  - destruct N as [|n]; [lia|]. specialize (Hbound n). lia.
  - intros j Hj. specialize (Hbound j Hj).
    destruct (streak_lookup c hist j) as (gj & Hgj & Hcj); [lia|].
    exists gj. split; [|done].
    subst hist. rewrite lookup_app_l in Hgj by (rewrite length_reverse; lia).
    rewrite reverse_lookup in Hgj by lia. rewrite Hlen in Hgj.
    rewrite lookup_take_lt in Hgj by lia.
    replace (t - j) with (S t - S j) by lia. exact Hgj.
Qed.

End Invariant_f64.

(** ** Confirmation *)

Section Confirmation_f64.
Import Game_f64 MATCHING_CONFIG_f64.

(** [trace] lists the games that [run] passes through. *)
Lemma trace_run (poses : list PoseState) :
  ∀ g, run poses g = (fun gs => default g (last gs)) <$> trace poses g.
Proof.
  induction poses as [|pose poses IH]; intros g; [done|].
  cbn [run trace]. destruct (update pose g) as [g1|]; [|done]. simpl.
  rewrite IH. destruct (trace poses g1) as [gs|]; [|done]. simpl.
  f_equal. rewrite last_cons. by destruct (last gs).
Qed.

(** The three enemies of [createEnemies]: every sequence is 300 frames long
    and begins with its only active pose, so that every match starts at
    index 0. *)
Lemma createEnemies_length (en : Enemy.t) :
  en ∈ Game.createEnemies → length (Game.enemyFrames en) = 300.
Proof.
  unfold Game.createEnemies. rewrite !elem_of_cons, elem_of_nil.
  intros [->|[->|[->|[]]]]; reflexivity.
Qed.

Lemma createEnemies_start_at_first (en : Enemy.t) (p : PoseState) (s : nat) :
  en ∈ Game.createEnemies →
  SequenceMatcher.findFrom (Some p) 0 (Game.enemyFrames en) = Some s → s = 0.
Proof.
  unfold Game.createEnemies. rewrite !elem_of_cons, elem_of_nil.
  destruct p as [[] [] [] [] lamp];
    intros [->|[->|[->|[]]]] Hfind; vm_compute in Hfind; congruence.
Qed.

(** C5. In every game of the program (the three enemies of [createEnemies],
    any poses of the player), whenever an enemy is confirmed at the end of a
    frame, in particular at the end of the frame that confirms it, that
    enemy's matcher has [cyclesCompleted >= 1], and the enemy has been the
    current candidate at the end of each of the last 300 frames, 300 being
    the length of its reference sequence: an enemy tracked for 299 frames
    or fewer is never confirmed, whatever its score. The game never throws. *)
Theorem confirmation_needs_full_cycle_of_tracking (poses : list PoseState) :
  ∃ gs, trace poses (Game_f64.new Game.createEnemies) = Some gs ∧
    ∀ t g c, gs !! t = Some g →
      Player_f64.confirmedMatchEnemy (player g) = Some c →
      (∃ en m, Game.createEnemies !! c = Some en ∧
               length (Game.enemyFrames en) = 300 ∧
               Player_f64.sequenceMatchers (player g) !! Game.enemyId en = Some m ∧
               1 ≤ SequenceMatcher_f64.cyclesCompleted m) ∧
      300 ≤ S t ∧
      ∀ j, j < 300 →
           ∃ gj, gs !! (t - j) = Some gj ∧
                 Player_f64.currentMatchingEnemy (player gj) = Some c.
Proof.
  destruct (trace_confirmed Game.createEnemies createEnemies_start_at_first
              300 createEnemies_length poses) as (gs & Htrace & Hall).
  exists gs. split; [done|]. intros t g c Ht Hc.
  destruct (Hall t g c Ht Hc) as ((en & m & Hen & Hm & Hcyc) & Hlong & Hcur).
  split; [|by split].
  exists en, m. split; [done|].
  split; [by eapply createEnemies_length, list_elem_of_lookup_2|]. done.
Qed.

(** Such games exist: mirroring the first enemy from frame 5 on (150 frames
    with the left arm raised, then idle), the player is tracked but not
    confirmed at the end of frame 303, and confirmed at the end of frame
    304, the 300th frame of tracking. *)
Example mirroring_first_enemy_confirms_on_frame_304 :
  let idle := Game.pose false false false false in
  let leftArm := Game.pose true false false false in
  (∃ g, run (replicate 4 idle ++ replicate 150 leftArm ++ replicate 149 idle)
            (Game_f64.new Game.createEnemies) = Some g ∧
        Player_f64.currentMatchingEnemy (player g) = Some 0 ∧
        Player_f64.confirmedMatchEnemy (player g) = None) ∧
  (∃ g, run (replicate 4 idle ++ replicate 150 leftArm ++ replicate 150 idle)
            (Game_f64.new Game.createEnemies) = Some g ∧
        Player_f64.confirmedMatchEnemy (player g) = Some 0).
Proof.
  intros idle leftArm.
  split; eexists; (split; [vm_compute; reflexivity|]); by vm_compute.
Qed.

End Confirmation_f64.

(** ** The warm-up guard *)

Section WarmUp_f64.
Import Game_f64.

(** The arbitrator has not done anything yet. *)
Definition untouched_f64 (pl : Player_f64.t) : Prop :=
  Player_f64.sequenceMatchers pl = ∅ ∧
  Player_f64.currentMatchingEnemy pl = None ∧
  Player_f64.confirmedMatchEnemy pl = None ∧
  Player_f64.graceFrames pl = 0.

Definition warm_f64 (g : Game_f64.t) : Prop :=
  Player_f64.maxHistoryLength (player g) = MATCHING_CONFIG_f64.MAX_HISTORY_LENGTH ∧
  (length (Player_f64.moveHistory (player g)) < 5 → untouched_f64 (player g)).

Lemma checkPlayerMatches_warmup_f64 (g : Game_f64.t) :
  length (Player_f64.moveHistory (player g)) < 5 → checkPlayerMatches g = Some g.
Proof. intros Hlen. unfold checkPlayerMatches. by case_decide. Qed.

Lemma update_warm_f64 (pose : PoseState) (g g1 : Game_f64.t) :
  warm_f64 g → update pose g = Some g1 → warm_f64 g1.
Proof.
  intros [Hmax Hun] Hupd. unfold update in Hupd.
  pose proof (checkPlayerMatches_sameLog_f64 _ _ Hupd) as (_ & _ & Hlog).
  destruct Hlog as (_ & Hhist & Hmax1 & _). simpl in Hhist, Hmax1.
  split; [by rewrite Hmax1|].
  rewrite Hhist. intros Hshort.
  rewrite checkPlayerMatches_warmup_f64 in Hupd by done.
  injection Hupd as <-.
  pose proof (recordMove_length_f64 (Player_f64.set_states pose (player g))) as Hrec.
  simpl in Hrec, Hshort |- *. rewrite Hrec, Hmax in Hshort.
  unfold MATCHING_CONFIG_f64.MAX_HISTORY_LENGTH in Hshort.
  clear Hrec Hhist Hmax1. apply Hun. case_decide; lia.
Qed.

Lemma run_warm_f64 (poses : list PoseState) :
  ∀ g g', warm_f64 g → run poses g = Some g' → warm_f64 g'.
Proof.
  induction poses as [|pose poses IH]; intros g g' Hw; simpl.
  - by intros [= <-].
  - intros Hrun. destruct (update pose g) as [g1|] eqn:Hupd; [|done].
    simpl in Hrun. eapply IH; [|exact Hrun]. by eapply update_warm_f64.
Qed.

Lemma new_warm_f64 (es : list Enemy.t) : warm_f64 (Game_f64.new es).
Proof. by split. Qed.

End WarmUp_f64.

(** ** The grace period *)

Section Grace_f64.
Import Game_f64 MATCHING_CONFIG_f64.

(** The spec's "mismatch": the player's pose and the expected frame are both
    active and differ, the one case in which [updateMatch] returns [false]. *)
Definition mismatching (expected : option PoseState) (pose : PoseState) : bool :=
  SequenceMatcher.isActiveState (Some pose) &&
  SequenceMatcher.isActiveState expected &&
  negb (SequenceMatcher.statesEqual (Some pose) expected).

(** The score a mismatching update leaves, and the scores that [n]
    mismatching updates in a row leave, one after the other. *)
Definition afterMismatch (c : float) : float :=
  Math.max 0 (c - CONFIDENCE_DECAY_ACTIVE).

Fixpoint afterMismatches (n : nat) (c : float) : list float :=
  match n with
  | 0 => []
  | S n' => afterMismatch c :: afterMismatches n' (afterMismatch c)
  end.

Definition initialFields_f64 (m : SequenceMatcher_f64.t) : Prop :=
  SequenceMatcher_f64.matchPosition m = 0 ∧
  SequenceMatcher_f64.cyclesCompleted m = 0 ∧
  SequenceMatcher_f64.confidenceScore m = 0%float ∧
  SequenceMatcher_f64.lastMatchFrame m = NegInfinity ∧
  SequenceMatcher_f64.isActive m = false.

Lemma step_mismatch_f64 (m : SequenceMatcher_f64.t) (pose : PoseState) (f : nat) :
  mismatching (SequenceMatcher_f64.expectedState m) pose = true →
  SequenceMatcher_f64.step m (Some pose) f =
    (SequenceMatcher_f64.set_isActive false
       (SequenceMatcher_f64.set_confidenceScore
          (afterMismatch (SequenceMatcher_f64.confidenceScore m)) m),
     false).
Proof.
  unfold mismatching. rewrite !andb_true_iff, negb_true_iff.
  intros [[Hp He] Hne].
  unfold SequenceMatcher_f64.step, SequenceMatcher_f64.updateMatch.
  by rewrite Hne, Hp, He.
Qed.

Lemma update_sameConfig_f64 (pose : PoseState) (g g' : Game_f64.t) :
  update pose g = Some g' →
  enemies g' = enemies g ∧
  Player_f64.maxHistoryLength (player g') = Player_f64.maxHistoryLength (player g) ∧
  Player_f64.gracePeriod (player g') = Player_f64.gracePeriod (player g) ∧
  Player_f64.moveHistory (player g') =
    Player_f64.moveHistory (Player_f64.update pose (player g)).
Proof.
  unfold update. intros (He & _ & Hlog)%checkPlayerMatches_sameLog_f64.
  destruct Hlog as (_ & Hh & Hm & _ & Hg & _). by simpl in *.
Qed.

Lemma run_gracePeriod_f64 (poses : list PoseState) :
  ∀ g g', run poses g = Some g' →
          Player_f64.gracePeriod (player g') = Player_f64.gracePeriod (player g) ∧
          enemies g' = enemies g.
Proof.
  induction poses as [|pose poses IH]; intros g g'; simpl.
  - by intros [= <-].
  - destruct (update pose g) as [g1|] eqn:Hupd; [|done]. simpl.
    intros [-> ->]%IH. by apply update_sameConfig_f64 in Hupd as (-> & _ & -> & _).
Qed.

(** One frame with a confirmed enemy: the grace counter grows by at most
    one, and the enemy stays confirmed unless the counter reaches the grace
    period. *)
Lemma check_confirmed_f64 (g : Game_f64.t) (c : nat) (en : Enemy.t) :
  Player_f64.confirmedMatchEnemy (player g) = Some c →
  enemies g !! c = Some en →
  ∃ g', checkPlayerMatches g = Some g' ∧
        Player_f64.graceFrames (player g') ≤ S (Player_f64.graceFrames (player g)) ∧
        (S (Player_f64.graceFrames (player g)) < Player_f64.gracePeriod (player g) →
         Player_f64.confirmedMatchEnemy (player g') = Some c).
Proof.
  intros Hconf Hen. unfold checkPlayerMatches. case_decide.
  { exists g. split; [done|]. split; [lia|done]. }
  destruct (initMatchers_covers_f64 (enemies g)
              (Player_f64.sequenceMatchers (player g)) en)
    as [m Hm]; [by eapply list_elem_of_lookup_2|].
  unfold updateMatchers, trackEnemy. rewrite Hconf, Hen. simpl. rewrite Hm. simpl.
  destruct (SequenceMatcher_f64.step m _ _) as [m1 matched]. simpl.
  unfold handleTransitions. simpl. rewrite Hconf, Hen. simpl.
  repeat case_match; eexists; (split; [reflexivity|]); simpl;
    (split; [lia|]); try done; lia.
Qed.

Lemma update_confirmed_f64 (pose : PoseState) (g : Game_f64.t) (c : nat)
    (en : Enemy.t) :
  Player_f64.confirmedMatchEnemy (player g) = Some c →
  enemies g !! c = Some en →
  ∃ g', update pose g = Some g' ∧
        Player_f64.graceFrames (player g') ≤ S (Player_f64.graceFrames (player g)) ∧
        (S (Player_f64.graceFrames (player g)) < Player_f64.gracePeriod (player g) →
         Player_f64.confirmedMatchEnemy (player g') = Some c).
Proof.
  intros Hconf Hen. unfold update.
  set (mid := Build_t _ _ _).
  destruct (check_confirmed_f64 mid c en) as (g' & Hcheck & Hgrace & Hkeep); [done..|].
  by exists g'.
Qed.

Lemma run_confirmed_f64 (poses : list PoseState) (c : nat) (en : Enemy.t) :
  ∀ g, Player_f64.confirmedMatchEnemy (player g) = Some c →
       enemies g !! c = Some en →
       Player_f64.graceFrames (player g) + length poses
         < Player_f64.gracePeriod (player g) →
       ∃ g', run poses g = Some g' ∧
             Player_f64.confirmedMatchEnemy (player g') = Some c.
Proof.
  induction poses as [|pose poses IH]; intros g Hconf Hen Hlt; simpl in *.
  - by exists g.
  - destruct (update_confirmed_f64 pose g c en Hconf Hen)
      as (g1 & Hupd & Hgrace & Hkeep).
    rewrite Hupd. simpl.
    apply update_sameConfig_f64 in Hupd as (He & _ & Hg & _).
    apply IH; [apply Hkeep; lia | by rewrite He | rewrite Hg; lia].
Qed.

(** One mismatching frame against a confirmed enemy that leaves a score
    not above the confirm threshold: the matcher stalls, the grace counter
    grows by one, and when it reaches the grace period both candidates are
    cleared and every matcher is reset. *)
Lemma check_mismatch_f64 (g : Game_f64.t) (c : nat) (en : Enemy.t)
    (m : SequenceMatcher_f64.t) :
  5 ≤ length (Player_f64.moveHistory (player g)) →
  Player_f64.confirmedMatchEnemy (player g) = Some c →
  enemies g !! c = Some en →
  Player_f64.sequenceMatchers (player g) !! Game.enemyId en = Some m →
  mismatching (SequenceMatcher_f64.expectedState m) (Player_f64.states (player g))
    = true →
  gtb (afterMismatch (SequenceMatcher_f64.confidenceScore m))
      QUALITY_THRESHOLD_CONFIRM = false →
  ∃ g', checkPlayerMatches g = Some g' ∧
        if decide (S (Player_f64.graceFrames (player g))
                     < Player_f64.gracePeriod (player g))
        then
          Player_f64.confirmedMatchEnemy (player g') = Some c ∧
          Player_f64.graceFrames (player g') = S (Player_f64.graceFrames (player g)) ∧
          ∃ m1, Player_f64.sequenceMatchers (player g') !! Game.enemyId en = Some m1 ∧
                SequenceMatcher_f64.expectedState m1 =
                  SequenceMatcher_f64.expectedState m ∧
                SequenceMatcher_f64.confidenceScore m1 =
                  afterMismatch (SequenceMatcher_f64.confidenceScore m)
        else
          Player_f64.confirmedMatchEnemy (player g') = None ∧
          Player_f64.currentMatchingEnemy (player g') = None ∧
          is_Some (Player_f64.sequenceMatchers (player g') !! Game.enemyId en) ∧
          ∀ k m', Player_f64.sequenceMatchers (player g') !! k = Some m' →
                  initialFields_f64 m'.
Proof.
  intros Hlen Hconf Hen Hm Hmis Hq.
  unfold checkPlayerMatches. case_decide; [lia|].
  unfold updateMatchers, trackEnemy. rewrite Hconf, Hen. simpl.
  rewrite (initMatchers_keeps_f64 _ _ _ _ Hm). simpl.
  rewrite (step_mismatch_f64 _ _ _ Hmis). simpl.
  unfold handleTransitions. simpl. rewrite Hconf, Hen. simpl.
  rewrite bool_decide_eq_true_2 by done.
  unfold SequenceMatcher_f64.getMatchQuality. simpl.
  rewrite Hq. simpl.
  case_decide; eexists; (split; [reflexivity|]); simpl.
  - split; [done|]. split; [done|].
    eexists. split; [apply lookup_insert_eq|]. done.
  - split; [done|]. split; [done|]. split.
    { rewrite lookup_fmap, lookup_insert_eq. by eexists. }
    intros k m' Hk. rewrite lookup_fmap in Hk.
    destruct (_ !! k) as [x|]; [|done]. by injection Hk as <-.
Qed.

Lemma run_mismatches_f64 (poses : list PoseState) (c : nat) (en : Enemy.t)
    (e : option PoseState) :
  ∀ (g : Game_f64.t) (m : SequenceMatcher_f64.t),
    Player_f64.maxHistoryLength (player g) = MAX_HISTORY_LENGTH →
    5 ≤ length (Player_f64.moveHistory (player g)) →
    Player_f64.confirmedMatchEnemy (player g) = Some c →
    enemies g !! c = Some en →
    Player_f64.sequenceMatchers (player g) !! Game.enemyId en = Some m →
    SequenceMatcher_f64.expectedState m = e →
    Forall (fun q => gtb q QUALITY_THRESHOLD_CONFIRM = false)
           (afterMismatches (length poses) (SequenceMatcher_f64.confidenceScore m)) →
    Forall (fun pose => mismatching e pose = true) poses →
    poses ≠ [] →
    Player_f64.graceFrames (player g) + length poses
      = Player_f64.gracePeriod (player g) →
    ∃ g', run poses g = Some g' ∧
          Player_f64.confirmedMatchEnemy (player g') = None ∧
          Player_f64.currentMatchingEnemy (player g') = None ∧
          is_Some (Player_f64.sequenceMatchers (player g') !! Game.enemyId en) ∧
          ∀ k m', Player_f64.sequenceMatchers (player g') !! k = Some m' →
                  initialFields_f64 m'.
Proof.
  induction poses as [|pose poses IH];
    intros g m Hmax Hlen Hconf Hen Hm He Hq Hall Hne Hgrace; [done|].
  apply Forall_cons in Hall as [Hmis Hall].
  cbn [length afterMismatches] in Hq. apply Forall_cons in Hq as [Hq1 Hq].
  cbn [run]. unfold update at 1.
  set (mid := Build_t _ _ _).
  assert (5 ≤ length (Player_f64.moveHistory (player mid))) as Hlen'.
  { subst mid. cbn [player Player_f64.set_frameCounter Player_f64.moveHistory].
    unfold Player_f64.update. rewrite recordMove_length_f64. simpl. rewrite Hmax.
    unfold MAX_HISTORY_LENGTH. case_decide; lia. }
  destruct (check_mismatch_f64 mid c en m Hlen') as (g1 & Hcheck & Hres);
    [done | done | done | by rewrite He | done |].
  rewrite Hcheck. simpl.
  pose proof (checkPlayerMatches_sameLog_f64 _ _ Hcheck) as (He1 & _ & Hlog).
  destruct Hlog as (_ & Hh1 & Hm1 & _ & Hg1 & _).
  change (Player_f64.graceFrames (player mid))
    with (Player_f64.graceFrames (player g)) in Hres.
  change (Player_f64.gracePeriod (player mid))
    with (Player_f64.gracePeriod (player g)) in Hres, Hg1.
  change (Player_f64.maxHistoryLength (player mid))
    with (Player_f64.maxHistoryLength (player g)) in Hm1.
  change (enemies mid) with (enemies g) in He1.
  cbn [length] in Hgrace.
  destruct poses as [|pose' poses].
  - (* the last frame of the grace period *)
    simpl in Hgrace. case_decide; [lia|]. exists g1. by simpl.
  - case_decide; [|simpl in Hgrace; lia].
    destruct Hres as (Hconf1 & Hgr1 & m1 & Hlk1 & Hexp1 & Hc1).
    apply (IH g1 m1); try done.
    + by rewrite Hm1.
    + by rewrite Hh1.
    + by rewrite He1.
    + by rewrite Hexp1.
    + by rewrite Hc1.
    + rewrite Hgr1, Hg1. lia.
Qed.

(** C6, as amended. In a game in play, for a confirmed enemy whose grace
    counter is 0 (as it is at the moment of confirmation): fewer than
    [GRACE_PERIOD] further frames, whatever the poses, never clear the
    confirmed candidate; and [GRACE_PERIOD] consecutive mismatching frames
    clear the confirmed and the current candidate and reset every matcher,
    provided the score that each of these mismatching updates leaves is not
    above the confirm threshold. Scores are binary64 numbers. *)
Theorem grace_period_after_confirmation
    (es : list Enemy.t) (played : list PoseState) (g : Game_f64.t)
    (c : nat) (en : Enemy.t) :
  run played (Game_f64.new es) = Some g →
  Player_f64.confirmedMatchEnemy (player g) = Some c →
  enemies g !! c = Some en →
  Player_f64.graceFrames (player g) = 0 →
  (∀ poses, length poses < GRACE_PERIOD →
     ∃ g', run poses g = Some g' ∧
           Player_f64.confirmedMatchEnemy (player g') = Some c) ∧
  (∀ poses m,
     Player_f64.sequenceMatchers (player g) !! Game.enemyId en = Some m →
     length poses = GRACE_PERIOD →
     Forall (fun pose => mismatching (SequenceMatcher_f64.expectedState m) pose = true)
            poses →
     Forall (fun q => gtb q QUALITY_THRESHOLD_CONFIRM = false)
            (afterMismatches GRACE_PERIOD (SequenceMatcher_f64.confidenceScore m)) →
     ∃ g', run poses g = Some g' ∧
           Player_f64.confirmedMatchEnemy (player g') = None ∧
           Player_f64.currentMatchingEnemy (player g') = None ∧
           is_Some (Player_f64.sequenceMatchers (player g') !! Game.enemyId en) ∧
           ∀ k m', Player_f64.sequenceMatchers (player g') !! k = Some m' →
                   SequenceMatcher_f64.matchPosition m' = 0 ∧
                   SequenceMatcher_f64.cyclesCompleted m' = 0 ∧
                   SequenceMatcher_f64.confidenceScore m' = 0%float ∧
                   SequenceMatcher_f64.lastMatchFrame m' = NegInfinity ∧
                   SequenceMatcher_f64.isActive m' = false).
Proof.
  intros Hplayed Hconf Hen Hgrace.
  destruct (run_warm_f64 played _ _ (new_warm_f64 es) Hplayed) as [Hmax Hun].
  destruct (run_gracePeriod_f64 played _ _ Hplayed) as [Hperiod _].
  change (Player_f64.gracePeriod (player (Game_f64.new es)))
    with GRACE_PERIOD in Hperiod.
  assert (5 ≤ length (Player_f64.moveHistory (player g))) as Hlen.
  { destruct (decide (length (Player_f64.moveHistory (player g)) < 5)) as [Hshort|];
      [|lia].
    destruct (Hun Hshort) as (_ & _ & Hnone & _). congruence. }
  split.
  - intros poses Hposes. apply (run_confirmed_f64 poses c en); [done..|].
    rewrite Hgrace, Hperiod. lia.
  - intros poses m Hm Hposes Hall Hq.
    apply (run_mismatches_f64 poses c en (SequenceMatcher_f64.expectedState m) g m);
      try done.
    + by rewrite Hposes.
    + intros ->. by simpl in Hposes.
    + rewrite Hgrace, Hperiod. lia.
Qed.

(** C6 as stated fails on both sides. (a) An enemy confirmed with
    score 1 survives [GRACE_PERIOD] consecutive mismatching frames: the
    first two still leave the score above the confirm threshold, so the
    grace counter only reaches 58. (b) After one frame of timing jitter has
    already started the grace counter, [GRACE_PERIOD - 1] mismatching frames
    clear the confirmed enemy. *)
Example grace_period_counts_low_quality_frames :
  let idle := Game.pose false false false false in
  let leftArm := Game.pose true false false false in
  let rightArm := Game.pose false true false false in
  let enemy frames :=
    {| Enemy.bodyColor := "#ff00ff";
       Enemy.moveSequence :=
         {| MoveSequence.frames := frames; MoveSequence.id := "enemy1" |} |} in
  (∃ g m g',
     run [idle; idle; idle; idle; leftArm; idle; leftArm; idle]
         (Game_f64.new [enemy [leftArm; idle]]) = Some g ∧
     Player_f64.confirmedMatchEnemy (player g) = Some 0 ∧
     Player_f64.graceFrames (player g) = 0 ∧
     Player_f64.sequenceMatchers (player g) !! "enemy1" = Some m ∧
     SequenceMatcher_f64.confidenceScore m = 1%float ∧
     mismatching (SequenceMatcher_f64.expectedState m) rightArm = true ∧
     run (replicate GRACE_PERIOD rightArm) g = Some g' ∧
     Player_f64.confirmedMatchEnemy (player g') = Some 0 ∧
     Player_f64.graceFrames (player g') = 58) ∧
  (∃ g m g',
     run [idle; idle; idle; idle; leftArm; leftArm]
         (Game_f64.new [enemy [idle; leftArm]]) = Some g ∧
     Player_f64.confirmedMatchEnemy (player g) = Some 0 ∧
     Player_f64.graceFrames (player g) = 1 ∧
     Player_f64.sequenceMatchers (player g) !! "enemy1" = Some m ∧
     mismatching (SequenceMatcher_f64.expectedState m) rightArm = true ∧
     run (replicate (GRACE_PERIOD - 1) rightArm) g = Some g' ∧
     Player_f64.confirmedMatchEnemy (player g') = None).
Proof.
  intros idle leftArm rightArm enemy. split.
  - eexists _, _, _. split; [vm_compute; reflexivity|].
    split; [vm_compute; reflexivity|]. split; [vm_compute; reflexivity|].
    split; [vm_compute; reflexivity|]. split; [vm_compute; reflexivity|].
    split; [vm_compute; reflexivity|]. split; [vm_compute; reflexivity|].
    split; vm_compute; reflexivity.
  - eexists _, _, _. split; [vm_compute; reflexivity|].
    split; [vm_compute; reflexivity|]. split; [vm_compute; reflexivity|].
    split; [vm_compute; reflexivity|]. split; [vm_compute; reflexivity|].
    split; [vm_compute; reflexivity|]. vm_compute; reflexivity.
Qed.

(** The rounding of the scores decides such games. After four frames of
    timing jitter the score 1 has become 0.6000000000000001, so the first
    mismatching frame leaves 0.3500000000000001, above the confirm threshold:
    the grace counter starts one frame later, and [GRACE_PERIOD] mismatching
    frames leave the enemy confirmed with the counter at 59. *)
Example grace_period_and_rounding :
  let idle := Game.pose false false false false in
  let leftArm := Game.pose true false false false in
  let rightArm := Game.pose false true false false in
  let en := {| Enemy.bodyColor := "#ff00ff";
               Enemy.moveSequence :=
                 {| MoveSequence.frames := [leftArm; idle];
                    MoveSequence.id := "enemy1" |} |} in
  ∃ g m g',
    run ([idle; idle; idle; idle; leftArm; idle; leftArm; idle] ++
         [idle; leftArm; idle; leftArm]) (Game_f64.new [en]) = Some g ∧
    Player_f64.confirmedMatchEnemy (player g) = Some 0 ∧
    Player_f64.graceFrames (player g) = 0 ∧
    Player_f64.sequenceMatchers (player g) !! "enemy1" = Some m ∧
    SequenceMatcher_f64.confidenceScore m = 0.6000000000000001%float ∧
    afterMismatch (SequenceMatcher_f64.confidenceScore m)
      = 0.3500000000000001%float ∧
    gtb (afterMismatch (SequenceMatcher_f64.confidenceScore m))
        QUALITY_THRESHOLD_CONFIRM = true ∧
    mismatching (SequenceMatcher_f64.expectedState m) rightArm = true ∧
    run (replicate GRACE_PERIOD rightArm) g = Some g' ∧
    Player_f64.confirmedMatchEnemy (player g') = Some 0 ∧
    Player_f64.graceFrames (player g') = 59.
Proof.
  intros idle leftArm rightArm en.
  eexists _, _, _. split; [vm_compute; reflexivity|].
  split; [vm_compute; reflexivity|]. split; [vm_compute; reflexivity|].
  split; [vm_compute; reflexivity|]. split; [vm_compute; reflexivity|].
  split; [vm_compute; reflexivity|]. split; [vm_compute; reflexivity|].
  split; [vm_compute; reflexivity|]. split; [vm_compute; reflexivity|].
  split; vm_compute; reflexivity.
Qed.

End Grace_f64.

Example grace_period_after_confirmation_witness :
  let idle := Game.pose false false false false in
  let leftArm := Game.pose true false false false in
  let rightArm := Game.pose false true false false in
  let en := {| Enemy.bodyColor := "#ff00ff";
               Enemy.moveSequence :=
                 {| MoveSequence.frames := [leftArm; idle];
                    MoveSequence.id := "enemy1" |} |} in
  let played := [idle; idle; idle; idle; leftArm; idle] in
  let g := default (Game_f64.new [en]) (Game_f64.run played (Game_f64.new [en])) in
  (∃ g', Game_f64.run (replicate 59 rightArm) g = Some g' ∧
         Player_f64.confirmedMatchEnemy (Game_f64.player g') = Some 0) ∧
  (∃ g', Game_f64.run (replicate 60 rightArm) g = Some g' ∧
         Player_f64.confirmedMatchEnemy (Game_f64.player g') = None).
Proof.
  intros idle leftArm rightArm en played g.
  destruct (grace_period_after_confirmation [en] played g 0 en) as [Hkeep Hclear].
  - vm_compute. reflexivity.
  - vm_compute. reflexivity.
  - vm_compute. reflexivity.
  - vm_compute. reflexivity.
  - split.
    + apply Hkeep. rewrite length_replicate. unfold MATCHING_CONFIG_f64.GRACE_PERIOD. lia.
    + destruct (Hclear (replicate 60 rightArm)
                  (default (SequenceMatcher_f64.new [])
                     (Player_f64.sequenceMatchers (Game_f64.player g) !! "enemy1")))
        as (g' & Hrun & Hnone & _).
      * vm_compute. reflexivity.
      * apply length_replicate.
      * apply Forall_replicate. vm_compute. reflexivity.
      * vm_compute. repeat constructor.
      * exists g'. split; assumption.
Defined.
